(** * Playback, interpolation and geometry core of the traffic twin front end

    A shallow embedding of the pure and stateful parts of
    [frontend/src/components/UnifiedVisualization.vue] and of the junction
    part of [prepareSumoNetworkGeojson] (utils.js), with the properties the
    specification states about them.

    Numbers.  JavaScript numbers are modelled by the rationals [Q]: the
    comparisons [<], [>], [===] of the source are the decidable comparisons
    of [Q] ([===] on numbers is numeric equality, [Qeq]), and arithmetic is
    exact.  NaN, the infinities and rounding error are outside that model.
    What is stated about an interpolated or accumulated value is therefore
    the expression the code evaluates, or a comparison that rounding to
    nearest preserves (an exact match, an order, a bound with room for the
    rounding); it is not a property that only exact arithmetic has.  Where
    rounding changes the outcome, the module [Binary64] evaluates the same
    expressions in IEEE binary64, with the kernel's floating-point numbers,
    on concrete inputs; and [colorFromFraction_number] adds NaN for the one
    function that raises on it.
    Array indices are natural numbers; [(lo + hi) >> 1] is the halving of a
    non-negative sum below 2^31, which is what a path that fits in memory
    gives.

    Errors.  Reading an element of [undefined] raises a TypeError in the
    source; the model keeps that outcome explicit with [completion]. *)

From Stdlib Require Import QArith Qround Qminmax ZArith Lia Lqa Ascii.
From Stdlib Require Floats.
From stdpp Require Import base option list strings gmap.
From Equations Require Import Equations.

Local Open Scope Q_scope.

(** ** Numeric helpers *)

(** [x < y] on numbers, as a boolean. *)
Definition Qltb (x y : Q) : bool := negb (Qle_bool y x).

(** [v || 0] and [v != null ? v : 0] on an optional number: both give the
    number when it is there (a falsy number is [0] itself) and [0] when the
    field is absent. *)
Definition or_zero (v : option Q) : Q := default 0 v.

(** ** Completions *)

Inductive js_error : Type := TypeError.

Inductive completion (A : Type) : Type :=
| Normal (a : A)
| Throw (e : js_error).
Arguments Normal {A} a.
Arguments Throw {A} e.

Definition cbind {A B} (c : completion A) (k : A -> completion B) : completion B :=
  match c with
  | Normal a => k a
  | Throw e => Throw e
  end.

#[global] Instance completion_ret : MRet completion := fun A a => Normal a.
#[global] Instance completion_bind : MBind completion := fun A B k c => cbind c k.

(** ** Data model *)

(** One path entry [[lon, lat, t, speed?, ratio?, angle?]]. *)
Record Sample : Type := mkSample {
  s_lon : Q;
  s_lat : Q;
  s_t : Q;
  s_spd : option Q;
  s_ratio : option Q;
  s_angle : option Q
}.

Record Trip : Type := mkTrip {
  id : string;
  path : list Sample
}.

(** The object [{ pos: [lon, lat], spd_mps, ratio, angle }]. *)
Record Point : Type := mkPoint {
  pos : Q * Q;
  spd_mps : Q;
  ratio : Q;
  angle : Q
}.

(** [arr[i]] followed by a property read: [undefined] raises. *)
Definition elem {A} (arr : list A) (i : nat) : completion A :=
  match arr !! i with
  | Some x => Normal x
  | None => Throw TypeError
  end.

(** ** interpolateSample *)

Definition getPoint (p : Sample) : Point :=
  {| pos := (s_lon p, s_lat p);
     spd_mps := or_zero (s_spd p);
     ratio := or_zero (s_ratio p);
     angle := or_zero (s_angle p) |}.

Definition inspect {A} (a : A) : {b : A | a = b} := exist _ a eq_refl.

(** The loop [while (lo + 1 < hi) { mid = (lo + hi) >> 1; ... }]; the
    variant [hi - lo] decreases at every iteration. *)
Equations? bsearch (path : list Sample) (t : Q) (lo hi : nat) : completion (nat * nat)
  by wf (hi - lo)%nat lt :=
  bsearch path t lo hi with inspect (lo + 1 <? hi)%nat := {
    | exist _ true Hc =>
        match path !! (Nat.shiftr (lo + hi) 1) with
        | Some pm =>
            if Qle_bool (s_t pm) t
            then bsearch path t (Nat.shiftr (lo + hi) 1) hi
            else bsearch path t lo (Nat.shiftr (lo + hi) 1)
        | None => Throw TypeError
        end
    | exist _ false Hc => Normal (lo, hi) }.
Proof.
  all: apply Nat.ltb_lt in Hc; pose proof (Nat.div2_odd (lo + hi)) as E;
    destruct (Nat.odd (lo + hi)); simpl in E; lia.
Qed.

(** The interpolation fraction [f = dt > 0 ? (t - p0[2]) / dt : 0]. *)
Definition fraction (p0 p1 : Sample) (t : Q) : Q :=
  let dt := s_t p1 - s_t p0 in
  if Qltb 0 dt then (t - s_t p0) / dt else 0.

(** Lines 96-107: the sample interpolated between [p0] and [p1]. *)
Definition interpolate (p0 p1 : Sample) (t : Q) : Point :=
  let f := fraction p0 p1 t in
  let lon := s_lon p0 + (s_lon p1 - s_lon p0) * f in
  let lat := s_lat p0 + (s_lat p1 - s_lat p0) * f in
  let spd := or_zero (s_spd p0) + (or_zero (s_spd p1) - or_zero (s_spd p0)) * f in
  let r0 := s_ratio p0 in
  let r1 := s_ratio p1 in
  let rat :=
    match r0, r1 with
    | Some a, Some b => a + (b - a) * f
    | Some a, None => a
    | None, Some b => b
    | None, None => 0
    end in
  let ang := or_zero (s_angle p0) + (or_zero (s_angle p1) - or_zero (s_angle p0)) * f in
  {| pos := (lon, lat); spd_mps := spd; ratio := rat; angle := ang |}.

Definition interpolateSample (d : Trip) (t : Q) : completion (option Point) :=
  let path := path d in
  let n := length path in
  if (n =? 0)%nat then Normal None else
  p_first ← elem path 0;
  if Qltb t (s_t p_first) then Normal None else
  p_last ← elem path (n - 1);
  if Qltb (s_t p_last) t then Normal None else
  if Qeq_bool t (s_t p_first) then Normal (Some (getPoint p_first)) else
  if Qeq_bool t (s_t p_last) then Normal (Some (getPoint p_last)) else
  '(lo, hi) ← bsearch path t 0 (n - 1);
  p0 ← elem path lo;
  p1 ← elem path hi;
  Normal (Some (interpolate p0 p1 t)).

(** Samples in non-decreasing order of timestamp. *)
Definition sorted_by_time (path : list Sample) : Prop :=
  forall i j p q, (i <= j)%nat -> path !! i = Some p -> path !! j = Some q ->
    s_t p <= s_t q.

Definition sample_at (t lon lat : Q) : Sample :=
  mkSample lon lat t None None None.

(** [x] lies between [a] and [b], whichever of the two is the smaller. *)
Definition between (a x b : Q) : Prop := Qmin a b <= x /\ x <= Qmax a b.

Definition strictly_between (a x b : Q) : Prop := Qmin a b < x /\ x < Qmax a b.

(** A decision procedure for [sorted_by_time]. *)
Fixpoint sorted_by_timeb (l : list Sample) : bool :=
  match l with
  | p :: tl =>
      match tl with
      | q :: _ => Qle_bool (s_t p) (s_t q) && sorted_by_timeb tl
      | [] => true
      end
  | [] => true
  end.

(** The reading of "strictly between the two bracketing samples' positions"
    for one query: whenever [t] falls strictly between the timestamps of two
    adjacent samples, both coordinates of the result are strictly between
    theirs. *)
Definition strictly_between_brackets (d : Trip) (t : Q) : Prop :=
  forall r lo p0 p1,
    interpolateSample d t = Normal (Some r) ->
    path d !! lo = Some p0 -> path d !! S lo = Some p1 ->
    s_t p0 < t -> t < s_t p1 ->
    strictly_between (s_lon p0) (fst (pos r)) (s_lon p1) /\
    strictly_between (s_lat p0) (snd (pos r)) (s_lat p1).

(** A vehicle that moves north along a meridian: the longitude is the same
    at both samples. *)
Definition northbound : Trip :=
  mkTrip "veh0" [sample_at 0 0 0; sample_at 10 0 1].

(** The scenario of the specification. *)
Definition scenario : Trip :=
  mkTrip "veh1" [mkSample 0 0 0 (Some 10) (Some 0.2) (Some 0);
                 mkSample 1 1 10 (Some 20) (Some 0.8) (Some 90)].

(** A path of five samples with a repeated timestamp. *)
Definition commute : Trip :=
  mkTrip "veh2" [sample_at 0 0 0; sample_at 2 1 0; sample_at 2 1 1;
                 sample_at 6 3 1; sample_at 9 4 4].

(** A path whose middle sample has no ratio. *)
Definition gap : Trip :=
  mkTrip "veh3" [mkSample 0 0 0 (Some 4) (Some (1 # 5)) (Some 350);
                 mkSample 1 1 5 (Some 6) None (Some 10);
                 mkSample 2 2 10 (Some 8) (Some (4 # 5)) (Some 20)].


(** ** colorFromFraction *)

Definition clamp (v a b : Q) : Q := Qmax a (Qmin b v).

(** [Math.round]: the nearest integer, ties towards plus infinity. *)
Definition Math_round (x : Q) : Z := Qfloor (x + (1 # 2)).

Definition stops : list (Z * Z * Z) :=
  [(215, 25, 28); (255, 255, 191); (26, 150, 65)]%Z.

(** [arr[i]] for a computed integer index. *)
Definition elemZ {A} (arr : list A) (i : Z) : completion A :=
  if (i <? 0)%Z then Throw TypeError else elem arr (Z.to_nat i).

(** Lines 119-123: the colour inside segment [seg] at local fraction [lt]. *)
Definition gradient (seg : Z) (lt : Q) : completion (list Z) :=
  a ← elemZ stops seg;
  b ← elemZ stops (seg + 1);
  let '(a0, a1, a2) := a in
  let '(b0, b1, b2) := b in
  let r := Math_round (inject_Z a0 + (inject_Z b0 - inject_Z a0) * lt) in
  let g := Math_round (inject_Z a1 + (inject_Z b1 - inject_Z a1) * lt) in
  let bl := Math_round (inject_Z a2 + (inject_Z b2 - inject_Z a2) * lt) in
  Normal [r; g; bl; 220%Z].

Definition colorFromFraction (frac : Q) : completion (list Z) :=
  let t := clamp frac 0 1 in
  let seg := Z.min 1 (Qfloor (t * 2)) in
  let lt := (t * 2) - inject_Z seg in
  gradient seg lt.

(** The distance between two numbers. *)
Definition distance (x y : Q) : Q := Qmax (x - y) (y - x).

(** A number that may be NaN (the infinities stay outside the model). *)
Inductive number : Type :=
| NaN
| Num (q : Q).

(** [Math.min] and [Math.max] of two numbers: NaN as soon as one of them
    is. *)
Definition Math_min (a b : number) : number :=
  match a, b with
  | Num x, Num y => Num (Qmin x y)
  | _, _ => NaN
  end.

Definition Math_max (a b : number) : number :=
  match a, b with
  | Num x, Num y => Num (Qmax x y)
  | _, _ => NaN
  end.

Definition clamp_number (v a b : number) : number := Math_max a (Math_min b v).

(** [colorFromFraction] on an argument that may be NaN.  When [t] is NaN so
    are [t * 2], [Math.floor(t * 2)] and [seg = Math.min(1, ...)]; then
    [stops[seg]] is [undefined] and reading [a[0]] raises. *)
Definition colorFromFraction_number (frac : number) : completion (list Z) :=
  match clamp_number frac (Num 0) (Num 1) with
  | Num t =>
      let seg := Z.min 1 (Qfloor (t * 2)) in
      let lt := (t * 2) - inject_Z seg in
      gradient seg lt
  | NaN => Throw TypeError
  end.

(** ** Component state: playback clock, rendering engines, host *)

Inductive ViewMode : Type := Mode2D | Mode3D.

(** A rendering backend instance: a Mapbox map or a standalone deck.gl. *)
Inductive backend : Type :=
| MapboxMap (n : nat)
| DeckGL (n : nat).

#[global] Instance backend_eq_dec : EqDecision backend.
Proof. solve_decision. Defined.

#[global] Instance ViewMode_eq_dec : EqDecision ViewMode.
Proof. solve_decision. Defined.

(** The refs [currentTime], [minTime], [maxTime], [playing], [speed] and the
    variable [lastTimestamp] ([None] is [null]). *)
Record Clock : Type := mkClock {
  currentTime : Q;
  minTime : Q;
  maxTime : Q;
  playing : bool;
  speed : Q;
  lastTimestamp : option Q
}.

(** The variables [map], [deckgl] and [deckOverlay]. *)
Record Engines : Type := mkEngines {
  map : option backend;
  deckgl : option backend;
  deckOverlay : option nat
}.

(** What the page holds on behalf of the component: whether
    [window.mapboxgl] is loaded, the backends constructed and not yet
    removed or finalized, the animation frame callbacks requested and neither
    run nor cancelled, the number of [switchMode] calls waiting in their
    100 ms timeout, and the supplies of fresh identifiers. *)
Record Host : Type := mkHost {
  mapboxgl : bool;
  live : list backend;
  frames : list nat;
  timers : nat;
  next_handle : nat;
  next_frame : nat
}.

Record State : Type := mkState {
  mode : ViewMode;
  clock : Clock;
  engines : Engines;
  animationFrameId : option nat;
  host : Host
}.

(** [animationFrameId = requestAnimationFrame(animate)]: a fresh non-zero
    id is handed out and the callback is queued. *)
Definition requestAnimationFrame (s : State) : State :=
  let h := host s in
  let i := next_frame h in
  mkState (mode s) (clock s) (engines s) (Some i)
    (mkHost (mapboxgl h) (live h) (frames h ++ [i]) (timers h)
       (next_handle h) (S i)).

Definition cancelAnimationFrame (i : nat) (s : State) : State :=
  let h := host s in
  mkState (mode s) (clock s) (engines s) (animationFrameId s)
    (mkHost (mapboxgl h) (live h) (filter (fun j => j <> i) (frames h)) (timers h)
       (next_handle h) (next_frame h)).

Definition with_clock (c : Clock) (s : State) : State :=
  mkState (mode s) c (engines s) (animationFrameId s) (host s).

(** The body of [animate]; [updateVisualization()] pushes layers to the
    active backend and writes none of the variables of [State]. *)
Definition animate (timestamp : Q) (s : State) : State :=
  let c := clock s in
  if negb (playing c) then
    let s1 := requestAnimationFrame s in
    with_clock (mkClock (currentTime c) (minTime c) (maxTime c) (playing c)
                  (speed c) (Some timestamp)) s1
  else
    let last := match lastTimestamp c with
                | None => timestamp
                | Some l => l
                end in
    let deltaTime := (timestamp - last) / 1000 in
    let advanced := currentTime c + deltaTime * speed c in
    let wrapped := if Qltb (maxTime c) advanced then minTime c else advanced in
    requestAnimationFrame
      (with_clock (mkClock wrapped (minTime c) (maxTime c) (playing c)
                     (speed c) (Some timestamp)) s).

(** [recomputeRanges]: the global minimum and maximum of the sample
    timestamps ([None] stands for the initial [Infinity] and [-Infinity]),
    the window 0..3600 when there is no sample, and the time snapped to the
    lower bound. *)
Definition recomputeRanges (trips : list Trip) (c : Clock) : Clock :=
  let scan (acc : option Q * option Q) (p : Sample) : option Q * option Q :=
    let ts := s_t p in
    let minT := match fst acc with
                | Some m => if Qltb ts m then Some ts else Some m
                | None => Some ts
                end in
    let maxT := match snd acc with
                | Some m => if Qltb m ts then Some ts else Some m
                | None => Some ts
                end in
    (minT, maxT) in
  let range := fold_left (fun acc t => fold_left scan (path t) acc) trips (None, None) in
  let '(minT, maxT) :=
    match range with
    | (Some a, Some b) => (a, b)
    | _ => (0, 3600)
    end in
  mkClock minT minT maxT (playing c) (speed c) (lastTimestamp c).

(** Successive calls of [animate], one per frame timestamp. *)
Definition ticks (timestamps : list Q) (s : State) : State :=
  fold_left (fun s ts => animate ts s) timestamps s.

(** Frame timestamps that never go back. *)
Fixpoint nondecreasing (l : list Q) : Prop :=
  match l with
  | a :: tl =>
      match tl with
      | b :: _ => a <= b /\ nondecreasing tl
      | [] => True
      end
  | [] => True
  end.

(** Wall-clock seconds between the first and the last of the timestamps
    (milliseconds). *)
Definition elapsed (timestamps : list Q) : Q :=
  match timestamps with
  | t0 :: _ => (List.last timestamps t0 - t0) / 1000
  | [] => 0
  end.

(** The time that the frames [timestamps] accumulate from [current] while no
    advance passes [maxTime]: [currentTime += deltaTime * speed] frame by
    frame, [last] being the timestamp of the previous frame. *)
Fixpoint accumulated (current last speed : Q) (timestamps : list Q) : Q :=
  match timestamps with
  | [] => current
  | ts :: rest => accumulated (current + (ts - last) / 1000 * speed) ts speed rest
  end.


Definition construct (b : backend) (h : Host) : Host :=
  mkHost (mapboxgl h) (live h ++ [b]) (frames h) (timers h)
    (S (next_handle h)) (next_frame h).

Definition destroy (b : backend) (h : Host) : Host :=
  mkHost (mapboxgl h) (filter (fun x => x <> b) (live h)) (frames h) (timers h)
    (next_handle h) (next_frame h).

(** [init3D]: nothing is built when Mapbox GL is not loaded; otherwise a
    map is constructed and a deck overlay is added to it ([window.deck] is
    taken to be loaded, as [init2D] needs it too).  Both [init3D] and
    [init2D] first call [computeInitialCenter()]; the state machine is that
    of a component whose network lets that call return (it raises on
    coordinates that are not arrays nested down to positions) and whose
    constructors accept the container they are given. *)
Definition init3D (s : State) : State :=
  let h := host s in
  if negb (mapboxgl h) then s
  else
    let m := MapboxMap (next_handle h) in
    mkState (mode s) (clock s)
      (mkEngines (Some m) (deckgl (engines s)) (Some (next_handle h)))
      (animationFrameId s) (construct m h).

Definition init2D (s : State) : State :=
  let h := host s in
  let d := DeckGL (next_handle h) in
  mkState (mode s) (clock s)
    (mkEngines (map (engines s)) (Some d) (deckOverlay (engines s)))
    (animationFrameId s) (construct d h).

Definition cleanup3D (s : State) : State :=
  let e := engines s in
  match map e with
  | Some m =>
      mkState (mode s) (clock s) (mkEngines None (deckgl e) None)
        (animationFrameId s) (destroy m (host s))
  | None =>
      mkState (mode s) (clock s) (mkEngines None (deckgl e) None)
        (animationFrameId s) (host s)
  end.

Definition cleanup2D (s : State) : State :=
  let e := engines s in
  match deckgl e with
  | Some d =>
      mkState (mode s) (clock s) (mkEngines (map e) None (deckOverlay e))
        (animationFrameId s) (destroy d (host s))
  | None => s
  end.

(** [switchMode] up to its [await]: the pending frame is cancelled, both
    backends are cleaned up and the 100 ms timeout is started. *)
Definition switchMode_begin (s : State) : State :=
  let s1 :=
    match animationFrameId s with
    | Some (S i) =>
        let s' := cancelAnimationFrame (S i) s in
        mkState (mode s') (clock s') (engines s') None (host s')
    | _ => s
    end in
  let c := clock s1 in
  let s2 := with_clock (mkClock (currentTime c) (minTime c) (maxTime c)
                          (playing c) (speed c) None) s1 in
  let s3 := cleanup2D (cleanup3D s2) in
  let h := host s3 in
  mkState (mode s3) (clock s3) (engines s3) (animationFrameId s3)
    (mkHost (mapboxgl h) (live h) (frames h) (S (timers h))
       (next_handle h) (next_frame h)).

(** [switchMode] after the timeout: the backend of the mode selected at
    that moment is initialised and the animation is restarted. *)
Definition switchMode_resume (s : State) : State :=
  let s1 := match mode s with
            | Mode3D => init3D s
            | Mode2D => init2D s
            end in
  requestAnimationFrame s1.

Inductive event : Type :=
| SelectMode (m : ViewMode)          (* the user picks a mode; [watch(mode)] runs *)
| Timeout                            (* the oldest pending 100 ms timeout fires *)
| Frame (i : nat) (timestamp : Q).   (* the page runs frame callback [i] *)

Definition step (s : State) (e : event) : State :=
  match e with
  | SelectMode m =>
      if decide (mode s = m) then s
      else switchMode_begin
             (mkState m (clock s) (engines s) (animationFrameId s) (host s))
  | Timeout =>
      let h := host s in
      match timers h with
      | O => s
      | S k =>
          switchMode_resume
            (mkState (mode s) (clock s) (engines s) (animationFrameId s)
               (mkHost (mapboxgl h) (live h) (frames h) k
                  (next_handle h) (next_frame h)))
      end
  | Frame i timestamp =>
      (* a queued callback is taken off the queue and called once *)
      if decide (i ∈ frames (host s)) then animate timestamp (cancelAnimationFrame i s)
      else s
  end.

Definition run (s : State) (es : list event) : State := fold_left step es s.

(** The state before [onMounted]: the initial values of the refs and
    variables, an empty page. *)
Definition initial (mapbox_loaded : bool) : State :=
  mkState Mode2D
    (mkClock 0 0 3600 true 1 None)
    (mkEngines None None None)
    None
    (mkHost mapbox_loaded [] [] 0 1 1).

(** [onMounted] (with no trips loaded [recomputeRanges] keeps the range
    0..3600 and the time 0). *)
Definition onMounted (s : State) : State :=
  let s1 := match mode s with
            | Mode3D => init3D s
            | Mode2D => init2D s
            end in
  requestAnimationFrame s1.

Definition mounted : State := onMounted (initial true).

(** A state between switches: no [switchMode] is waiting, and the live
    backends are exactly the ones the variables [map] and [deckgl] hold, at
    most one of them. *)
Definition settled (s : State) : Prop :=
  timers (host s) = 0%nat /\
  ((map (engines s) = None /\ deckgl (engines s) = None /\ live (host s) = []) \/
   (exists b, map (engines s) = Some b /\ deckgl (engines s) = None /\
              live (host s) = [b]) \/
   (exists b, map (engines s) = None /\ deckgl (engines s) = Some b /\
              live (host s) = [b])).

(** The Play and Pause buttons: [playing = true], [playing = false]. *)
Definition setPlaying (b : bool) (s : State) : State :=
  let c := clock s in
  with_clock (mkClock (currentTime c) (minTime c) (maxTime c) b (speed c)
                (lastTimestamp c)) s.

(** [onBeforeUnmount]: the frame named by [animationFrameId] is cancelled
    and both backends are cleaned up. *)
Definition onBeforeUnmount (s : State) : State :=
  let s1 := match animationFrameId s with
            | Some (S i) => cancelAnimationFrame (S i) s
            | _ => s
            end in
  cleanup2D (cleanup3D s1).

(** Event sequences in which the user changes the mode only while no
    earlier [switchMode] is waiting in its timeout. *)
Fixpoint calm (s : State) (es : list event) : Prop :=
  match es with
  | [] => True
  | e :: rest =>
      match e with
      | SelectMode m => mode s = m \/ timers (host s) = 0%nat
      | _ => True
      end /\ calm (step s e) rest
  end.

(** The two shapes the component has along a calm run: running, with one
    queued frame named by [animationFrameId] and the backends of [settled];
    or waiting in the timeout of a switch, with nothing queued and nothing
    live. *)
Definition steady (s : State) : Prop :=
  (0 < next_frame (host s))%nat /\
  ((settled s /\
    exists i, frames (host s) = [i] /\ animationFrameId s = Some i /\
              (0 < i < next_frame (host s))%nat) \/
   (timers (host s) = 1%nat /\ frames (host s) = [] /\ animationFrameId s = None /\
    live (host s) = [] /\ map (engines s) = None /\ deckgl (engines s) = None)).


(** ** getVehiclesData3D *)

(** An entry [{ position: [lon, lat, elevation], angle, id }]. *)
Record Vehicle : Type := mkVehicle {
  veh_position : Q * Q * Q;
  veh_angle : Q;
  veh_id : string
}.

(** What persists between two calls: the Map [vehicleCarAssignments] and
    the number of values already drawn from [Math.random]. *)
Record World : Type := mkWorld {
  vehicleCarAssignments : gmap string Z;
  random_calls : nat
}.

(** The object [{ 1: [], 2: [], 3: [], 4: [], 5: [], 6: [], 7: [] }]. *)
Definition empty_models : gmap Z (list Vehicle) :=
  list_to_map [(1, []); (2, []); (3, []); (4, []); (5, []); (6, []); (7, [])]%Z.

(** [arr.forEach(f)] with the state threaded through and errors
    propagated. *)
Fixpoint forEach {A S : Type} (f : S -> A -> completion S) (arr : list A) (s : S)
  : completion S :=
  match arr with
  | [] => Normal s
  | x :: rest => s' ← f s x; forEach f rest s'
  end.

Section VehicleLayer.

(** The successive values returned by [Math.random()]. *)
Variable random : nat -> Q.

(** The callback of [trips.forEach]. *)
Definition visit (currentTime : Q) (acc : gmap Z (list Vehicle) * World) (trip : Trip)
  : completion (gmap Z (list Vehicle) * World) :=
  let '(vehiclesByCarModel, w) := acc in
  sample ← interpolateSample trip currentTime;
  match sample with
  | None => Normal (vehiclesByCarModel, w)
  | Some sample =>
      let '(lon, lat) := pos sample in
      let elevation := 0 in
      let w1 :=
        match vehicleCarAssignments w !! id trip with
        | Some _ => w
        | None =>
            let carNumber := (Qfloor (random (random_calls w) * 7) + 1)%Z in
            mkWorld (<[id trip := carNumber]> (vehicleCarAssignments w))
              (S (random_calls w))
        end in
      match vehicleCarAssignments w1 !! id trip with
      | None => Throw TypeError
      | Some carNumber =>
          match vehiclesByCarModel !! carNumber with
          | None => Throw TypeError
          | Some vehicles =>
              let a := angle sample + 180 in
              let v := mkVehicle (lon, lat, elevation)
                         (if Qeq_bool a 0 then 0 else a) (id trip) in
              Normal (<[carNumber := vehicles ++ [v]]> vehiclesByCarModel, w1)
          end
      end
  end.

Definition getVehiclesData3D (trips : list Trip) (currentTime : Q) (w : World)
  : completion (gmap Z (list Vehicle) * World) :=
  forEach (visit currentTime) trips (empty_models, w).

End VehicleLayer.

(** The entry pushed for a trip whose sample at the current time is
    [sample] (lines 211-215). *)
Definition vehicle_entry (trip : Trip) (sample : Point) : Vehicle :=
  let '(lon, lat) := pos sample in
  let a := angle sample + 180 in
  mkVehicle (lon, lat, 0) (if Qeq_bool a 0 then 0 else a) (id trip).

(** The entry of [trip] in the list of model [k], if it has one: the trip
    has a sample at [t] and the assignments [w] give it model [k]. *)
Definition listed (t : Q) (w : World) (k : Z) (trip : Trip) : option Vehicle :=
  match interpolateSample trip t with
  | Normal (Some sample) =>
      if decide (vehicleCarAssignments w !! id trip = Some k)
      then Some (vehicle_entry trip sample)
      else None
  | _ => None
  end.

(** Every cached assignment is one of the models 1..7. *)
Definition valid_assignments (w : World) : Prop :=
  forall i c, vehicleCarAssignments w !! i = Some c -> (1 <= c <= 7)%Z.


(** The reading of C7 as determinism in [(time, trips)] from one and the
    same component state: two computations of the vehicle layer agree,
    whatever [Math.random] returns in each. *)
Definition vehicle_layer_deterministic : Prop :=
  forall (random random' : nat -> Q) (trips : list Trip) (t : Q) (w : World)
         out out' w1 w2,
    getVehiclesData3D random trips t w = Normal (out, w1) ->
    getVehiclesData3D random' trips t w = Normal (out', w2) ->
    out = out'.

Definition solo : Trip := mkTrip "solo" [sample_at 3 1 2].

(** ** prepareSumoNetworkGeojson: the junction features *)

(** The value of a [coordinates] member: missing, a number, or an array. *)
#[warnings="-register-all"]
Inductive coords : Type :=
| CUndef
| CNum (q : Q)
| CArr (items : list coords).

Record Geometry : Type := mkGeometry {
  g_type : string;
  coordinates : coords
}.

Record Properties : Type := mkProperties {
  element : option string;
  osm_id : option string
}.

(** A GeoJSON feature; [None] stands for a missing or null member. *)
Record Feature : Type := mkFeature {
  properties : option Properties;
  geometry : option Geometry
}.

(** Truthiness of a [coordinates] value. *)
Definition truthy (c : coords) : bool :=
  match c with
  | CUndef => false
  | CNum q => negb (Qeq_bool q 0)
  | CArr _ => true
  end.

(** [c.length > 2]; the length of a number is undefined and the comparison
    is then false. *)
Definition length_gt_2 (c : coords) : bool :=
  match c with
  | CArr items => (2 <? length items)%nat
  | _ => false
  end.

(** The predicate of the [filter] on line 12. *)
Definition is_junction (f : option Feature) : bool :=
  match f with
  | None => false
  | Some f =>
      match properties f with
      | None => false
      | Some p =>
          bool_decide (element p = Some "junction") &&
          match geometry f with
          | None => false
          | Some g => truthy (coordinates g) && length_gt_2 (coordinates g)
          end
      end
  end.

(** The callback of the [map] on line 13:
    [{ ...f, geometry: { type: 'Polygon', coordinates: [f.geometry.coordinates] } }]. *)
Definition as_polygon (f : option Feature) : completion Feature :=
  match f with
  | None => Throw TypeError
  | Some f =>
      match geometry f with
      | None => Throw TypeError
      | Some g =>
          Normal (mkFeature (properties f)
                    (Some (mkGeometry "Polygon" (CArr [coordinates g]))))
      end
  end.

Definition junctionFeatures (features : list (option Feature)) : completion (list Feature) :=
  mapM as_polygon (filter (fun f => is_junction f = true) features).

(** Equality of coordinate values, numbers compared as numbers. *)
Fixpoint coords_eqb (a b : coords) : bool :=
  match a, b with
  | CUndef, CUndef => true
  | CNum x, CNum y => Qeq_bool x y
  | CArr l, CArr l' =>
      (fix all2 (l l' : list coords) : bool :=
         match l, l' with
         | [], [] => true
         | x :: l, y :: l' => coords_eqb x y && all2 l l'
         | _, _ => false
         end) l l'
  | _, _ => false
  end.

(** The number of distinct entries of a coordinate list. *)
Fixpoint distinct (l : list coords) : nat :=
  match l with
  | [] => 0
  | x :: rest => if existsb (coords_eqb x) rest then distinct rest else S (distinct rest)
  end.

(** A ring whose first and last coordinates coincide. *)
Definition closed_ring (ring : list coords) : bool :=
  match head ring, last ring with
  | Some a, Some b => coords_eqb a b
  | _, _ => false
  end.

(** The rings of an emitted polygon. *)
Definition rings (f : Feature) : list (list coords) :=
  match geometry f with
  | Some (mkGeometry _ (CArr rs)) =>
      omap (fun r => match r with CArr ring => Some ring | _ => None end) rs
  | _ => []
  end.

Definition junction (ring : list coords) : Feature :=
  mkFeature (Some (mkProperties (Some "junction") (Some "j0")))
    (Some (mkGeometry "LineString" (CArr ring))).

(** C9 as worded, for a feature list that holds one junction record with
    the coordinate list [ring]: the record is converted exactly when [ring]
    has more than two distinct entries, and every ring of every emitted
    polygon is closed. *)
Definition junction_claim (ring : list coords) : Prop :=
  forall out, junctionFeatures [Some (junction ring)] = Normal out ->
    (out <> [] <-> (2 < distinct ring)%nat) /\
    (forall g r, g ∈ out -> r ∈ rings g -> closed_ring r = true).

Definition position (x y : Q) : coords := CArr [CNum x; CNum y].

(** Three corners of a triangle, not repeated at the end. *)
Definition open_triangle : list coords :=
  [position 0 0; position 1 0; position 1 1].

(** ** makeLayers2D: the position accessor of the vehicle layer *)

(** [getPosition: d => { const s = interpolateSample(d, currentTime.value);
    return s ? s.pos : null }]. *)
Definition getPosition (d : Trip) (currentTime : Q) : completion (option (Q * Q)) :=
  s ← interpolateSample d currentTime;
  Normal (match s with Some s => Some (pos s) | None => None end).

(** What the scan of [recomputeRanges] has established after the samples
    [seen]. *)
Definition range_of (seen : list Sample) (acc : option Q * option Q) : Prop :=
  match acc with
  | (Some a, Some b) =>
      (forall p, p ∈ seen -> a <= s_t p /\ s_t p <= b) /\
      (exists p, p ∈ seen /\ a = s_t p) /\
      (exists p, p ∈ seen /\ b = s_t p)
  | (None, None) => seen = []
  | _ => False
  end.

(** ** computeInitialCenter *)

(** The running bounds [minX, minY, maxX, maxY]; [None] stands for the
    initial [Infinity] or [-Infinity]. *)
Record BBox : Type := mkBBox {
  minX : option Q;
  minY : option Q;
  maxX : option Q;
  maxY : option Q
}.

(** [if (x < minX) minX = x] and its three companions. *)
Definition widen (b : BBox) (x y : Q) : BBox :=
  let lower (m : option Q) (v : Q) :=
    match m with
    | Some m => if Qltb v m then Some v else Some m
    | None => Some v
    end in
  let upper (m : option Q) (v : Q) :=
    match m with
    | Some m => if Qltb m v then Some v else Some m
    | None => Some v
    end in
  mkBBox (lower (minX b) x) (lower (minY b) y) (upper (maxX b) x) (upper (maxY b) y).

(** [visitCoords]: an array that starts with two numbers is a position;
    any other array is iterated; indexing [undefined] and iterating a number
    raise a TypeError. *)
Fixpoint visitCoords (c : coords) (b : BBox) : completion BBox :=
  match c with
  | CArr items =>
      match items with
      | CNum x :: CNum y :: _ => Normal (widen b x y)
      | _ =>
          (fix each (l : list coords) (b : BBox) : completion BBox :=
             match l with
             | [] => Normal b
             | c' :: rest => b' ← visitCoords c' b; each rest b'
             end) items b
      end
  | CNum _ => Throw TypeError
  | CUndef => Throw TypeError
  end.

(** The body of the loop over [store.netData.features]. *)
Definition visitFeature (b : BBox) (f : option Feature) : completion BBox :=
  match f with
  | Some f =>
      match geometry f with
      | Some g => if truthy (coordinates g) then visitCoords (coordinates g) b else Normal b
      | None => Normal b
      end
  | None => Normal b
  end.

(** [netData] is the feature array of [store.netData], [None] when the
    store has no network or its [features] member is not an array. *)
Definition computeInitialCenter (netData : option (list (option Feature)))
    (trips : list Trip) : completion (Q * Q) :=
  let fallback :=
    match trips with
    | trip0 :: _ =>
        match path trip0 with
        | p :: _ => (s_lon p, s_lat p)
        | [] => (43667 # 10000, 508219 # 10000)
        end
    | [] => (43667 # 10000, 508219 # 10000)
    end in
  match netData with
  | Some features =>
      b ← forEach visitFeature features (mkBBox None None None None);
      match minX b, minY b, maxX b, maxY b with
      | Some x0, Some y0, Some x1, Some y1 =>
          Normal ((x0 + x1) / 2, (y0 + y1) / 2)
      | _, _, _, _ => Normal fallback
      end
  | None => Normal fallback
  end.

(** The positions a coordinate value holds, in visiting order. *)
Fixpoint positions (c : coords) : list (Q * Q) :=
  match c with
  | CArr items =>
      match items with
      | CNum x :: CNum y :: _ => [(x, y)]
      | _ =>
          (fix each (l : list coords) : list (Q * Q) :=
             match l with
             | [] => []
             | c' :: rest => positions c' ++ each rest
             end) items
      end
  | _ => []
  end.

(** Coordinate values made of arrays down to the positions. *)
Fixpoint nested_arrays (c : coords) : bool :=
  match c with
  | CArr items =>
      match items with
      | CNum x :: CNum y :: _ => true
      | _ =>
          (fix each (l : list coords) : bool :=
             match l with
             | [] => true
             | c' :: rest => nested_arrays c' && each rest
             end) items
      end
  | _ => false
  end.

(** The loops inside [visitCoords], [positions] and [nested_arrays]. *)
Definition visitEach : list coords -> BBox -> completion BBox :=
  fix each (l : list coords) (b : BBox) : completion BBox :=
    match l with
    | [] => Normal b
    | c' :: rest => b' ← visitCoords c' b; each rest b'
    end.

Definition positionsEach : list coords -> list (Q * Q) :=
  fix each (l : list coords) : list (Q * Q) :=
    match l with
    | [] => []
    | c' :: rest => positions c' ++ each rest
    end.

Definition nestedEach : list coords -> bool :=
  fix each (l : list coords) : bool :=
    match l with
    | [] => true
    | c' :: rest => nested_arrays c' && each rest
    end.

(** The bounds after the positions [ps]. *)
Definition widen_all (ps : list (Q * Q)) (b : BBox) : BBox :=
  fold_left (fun b p => widen b (fst p) (snd p)) ps b.

(** What the bounds [b] say about the positions [seen]: they are the
    tight bounding box, or still infinite when nothing was seen. *)
Definition box_of (seen : list (Q * Q)) (b : BBox) : Prop :=
  match minX b, minY b, maxX b, maxY b with
  | Some x0, Some y0, Some x1, Some y1 =>
      (forall p, p ∈ seen ->
         x0 <= fst p /\ fst p <= x1 /\ y0 <= snd p /\ snd p <= y1) /\
      (exists p, p ∈ seen /\ fst p = x0) /\ (exists p, p ∈ seen /\ fst p = x1) /\
      (exists p, p ∈ seen /\ snd p = y0) /\ (exists p, p ∈ seen /\ snd p = y1)
  | None, None, None, None => seen = []
  | _, _, _, _ => False
  end.


(** The positions of the features that [computeInitialCenter] visits. *)
Definition feature_positions (f : option Feature) : list (Q * Q) :=
  match f with
  | Some f =>
      match geometry f with
      | Some g => positions (coordinates g)
      | None => []
      end
  | None => []
  end.

(** Features whose coordinates, when present, are nested arrays. *)
Definition feature_nested (f : option Feature) : bool :=
  match f with
  | Some f =>
      match geometry f with
      | Some g => negb (truthy (coordinates g)) || nested_arrays (coordinates g)
      | None => true
      end
  | None => true
  end.


(** ** Lane properties, fill colours and closed edges (utils.js and the
    layer callbacks of the component)

    Strings are sequences of code units below 256. *)

(** The white space and line terminators that [String.prototype.trim]
    removes, among the code units below 256. *)
Definition is_space (c : ascii) : bool :=
  let n := nat_of_ascii c in
  ((9 <=? n) && (n <=? 13) || (n =? 32) || (n =? 160))%nat.

Fixpoint trim_start (s : string) : string :=
  match s with
  | String c rest => if is_space c then trim_start rest else s
  | EmptyString => EmptyString
  end.

(** The string without its trailing white space. *)
Fixpoint trim_end (s : string) : string :=
  match s with
  | String c rest =>
      match trim_end rest with
      | EmptyString => if is_space c then EmptyString else String c EmptyString
      | rest' => String c rest'
      end
  | EmptyString => EmptyString
  end.

Definition trim (s : string) : string := trim_end (trim_start s).

(** [s.split(sep)] for a one-character separator: always at least one
    piece. *)
Fixpoint split (sep : ascii) (s : string) : list string :=
  match s with
  | EmptyString => [EmptyString]
  | String c rest =>
      if Ascii.eqb c sep then EmptyString :: split sep rest
      else
        match split sep rest with
        | piece :: pieces => String c piece :: pieces
        | [] => [String c EmptyString]
        end
  end.

(** [arr.includes(x)] on an array of strings. *)
Definition includes (arr : list string) (x : string) : bool :=
  bool_decide (x ∈ arr).

(** The members of a lane feature's [properties] that the code reads;
    [None] is a missing member and identifiers are strings. *)
Record LaneProps : Type := mkLaneProps {
  lp_element : option string;
  lp_id : option string;
  lp_osm_id : option string;
  lp_allow : option string;
  lp_tunnel : option string;
  lp_width : option Q
}.

(** [v || w] on optional strings: the empty string is falsy. *)
Definition or_string (v w : option string) : option string :=
  match v with
  | Some EmptyString => w
  | Some s => Some s
  | None => w
  end.

(** [String((props && (props.id || props.osm_id)) || '')]. *)
Definition feature_id (props : option LaneProps) : string :=
  match props with
  | Some p => default EmptyString (or_string (or_string (lp_id p) (lp_osm_id p)) (Some EmptyString))
  | None => EmptyString
  end.

(** [((props && props.allow) || '').split(',').map(s => s.trim())]. *)
Definition allow_list (props : option LaneProps) : list string :=
  let allow :=
    match props with
    | Some p => default EmptyString (or_string (lp_allow p) (Some EmptyString))
    | None => EmptyString
    end in
  trim <$> split ","%char allow.

Definition getDefaultLaneFillColor (props : option LaneProps)
    (selectedId : option string) (isClosed : bool) : list Z :=
  let id := feature_id props in
  let selected :=
    match selectedId with
    | Some EmptyString => false
    | Some sel => bool_decide (id = sel)
    | None => false
    end in
  if selected then [255; 106; 0; 255]%Z else
  if isClosed then [255; 0; 0; 255]%Z else
  if match props with
     | Some p => bool_decide (lp_tunnel p = Some "yes")
     | None => false
     end
  then [0; 0; 255; 255]%Z else
  let allow := allow_list props in
  if includes allow "bus" && negb (includes allow "private") then [255; 255; 0; 255]%Z else
  if includes allow "private" then [150; 150; 150; 255]%Z else
  [0; 0; 0; 255]%Z.

(** A feature of the network GeoJSON with a line geometry: its properties
    and, when it has a geometry, the geometry's type and positions. *)
Record NetFeature : Type := mkNetFeature {
  nf_properties : option LaneProps;
  nf_geometry : option (string * list (Q * Q))
}.

(** The predicate of the lane [filter] (lines 6-10). *)
Definition is_lane (f : option NetFeature) : bool :=
  match f with
  | None => false
  | Some f =>
      match nf_properties f, nf_geometry f with
      | Some p, Some (gtype, _) =>
          if bool_decide (lp_element p = Some "lane") && bool_decide (gtype = "LineString")
          then
            let allow := trim <$> split ","%char (default EmptyString
                                               (or_string (lp_allow p) (Some EmptyString))) in
            includes allow "bus" || includes allow "private"
          else false
      | _, _ => false
      end
  end.

Definition is_digit (c : ascii) : bool :=
  let n := nat_of_ascii c in ((48 <=? n) && (n <=? 57))%nat.

(** A non-empty string of decimal digits: what [\d+$] matches. *)
Fixpoint digits (s : string) : bool :=
  match s with
  | String c EmptyString => is_digit c
  | String c rest => is_digit c && digits rest
  | EmptyString => false
  end.

(** [fullId.replace(/_\d+$/, '')]: the search runs from the left and the
    first position where an underscore is followed by digits up to the end
    of the string is where the string is cut. *)
Fixpoint strip_lane_index (s : string) : string :=
  match s with
  | String c rest =>
      if Ascii.eqb c "_"%char && digits rest then EmptyString
      else String c (strip_lane_index rest)
  | EmptyString => EmptyString
  end.

(** [getClosedPredicate] of both layer builders; [dataset] is
    [props.dataset] and [closedEdges] the array [closedEdgesFromTrips]. *)
Definition getClosedPredicate (dataset : string) (closedEdges : list string)
    (props2 : LaneProps) : bool :=
  let fullId := feature_id (Some props2) in
  let baseEdgeId := strip_lane_index fullId in
  bool_decide (dataset = "with") && includes closedEdges baseEdgeId.

(** [getFillColor] of the lanes layer as the component configures it: no
    [getLaneColor], the closed predicate above, [getSelectedId: () => null];
    a missing [properties] is replaced by the empty object. *)
Definition lanesFillColor (dataset : string) (closedEdges : list string)
    (properties : option LaneProps) : list Z :=
  let props := default (mkLaneProps None None None None None None) properties in
  let isClosed := getClosedPredicate dataset closedEdges props in
  getDefaultLaneFillColor (Some props) None isClosed.


(** ** prepareSumoNetworkGeojson: lane polygons and arrow markers *)

(** The geometry [turf.buffer] returns, a polygon or a multi-polygon, each
    polygon being a list of rings. *)
Inductive BGeom : Type :=
| BPolygon (coordinates : list (list (Q * Q)))
| BMultiPolygon (coordinates : list (list (list (Q * Q)))).

Record Buffered : Type := mkBuffered {
  b_properties : option LaneProps;
  b_geometry : BGeom
}.

(** [{ ...(a || {}), ...(b || {}) }] on the members the code reads: the
    members of [b] win. *)
Definition spread (a b : option LaneProps) : LaneProps :=
  let a := default (mkLaneProps None None None None None None) a in
  let b := default (mkLaneProps None None None None None None) b in
  let pick {A} (x y : option A) : option A :=
    match y with Some v => Some v | None => x end in
  mkLaneProps (pick (lp_element a) (lp_element b)) (pick (lp_id a) (lp_id b))
    (pick (lp_osm_id a) (lp_osm_id b)) (pick (lp_allow a) (lp_allow b))
    (pick (lp_tunnel a) (lp_tunnel b)) (pick (lp_width a) (lp_width b)).

Section LanePolygons.

(** The library calls: [turf.buffer(f, radius, { units: 'meters', endType:
    'flat' })] and [turf.area(turf.polygon(polyCoords))]; either may raise. *)
Variable turf_buffer : NetFeature -> Q -> completion Buffered.
Variable turf_area : list (list (Q * Q)) -> completion Q.

(** [(f.properties && f.properties.width) || 3.2]. *)
Definition lane_width (f : NetFeature) : Q :=
  match nf_properties f with
  | Some p =>
      match lp_width p with
      | Some w => if Qeq_bool w 0 then 32 # 10 else w
      | None => 32 # 10
      end
  | None => 32 # 10
  end.

(** The loop of lines 19-24 with its two variables
    [largestPolygonCoords] and [maxArea]. *)
Definition largestPart (polys : list (list (list (Q * Q))))
  : completion (option (list (list (Q * Q))) * Q) :=
  forEach (fun (acc : option (list (list (Q * Q))) * Q) polyCoords =>
             area ← turf_area polyCoords;
             if Qltb (snd acc) area then Normal (Some polyCoords, area) else Normal acc)
    polys (None, 0).

(** The callback of [laneFeatures.map] (lines 15-33). *)
Definition lanePolygon (f : NetFeature) : completion Buffered :=
  let width := lane_width f in
  bufferedFeature ← turf_buffer f (width / 2);
  geometry ←
    match b_geometry bufferedFeature with
    | BMultiPolygon polys =>
        r ← largestPart polys;
        match fst r with
        | Some largestPolygonCoords => Normal (BPolygon largestPolygonCoords)
        | None => Normal (BMultiPolygon polys)
        end
    | BPolygon coordinates => Normal (BPolygon coordinates)
    end;
  Normal (mkBuffered (Some (spread (b_properties bufferedFeature) (nf_properties f)))
            geometry).

End LanePolygons.

(** The geometry of an arrow feature: the ring of the head polygon or the
    line of the stem. *)
Inductive ArrowGeom : Type :=
| ArrowHead (ring : list (Q * Q))
| ArrowStem (line : list (Q * Q)).

Record ArrowFeature : Type := mkArrowFeature {
  a_properties : option LaneProps;
  a_geometry : ArrowGeom
}.

(** The four points computed for a lane that ends with [p1], [p2], for a
    given length [len] of [p2 - p1]. *)
Record ArrowPoints : Type := mkArrowPoints {
  tip : Q * Q;
  stemBase : Q * Q;
  left : Q * Q;
  right : Q * Q
}.

Section ArrowMarkers.

(** [Math.hypot]. *)
Variable hypot : Q -> Q -> Q.

Definition arrowPoints (p1 p2 : Q * Q) : ArrowPoints :=
  let size := 25 # 1000000 in
  let width := size * (6 # 10) in
  let stemLength := size * 2 in
  let dx := fst p2 - fst p1 in
  let dy := snd p2 - snd p1 in
  let len := let h := hypot dx dy in if Qeq_bool h 0 then 1 else h in
  let ux := dx / len in
  let uy := dy / len in
  let px := - uy in
  let py := ux in
  let tip := (fst p2 - ux * size, snd p2 - uy * size) in
  let stemBase := (fst tip - ux * stemLength, snd tip - uy * stemLength) in
  let left := (fst tip - ux * size + px * width, snd tip - uy * size + py * width) in
  let right := (fst tip - ux * size - px * width, snd tip - uy * size - py * width) in
  mkArrowPoints tip stemBase left right.

(** [len = Math.hypot(dx, dy) || 1], the divisor of the unit direction. *)
Definition arrowLength (p1 p2 : Q * Q) : Q :=
  let dx := fst p2 - fst p1 in
  let dy := snd p2 - snd p1 in
  let h := hypot dx dy in
  if Qeq_bool h 0 then 1 else h.

(** The body of the loop of [buildArrowTriangles] for one feature: nothing
    for fewer than two coordinates, otherwise the head and the stem. *)
Definition arrowFeatures (f : NetFeature) : list ArrowFeature :=
  let coords := match nf_geometry f with
                | Some (_, coordinates) => coordinates
                | None => []
                end in
  if (length coords <? 2)%nat then []
  else
    match coords !! (length coords - 1)%nat, coords !! (length coords - 2)%nat with
    | Some p2, Some p1 =>
        let a := arrowPoints p1 p2 in
        [ mkArrowFeature (nf_properties f)
            (ArrowHead [tip a; left a; right a; tip a]);
          mkArrowFeature
            (Some (spread (nf_properties f)
                     (Some (mkLaneProps (Some "arrow-stem") None None None None None))))
            (ArrowStem [stemBase a; tip a]) ]
    | _, _ => []
    end.

Definition buildArrowTriangles (features : list NetFeature) : list ArrowFeature :=
  concat (arrowFeatures <$> features).

End ArrowMarkers.

(** What the selection loop has established after the parts [seen]. *)
Definition largest_of (area : list (list (Q * Q)) -> Q)
    (seen : list (list (list (Q * Q))))
    (acc : option (list (list (Q * Q))) * Q) : Prop :=
  match fst acc with
  | Some p =>
      exists i, seen !! i = Some p /\ snd acc = area p /\ 0 < area p /\
        forall j q, seen !! j = Some q ->
          area q <= area p /\ ((j < i)%nat -> area q < area p)
  | None => snd acc = 0 /\ forall q, q ∈ seen -> area q <= 0
  end.

(** ** The arithmetic of the clock and of the interpolation in binary64

    The same expressions as in [animate] and [interpolateSample], evaluated
    with the rounding of the source's numbers, to see on concrete inputs
    what rounding does to them. *)

Module Binary64.

Import Floats.
Local Open Scope float_scope.










(** Lines 96-99: the position between [p0 = [lon0, lat0, t0]] and
    [p1 = [lon1, lat1, t1]] at time [t]. *)
Definition position64 (p0 p1 : float * float * float) (t : float) : float * float :=
  let '(lon0, lat0, t0) := p0 in
  let '(lon1, lat1, t1) := p1 in
  let dt := t1 - t0 in
  let f := if 0 <? dt then (t - t0) / dt else 0 in
  (lon0 + (lon1 - lon0) * f, lat0 + (lat1 - lat0) * f).

(** Two samples [[0.3, 0.4, 0.2]] and [[0.9, 0.1, 0.9]], queried at
    0.8999999999999999, the number before 0.9. *)
Definition late_p0 : float * float * float := (3 / 10, 4 / 10, 2 / 10).
Definition late_p1 : float * float * float := (9 / 10, 1 / 10, 9 / 10).
Definition late_t : float := next_down (9 / 10).

(** Two samples [[4.35, 50.85, 0.3]] and [[4.36, 50.86, 0.4]], queried at
    [0.1 + 0.1 + 0.1 = 0.30000000000000004]. *)
Definition early_p0 : float * float * float := (435 / 100, 5085 / 100, 3 / 10).
Definition early_p1 : float * float * float := (436 / 100, 5086 / 100, 4 / 10).
Definition early_t : float := 1 / 10 + 1 / 10 + 1 / 10.

End Binary64.


(** * Properties *)

(** ** Comparisons *)

Lemma Qltb_lt (x y : Q) : Qltb x y = true <-> x < y.
Proof.
  unfold Qltb. rewrite negb_true_iff. split.
  - intros H. apply Qnot_le_lt. intros Hle. apply Qle_bool_iff in Hle. congruence.
  - intros H. destruct (Qle_bool y x) eqn:E; [|reflexivity].
    apply Qle_bool_iff in E. exfalso. apply (Qlt_not_le _ _ H E).
Qed.

Lemma Qltb_ge (x y : Q) : Qltb x y = false <-> y <= x.
Proof.
  unfold Qltb. rewrite negb_false_iff. apply Qle_bool_iff.
Qed.

Lemma Qle_bool_gt (x y : Q) : Qle_bool x y = false <-> y < x.
Proof.
  rewrite <- Qltb_lt. unfold Qltb. rewrite negb_true_iff. reflexivity.
Qed.

(** ** The binary search *)

Lemma bsearch_step (l : list Sample) (t : Q) (lo hi : nat) :
  bsearch l t lo hi =
  if (lo + 1 <? hi)%nat then
    match l !! (Nat.shiftr (lo + hi) 1) with
    | Some pm =>
        if Qle_bool (s_t pm) t
        then bsearch l t (Nat.shiftr (lo + hi) 1) hi
        else bsearch l t lo (Nat.shiftr (lo + hi) 1)
    | None => Throw TypeError
    end
  else Normal (lo, hi).
Proof.
  funelim (bsearch l t lo hi); rewrite Hc; reflexivity.
Qed.

Lemma mid_between (lo hi : nat) :
  (lo + 1 < hi)%nat ->
  (lo < Nat.shiftr (lo + hi) 1 < hi)%nat.
Proof.
  intros H. cbn [Nat.shiftr Nat.iter nat_rect].
  pose proof (Nat.div2_odd (lo + hi)) as E.
  destruct (Nat.odd (lo + hi)); simpl in E; lia.
Qed.

(** Loop invariant: [l[lo].t <= t < l[hi].t] with [lo < hi] in range.  The
    loop leaves with adjacent indices that still bracket [t]. *)
Lemma bsearch_invariant (l : list Sample) (t : Q) (k : nat) :
  forall lo hi plo phi,
    (hi - lo <= k)%nat -> (lo < hi)%nat ->
    l !! lo = Some plo -> l !! hi = Some phi ->
    s_t plo <= t -> t < s_t phi ->
    exists lo' p0 p1,
      bsearch l t lo hi = Normal (lo', S lo') /\
      (lo <= lo')%nat /\ (S lo' <= hi)%nat /\
      l !! lo' = Some p0 /\ l !! S lo' = Some p1 /\
      s_t p0 <= t /\ t < s_t p1.
Proof.
  induction k as [|k IH]; intros lo hi plo phi Hk Hlt Hlo Hhi Hle Hgt; [lia|].
  rewrite bsearch_step.
  destruct (lo + 1 <? hi)%nat eqn:Hc.
  - apply Nat.ltb_lt in Hc. pose proof (mid_between lo hi Hc) as [Hm1 Hm2].
    set (mid := Nat.shiftr (lo + hi) 1) in *.
    assert (hi - mid <= k)%nat as Hk1 by lia.
    assert (mid - lo <= k)%nat as Hk2 by lia.
    destruct (l !! mid) as [pm|] eqn:Hpm.
    + destruct (Qle_bool (s_t pm) t) eqn:Hcmp.
      * apply Qle_bool_iff in Hcmp.
        destruct (IH mid hi pm phi Hk1 Hm2 Hpm Hhi Hcmp Hgt)
          as (lo' & p0 & p1 & -> & ? & ? & ? & ? & ? & ?).
        exists lo', p0, p1. repeat split; auto; lia.
      * apply Qle_bool_gt in Hcmp.
        destruct (IH lo mid plo pm Hk2 Hm1 Hlo Hpm Hle Hcmp)
          as (lo' & p0 & p1 & -> & ? & ? & ? & ? & ? & ?).
        exists lo', p0, p1. repeat split; auto; lia.
    + exfalso. apply lookup_ge_None in Hpm. apply lookup_lt_Some in Hhi. lia.
  - apply Nat.ltb_ge in Hc. assert (hi = S lo) as -> by lia.
    exists lo, plo, phi. repeat split; auto.
Qed.

(** ** The branches of interpolateSample *)

Lemma elem_Some {A} (l : list A) (i : nat) (x : A) :
  l !! i = Some x -> elem l i = Normal x.
Proof.
  intros H. unfold elem. rewrite H. reflexivity.
Qed.

Lemma interpolateSample_empty (d : Trip) (t : Q) :
  path d = [] -> interpolateSample d t = Normal None.
Proof.
  intros H. unfold interpolateSample. rewrite H. reflexivity.
Qed.

Lemma interpolateSample_nonempty (d : Trip) (t : Q) (pf pl : Sample) :
  head (path d) = Some pf -> last (path d) = Some pl ->
  interpolateSample d t =
    if Qltb t (s_t pf) then Normal None else
    if Qltb (s_t pl) t then Normal None else
    if Qeq_bool t (s_t pf) then Normal (Some (getPoint pf)) else
    if Qeq_bool t (s_t pl) then Normal (Some (getPoint pl)) else
    '(lo, hi) ← bsearch (path d) t 0 (length (path d) - 1);
    p0 ← elem (path d) lo;
    p1 ← elem (path d) hi;
    Normal (Some (interpolate p0 p1 t)).
Proof.
  intros Hf Hl. unfold interpolateSample. cbv zeta.
  rewrite head_lookup in Hf. rewrite last_lookup in Hl.
  replace (Init.Nat.pred (length (path d))) with (length (path d) - 1)%nat in Hl by lia.
  destruct (length (path d) =? 0)%nat eqn:Hn.
  - apply Nat.eqb_eq in Hn. apply lookup_lt_Some in Hf. lia.
  - rewrite (elem_Some _ _ _ Hf). cbn [mbind completion_bind cbind].
    destruct (Qltb t (s_t pf)); [reflexivity|].
    rewrite (elem_Some _ _ _ Hl). reflexivity.
Qed.

Lemma interpolateSample_before (d : Trip) (t : Q) (pf : Sample) :
  head (path d) = Some pf -> t < s_t pf -> interpolateSample d t = Normal None.
Proof.
  intros Hf Hlt.
  destruct (last (path d)) as [pl|] eqn:Hl.
  - rewrite (interpolateSample_nonempty d t pf pl Hf Hl).
    apply Qltb_lt in Hlt. rewrite Hlt. reflexivity.
  - apply last_None in Hl. rewrite Hl in Hf. discriminate.
Qed.

Lemma interpolateSample_after (d : Trip) (t : Q) (pl : Sample) :
  last (path d) = Some pl -> s_t pl < t -> interpolateSample d t = Normal None.
Proof.
  intros Hl Hlt.
  destruct (head (path d)) as [pf|] eqn:Hf.
  - rewrite (interpolateSample_nonempty d t pf pl Hf Hl).
    apply Qltb_lt in Hlt. rewrite Hlt. destruct (Qltb t (s_t pf)); reflexivity.
  - apply head_None in Hf. rewrite Hf in Hl. discriminate.
Qed.

Lemma Qeq_bool_lt_false (x y : Q) : x < y -> Qeq_bool y x = false /\ Qeq_bool x y = false.
Proof.
  intros H. split.
  - destruct (Qeq_bool y x) eqn:E; [|reflexivity].
    apply Qeq_bool_iff in E. rewrite E in H. exfalso. apply (Qlt_irrefl _ H).
  - destruct (Qeq_bool x y) eqn:E; [|reflexivity].
    apply Qeq_bool_iff in E. rewrite E in H. exfalso. apply (Qlt_irrefl _ H).
Qed.

Lemma interpolateSample_at_first (d : Trip) (t : Q) (pf pl : Sample) :
  head (path d) = Some pf -> last (path d) = Some pl ->
  t == s_t pf -> t <= s_t pl ->
  interpolateSample d t = Normal (Some (getPoint pf)).
Proof.
  intros Hf Hl Heq Hle.
  rewrite (interpolateSample_nonempty d t pf pl Hf Hl).
  assert (Qltb t (s_t pf) = false) as -> by (apply Qltb_ge; rewrite Heq; apply Qle_refl).
  assert (Qltb (s_t pl) t = false) as -> by (apply Qltb_ge; exact Hle).
  apply Qeq_bool_iff in Heq. rewrite Heq. reflexivity.
Qed.

Lemma interpolateSample_at_last (d : Trip) (t : Q) (pf pl : Sample) :
  head (path d) = Some pf -> last (path d) = Some pl ->
  s_t pf < t -> t == s_t pl ->
  interpolateSample d t = Normal (Some (getPoint pl)).
Proof.
  intros Hf Hl Hlt Heq.
  rewrite (interpolateSample_nonempty d t pf pl Hf Hl).
  assert (Qltb t (s_t pf) = false) as -> by (apply Qltb_ge, Qlt_le_weak, Hlt).
  assert (Qltb (s_t pl) t = false) as -> by (apply Qltb_ge; rewrite Heq; apply Qle_refl).
  destruct (Qeq_bool_lt_false _ _ Hlt) as [-> _].
  apply Qeq_bool_iff in Heq. rewrite Heq. reflexivity.
Qed.

(** Strictly inside the sample range the search runs and the result is the
    interpolation between two adjacent samples that bracket [t]. *)
Lemma interpolateSample_inside (d : Trip) (t : Q) (pf pl : Sample) :
  head (path d) = Some pf -> last (path d) = Some pl ->
  s_t pf < t -> t < s_t pl ->
  exists lo p0 p1,
    bsearch (path d) t 0 (length (path d) - 1) = Normal (lo, S lo) /\
    path d !! lo = Some p0 /\ path d !! S lo = Some p1 /\
    s_t p0 <= t /\ t < s_t p1 /\
    interpolateSample d t = Normal (Some (interpolate p0 p1 t)).
Proof.
  intros Hf Hl Hlt Hgt.
  rewrite (interpolateSample_nonempty d t pf pl Hf Hl).
  assert (Qltb t (s_t pf) = false) as -> by (apply Qltb_ge, Qlt_le_weak, Hlt).
  assert (Qltb (s_t pl) t = false) as -> by (apply Qltb_ge, Qlt_le_weak, Hgt).
  destruct (Qeq_bool_lt_false _ _ Hlt) as [-> _].
  destruct (Qeq_bool_lt_false _ _ Hgt) as [_ ->].
  rewrite head_lookup in Hf. rewrite last_lookup in Hl.
  replace (Init.Nat.pred (length (path d))) with (length (path d) - 1)%nat in Hl by lia.
  assert (0 < length (path d) - 1)%nat as Hn.
  { destruct (length (path d) - 1)%nat eqn:E; [|lia].
    rewrite Hf in Hl. injection Hl as ->.
    exfalso. apply (Qlt_irrefl t). apply (Qlt_trans _ _ _ Hgt Hlt). }
  destruct (bsearch_invariant (path d) t _ 0%nat _ pf pl (Nat.le_refl _) Hn Hf Hl
              (Qlt_le_weak _ _ Hlt) Hgt)
    as (lo & p0 & p1 & Hb & _ & _ & H0 & H1 & Hle & Hlt').
  exists lo, p0, p1. rewrite Hb. cbn [mbind completion_bind cbind].
  rewrite (elem_Some _ _ _ H0), (elem_Some _ _ _ H1).
  repeat split; auto.
Qed.

(** ** Absence (C2), the search (C3), single samples (C10), ratios (C4) *)

Lemma nonempty_head_last {A} (l : list A) :
  l <> [] -> exists x y, head l = Some x /\ last l = Some y.
Proof.
  intros H. destruct (head l) as [x|] eqn:Hh.
  - destruct (last l) as [y|] eqn:Hl; [eauto|].
    apply last_None in Hl. contradiction.
  - apply head_None in Hh. contradiction.
Qed.

(** C2. interpolateSample returns null exactly when the path is empty, or
    [t] is strictly before the first timestamp, or [t] is strictly after the
    last one; and it never raises, in those cases or in any other. *)
Theorem interpolateSample_null_iff (d : Trip) (t : Q) :
  (interpolateSample d t = Normal None <->
     path d = [] \/
     (exists pf, head (path d) = Some pf /\ t < s_t pf) \/
     (exists pl, last (path d) = Some pl /\ s_t pl < t)) /\
  (forall e, interpolateSample d t <> Throw e).
Proof.
  destruct (path d) as [|p0 l0] eqn:Hp.
  - rewrite (interpolateSample_empty d t Hp). split; [|discriminate].
    split; auto.
  - assert (path d <> []) as Hne by (rewrite Hp; discriminate).
    rewrite <- Hp.
    destruct (nonempty_head_last _ Hne) as (pf & pl & Hf & Hl).
    destruct (Qlt_le_dec t (s_t pf)) as [Hb|Hb].
    { rewrite (interpolateSample_before d t pf Hf Hb). split; [|discriminate].
      split; eauto. }
    destruct (Qlt_le_dec (s_t pl) t) as [Ha|Ha].
    { rewrite (interpolateSample_after d t pl Hl Ha). split; [|discriminate].
      split; eauto 6. }
    assert (forall r, interpolateSample d t = Normal (Some r) ->
      (interpolateSample d t = Normal None <->
         path d = [] \/
         (exists pf, head (path d) = Some pf /\ t < s_t pf) \/
         (exists pl, last (path d) = Some pl /\ s_t pl < t)) /\
      (forall e, interpolateSample d t <> Throw e)) as Hsome.
    { intros r Hr. rewrite Hr. split; [|discriminate]. split; [discriminate|].
      intros [He|[(pf' & Hf' & Hlt)|(pl' & Hl' & Hlt)]].
      - contradiction.
      - rewrite Hf in Hf'. injection Hf' as <-.
        exfalso. apply (Qlt_not_le _ _ Hlt Hb).
      - rewrite Hl in Hl'. injection Hl' as <-.
        exfalso. apply (Qlt_not_le _ _ Hlt Ha). }
    destruct (Qeq_dec t (s_t pf)) as [E1|N1].
    { apply (Hsome _ (interpolateSample_at_first d t pf pl Hf Hl E1 Ha)). }
    assert (s_t pf < t) as Hb'.
    { apply Qle_lteq in Hb. destruct Hb as [?|E]; [assumption|].
      exfalso. apply N1. symmetry. exact E. }
    destruct (Qeq_dec t (s_t pl)) as [E2|N2].
    { apply (Hsome _ (interpolateSample_at_last d t pf pl Hf Hl Hb' E2)). }
    assert (t < s_t pl) as Ha'.
    { apply Qle_lteq in Ha. destruct Ha as [?|E]; [assumption|].
      exfalso. apply N2. exact E. }
    destruct (interpolateSample_inside d t pf pl Hf Hl Hb' Ha')
      as (lo & q0 & q1 & _ & _ & _ & _ & _ & Hr).
    apply (Hsome _ Hr).
Qed.

(** C3. For a path whose first timestamp is strictly below [t] and whose
    last timestamp is strictly above it (so the path has at least two
    samples), the search loop started at [lo = 0], [hi = n - 1] terminates
    and leaves with adjacent indices [lo], [hi = lo + 1] in range such that
    [path[lo].t <= t <= path[hi].t]; the two selected samples are never the
    same entry.  Sortedness of the path is not needed for this. *)
Theorem bsearch_adjacent_bracket (l : list Sample) (t : Q) (pf pl : Sample) :
  (2 <= length l)%nat ->
  head l = Some pf -> last l = Some pl ->
  s_t pf < t -> t < s_t pl ->
  exists lo hi p0 p1,
    bsearch l t 0 (length l - 1) = Normal (lo, hi) /\
    hi = (lo + 1)%nat /\ lo <> hi /\
    l !! lo = Some p0 /\ l !! hi = Some p1 /\
    s_t p0 <= t /\ t <= s_t p1.
Proof.
  intros _ Hf Hl Hlt Hgt.
  destruct (interpolateSample_inside (mkTrip "" l) t pf pl Hf Hl Hlt Hgt)
    as (lo & p0 & p1 & Hb & H0 & H1 & Hle & Hlt' & _).
  cbn [path] in *.
  exists lo, (S lo), p0, p1. repeat split; auto; try lia.
  apply Qlt_le_weak, Hlt'.
Qed.

(** C10. A trajectory with exactly one sample yields that sample (with the
    defaults for its optional fields) when [t] equals its timestamp, and null
    for every other [t]. *)
Theorem interpolateSample_single (i : string) (p : Sample) (t : Q) :
  (t == s_t p ->
     interpolateSample (mkTrip i [p]) t =
       Normal (Some {| pos := (s_lon p, s_lat p);
                       spd_mps := default 0 (s_spd p);
                       ratio := default 0 (s_ratio p);
                       angle := default 0 (s_angle p) |})) /\
  (~ t == s_t p -> interpolateSample (mkTrip i [p]) t = Normal None).
Proof.
  split.
  - intros E.
    apply (interpolateSample_at_first (mkTrip i [p]) t p p eq_refl eq_refl E).
    rewrite E. apply Qle_refl.
  - intros N. destruct (Qlt_le_dec t (s_t p)) as [H|H].
    + apply (interpolateSample_before (mkTrip i [p]) t p eq_refl H).
    + apply (interpolateSample_after (mkTrip i [p]) t p eq_refl).
      apply Qle_lteq in H. destruct H as [?|E]; [assumption|].
      exfalso. apply N. symmetry. exact E.
Qed.

Lemma fraction_inside (p0 p1 : Sample) (t : Q) :
  s_t p0 <= t -> t < s_t p1 ->
  fraction p0 p1 t = (t - s_t p0) / (s_t p1 - s_t p0).
Proof.
  intros H0 H1. unfold fraction. cbv zeta.
  assert (Qltb 0 (s_t p1 - s_t p0) = true) as ->; [|reflexivity].
  apply Qltb_lt. unfold Qminus. rewrite <- Qlt_minus_iff.
  apply (Qle_lt_trans _ _ _ H0 H1).
Qed.

(** C4. Strictly inside the sample range the query is answered from two
    adjacent samples [p0], [p1] with [p0.t <= t < p1.t] and the fraction
    [f = (t - p0.t) / (p1.t - p0.t)]; the result ratio is
    [r0 + (r1 - r0) * f] when both ratios are present, the present one when
    exactly one is, and 0 when neither is.  At an exact match of the first
    timestamp (or of the last one, when it is not also the first) the
    sample's ratio is returned, an absent one as 0. *)
Theorem interpolateSample_ratio (d : Trip) (t : Q) (pf pl : Sample) :
  head (path d) = Some pf -> last (path d) = Some pl ->
  (s_t pf < t -> t < s_t pl ->
     exists lo p0 p1 r,
       path d !! lo = Some p0 /\ path d !! S lo = Some p1 /\
       s_t p0 <= t /\ t < s_t p1 /\
       interpolateSample d t = Normal (Some r) /\
       match s_ratio p0, s_ratio p1 with
       | Some r0, Some r1 =>
           ratio r = r0 + (r1 - r0) * ((t - s_t p0) / (s_t p1 - s_t p0))
       | Some r0, None => ratio r = r0
       | None, Some r1 => ratio r = r1
       | None, None => ratio r = 0
       end) /\
  (t == s_t pf -> t <= s_t pl ->
     exists r, interpolateSample d t = Normal (Some r) /\
       ratio r = match s_ratio pf with Some v => v | None => 0 end) /\
  (s_t pf < t -> t == s_t pl ->
     exists r, interpolateSample d t = Normal (Some r) /\
       ratio r = match s_ratio pl with Some v => v | None => 0 end).
Proof.
  intros Hf Hl. repeat split.
  - intros Hlt Hgt.
    destruct (interpolateSample_inside d t pf pl Hf Hl Hlt Hgt)
      as (lo & p0 & p1 & _ & H0 & H1 & Hle & Hlt' & Hr).
    exists lo, p0, p1, (interpolate p0 p1 t). repeat split; auto.
    unfold interpolate. cbv zeta. cbn [ratio].
    rewrite (fraction_inside p0 p1 t Hle Hlt').
    destruct (s_ratio p0), (s_ratio p1); reflexivity.
  - intros E Hle. exists (getPoint pf). split.
    + apply (interpolateSample_at_first d t pf pl Hf Hl E Hle).
    + reflexivity.
  - intros Hlt E. exists (getPoint pl). split.
    + apply (interpolateSample_at_last d t pf pl Hf Hl Hlt E).
    + reflexivity.
Qed.

(** ** Positions (C1) *)

(** Three facts of exact arithmetic about [a + (b - a) * f]: over the
    rationals it lies between [a] and [b] for [f] in [[0, 1]], strictly when
    [a] and [b] differ and [f] is inside, and it is monotonic in [f].  Only
    the last survives rounding. *)
Lemma lerp_between (a b f : Q) :
  0 <= f -> f <= 1 -> between a (a + (b - a) * f) b.
Proof.
  intros H0 H1. unfold between.
  destruct (Q.min_spec a b) as [[Hab ->]|[Hab ->]];
  destruct (Q.max_spec a b) as [[Hab' ->]|[Hab' ->]]; split; nra.
Qed.

Lemma lerp_strictly_between (a b f : Q) :
  0 < f -> f < 1 -> ~ a == b -> strictly_between a (a + (b - a) * f) b.
Proof.
  intros H0 H1 Hne. unfold strictly_between.
  assert (a < b \/ b < a) as Hd.
  { destruct (Q_dec a b) as [[?|?]|?]; auto. contradiction. }
  destruct (Q.min_spec a b) as [[Hab ->]|[Hab ->]];
  destruct (Q.max_spec a b) as [[Hab' ->]|[Hab' ->]]; split; nra.
Qed.

Lemma lerp_monotone (a b f f' : Q) :
  f <= f' ->
  (a <= b -> a + (b - a) * f <= a + (b - a) * f') /\
  (b <= a -> a + (b - a) * f' <= a + (b - a) * f).
Proof.
  intros H. split; intros; nra.
Qed.

Lemma fraction_range (p0 p1 : Sample) (t : Q) :
  s_t p0 <= t -> t < s_t p1 ->
  0 <= fraction p0 p1 t /\ fraction p0 p1 t < 1 /\
  (s_t p0 < t -> 0 < fraction p0 p1 t) /\
  (s_t p0 == t -> fraction p0 p1 t == 0).
Proof.
  intros H0 H1. rewrite (fraction_inside p0 p1 t H0 H1).
  assert (0 < s_t p1 - s_t p0) as Hdt by lra.
  pose proof (Qinv_lt_0_compat _ Hdt) as Hk.
  assert ((s_t p1 - s_t p0) * / (s_t p1 - s_t p0) == 1) as Hone
    by (apply Qmult_inv_r; lra).
  unfold Qdiv. set (k := / (s_t p1 - s_t p0)) in *.
  repeat split; intros; nra.
Qed.

Lemma fraction_monotone (p0 p1 : Sample) (t t' : Q) :
  s_t p0 <= t -> t <= t' -> t' < s_t p1 ->
  fraction p0 p1 t <= fraction p0 p1 t'.
Proof.
  intros H0 H1 H2.
  rewrite (fraction_inside p0 p1 t), (fraction_inside p0 p1 t') by lra.
  assert (0 < s_t p1 - s_t p0) as Hdt by lra.
  pose proof (Qinv_lt_0_compat _ Hdt) as Hk.
  unfold Qdiv. set (k := / (s_t p1 - s_t p0)) in *. nra.
Qed.

Lemma sorted_by_timeb_head (p : Sample) (l : list Sample) :
  sorted_by_timeb (p :: l) = true ->
  forall j q, l !! j = Some q -> s_t p <= s_t q.
Proof.
  revert p. induction l as [|a l IH]; intros p Hs j q Hq; [discriminate|].
  cbn [sorted_by_timeb] in Hs. apply andb_true_iff in Hs as [Hpa Hs].
  apply Qle_bool_iff in Hpa.
  destruct j as [|j].
  - injection Hq as <-. exact Hpa.
  - apply (Qle_trans _ _ _ Hpa). apply (IH a Hs j q Hq).
Qed.

Lemma sorted_by_timeb_sound (l : list Sample) :
  sorted_by_timeb l = true -> sorted_by_time l.
Proof.
  induction l as [|a l IH]; intros Hs i j p q Hij Hp Hq; [discriminate|].
  destruct i as [|i].
  - injection Hp as <-. destruct j as [|j].
    + injection Hq as <-. apply Qle_refl.
    + apply (sorted_by_timeb_head a l Hs j q Hq).
  - destruct j as [|j]; [lia|].
    assert (sorted_by_timeb l = true) as Hs'.
    { cbn [sorted_by_timeb] in Hs. destruct l; [reflexivity|].
      apply andb_true_iff in Hs as [_ Hs]. exact Hs. }
    apply (IH Hs' i j p q); [lia|exact Hp|exact Hq].
Qed.

(** In a sorted path the adjacent pair with [p0.t <= t < p1.t] is unique. *)
Lemma bracket_unique (l : list Sample) (t : Q) (i j : nat) (p0 p1 q0 q1 : Sample) :
  sorted_by_time l ->
  l !! i = Some p0 -> l !! S i = Some p1 -> s_t p0 <= t -> t < s_t p1 ->
  l !! j = Some q0 -> l !! S j = Some q1 -> s_t q0 <= t -> t < s_t q1 ->
  i = j.
Proof.
  intros Hs Hp0 Hp1 Hp0t Hp1t Hq0 Hq1 Hq0t Hq1t.
  destruct (Nat.lt_trichotomy i j) as [Hlt|[Heq|Hgt]]; [|exact Heq|]; exfalso.
  - assert (s_t p1 <= s_t q0) by (apply (Hs (S i) j); auto; lia). lra.
  - assert (s_t q1 <= s_t p0) by (apply (Hs (S j) i); auto; lia). lra.
Qed.

(** In a sorted path a query strictly inside an adjacent pair is answered
    from that pair. *)
Lemma interpolateSample_in_bracket (d : Trip) (t : Q) (lo : nat) (p0 p1 : Sample) :
  sorted_by_time (path d) ->
  path d !! lo = Some p0 -> path d !! S lo = Some p1 ->
  s_t p0 < t -> t < s_t p1 ->
  interpolateSample d t = Normal (Some (interpolate p0 p1 t)).
Proof.
  intros Hs H0 H1 Hlt Hgt.
  assert (path d <> []) as Hne by (intros E; rewrite E in H0; discriminate).
  destruct (nonempty_head_last _ Hne) as (pf & pl & Hf & Hl).
  pose proof Hf as Hf'. pose proof Hl as Hl'.
  rewrite head_lookup in Hf'. rewrite last_lookup in Hl'.
  assert (s_t pf <= s_t p0) by (apply (Hs 0%nat lo); auto; lia).
  assert (s_t p1 <= s_t pl).
  { apply (Hs (S lo) (Init.Nat.pred (length (path d)))); auto.
    apply lookup_lt_Some in H1. lia. }
  destruct (interpolateSample_inside d t pf pl Hf Hl ltac:(lra) ltac:(lra))
    as (lo' & q0 & q1 & _ & Hq0 & Hq1 & Hle & Hlt' & Hr).
  assert (lo = lo') as <-
    by (apply (bracket_unique (path d) t lo lo' p0 p1 q0 q1); auto; lra).
  rewrite H0 in Hq0. injection Hq0 as <-.
  rewrite H1 in Hq1. injection Hq1 as <-.
  exact Hr.
Qed.

(** C1, as the code has it.  For a path sorted by timestamp and [t] within
    [[firstSampleTime, lastSampleTime]] a sample is returned.  When [t] is
    the timestamp of a sample, the position is the recorded position of a
    sample with that timestamp.  Otherwise [t] lies strictly between the
    timestamps of two adjacent samples [p0] and [p1], each coordinate [c] of
    the result is the value of [p0.c + (p1.c - p0.c) * f] for
    [f = (t - p0.t) / (p1.t - p0.t)], and it does not move back as [t] grows
    inside the pair: it is monotonic from [p0]'s coordinate towards [p1]'s,
    not necessarily strictly. *)
Theorem interpolateSample_position (d : Trip) (t : Q) (pf pl : Sample) :
  sorted_by_time (path d) ->
  head (path d) = Some pf -> last (path d) = Some pl ->
  s_t pf <= t -> t <= s_t pl ->
  exists r,
    interpolateSample d t = Normal (Some r) /\
    ((exists i p, path d !! i = Some p /\ s_t p == t) ->
       exists i p, path d !! i = Some p /\ s_t p == t /\
         fst (pos r) == s_lon p /\ snd (pos r) == s_lat p) /\
    ((forall i p, path d !! i = Some p -> ~ s_t p == t) ->
       exists lo p0 p1,
         path d !! lo = Some p0 /\ path d !! S lo = Some p1 /\
         s_t p0 < t /\ t < s_t p1 /\
         fst (pos r) =
           s_lon p0 + (s_lon p1 - s_lon p0) * ((t - s_t p0) / (s_t p1 - s_t p0)) /\
         snd (pos r) =
           s_lat p0 + (s_lat p1 - s_lat p0) * ((t - s_t p0) / (s_t p1 - s_t p0)) /\
         (forall t', t <= t' -> t' < s_t p1 ->
            exists r', interpolateSample d t' = Normal (Some r') /\
              (s_lon p0 <= s_lon p1 -> fst (pos r) <= fst (pos r')) /\
              (s_lon p1 <= s_lon p0 -> fst (pos r') <= fst (pos r)) /\
              (s_lat p0 <= s_lat p1 -> snd (pos r) <= snd (pos r')) /\
              (s_lat p1 <= s_lat p0 -> snd (pos r') <= snd (pos r)))).
Proof.
  intros Hs Hf Hl Hb Ha.
  pose proof Hf as Hf0. rewrite head_lookup in Hf0.
  pose proof Hl as Hl0. rewrite last_lookup in Hl0.
  destruct (Qeq_dec t (s_t pf)) as [E1|N1].
  { exists (getPoint pf). split; [apply (interpolateSample_at_first d t pf pl); auto|].
    split.
    - intros _. exists 0%nat, pf. cbn [getPoint pos fst snd].
      split; [exact Hf0|]. split; [symmetry; exact E1|]. split; reflexivity.
    - intros Hno. exfalso. apply (Hno 0%nat pf Hf0). symmetry. exact E1. }
  assert (s_t pf < t) as Hb' by lra.
  destruct (Qeq_dec t (s_t pl)) as [E2|N2].
  { exists (getPoint pl). split; [apply (interpolateSample_at_last d t pf pl); auto|].
    split.
    - intros _. exists (Init.Nat.pred (length (path d))), pl.
      cbn [getPoint pos fst snd].
      split; [exact Hl0|]. split; [symmetry; exact E2|]. split; reflexivity.
    - intros Hno. exfalso. apply (Hno _ pl Hl0). symmetry. exact E2. }
  assert (t < s_t pl) as Ha' by lra.
  destruct (interpolateSample_inside d t pf pl Hf Hl Hb' Ha')
    as (lo & p0 & p1 & _ & H0 & H1 & Hle & Hlt & Hr).
  exists (interpolate p0 p1 t). split; [exact Hr|].
  destruct (fraction_range p0 p1 t Hle Hlt) as (Hf0' & Hf1 & Hfpos & Hfz).
  split.
  - intros (i & p & Hp & Et).
    assert (s_t p0 == t) as E0.
    { assert (i <= lo)%nat as Hi.
      { destruct (Nat.le_gt_cases i lo) as [?|Hgt]; [assumption|].
        assert (s_t p1 <= s_t p) by (apply (Hs (S lo) i); auto; lia). lra. }
      assert (s_t p <= s_t p0) by (apply (Hs i lo); auto). lra. }
    exists lo, p0. unfold interpolate. cbv zeta. cbn [pos fst snd].
    split; [exact H0|]. split; [exact E0|].
    split; rewrite (Hfz E0); ring.
  - intros Hno.
    assert (s_t p0 < t) as Hlt0.
    { destruct (Qeq_dec (s_t p0) t) as [E|N]; [|lra].
      exfalso. apply (Hno lo p0 H0 E). }
    exists lo, p0, p1.
    split; [exact H0|]. split; [exact H1|].
    split; [exact Hlt0|]. split; [exact Hlt|].
    split; [unfold interpolate; cbv zeta; cbn [pos fst snd];
            rewrite (fraction_inside p0 p1 t Hle Hlt); reflexivity|].
    split; [unfold interpolate; cbv zeta; cbn [pos fst snd];
            rewrite (fraction_inside p0 p1 t Hle Hlt); reflexivity|].
    intros t' Htt' Ht'.
    exists (interpolate p0 p1 t'). split.
    + apply (interpolateSample_in_bracket d t' lo p0 p1); auto; lra.
    + pose proof (fraction_monotone p0 p1 t t' Hle Htt' Ht') as Hm.
      destruct (lerp_monotone (s_lon p0) (s_lon p1) _ _ Hm).
      destruct (lerp_monotone (s_lat p0) (s_lat p1) _ _ Hm).
      unfold interpolate. cbv zeta. cbn [pos fst snd]. auto.
Qed.

Lemma interpolateSample_position_witness :
  exists r, interpolateSample scenario 5 = Normal (Some r) /\
    fst (pos r) == 0.5 /\ snd (pos r) == 0.5.
Proof.
  destruct (interpolateSample_position scenario 5
              (mkSample 0 0 0 (Some 10) (Some 0.2) (Some 0))
              (mkSample 1 1 10 (Some 20) (Some 0.8) (Some 90)))
    as (r & Hr & _).
  - apply sorted_by_timeb_sound. reflexivity.
  - reflexivity.
  - reflexivity.
  - unfold Qle. simpl. lia.
  - unfold Qle. simpl. lia.
  - exists r. split; [exact Hr|].
    vm_compute in Hr. injection Hr as <-. split; reflexivity.
Defined.

(** The strict reading of C1 fails where the two bracketing samples share a
    coordinate: halfway along [northbound] the longitude is 0, which is not
    strictly between 0 and 0. *)
Lemma northbound_not_strictly_between :
  sorted_by_time (path northbound) /\ ~ strictly_between_brackets northbound 5.
Proof.
  split; [apply sorted_by_timeb_sound; reflexivity|].
  intros H.
  destruct (H (interpolate (sample_at 0 0 0) (sample_at 10 0 1) 5) 0%nat
              (sample_at 0 0 0) (sample_at 10 0 1)) as [[Hlo _] _];
    try reflexivity.
  vm_compute in Hlo. discriminate.
Qed.

(** What rounding does to the interpolated coordinate.  In binary64 it need
    not lie between the two samples' coordinates: queried just before the
    second timestamp, the longitude between 0.3 and 0.9 comes out above 0.9
    and the latitude between 0.4 and 0.1 below 0.1; and it need not differ
    from an end: queried just after the first timestamp, the position
    between [4.35, 50.85] and [4.36, 50.86] is [4.35, 50.85] itself. *)
Lemma position64_rounding :
  (let '(lon0, lat0, t0) := Binary64.late_p0 in
   let '(lon1, lat1, t1) := Binary64.late_p1 in
   let r := Binary64.position64 Binary64.late_p0 Binary64.late_p1 Binary64.late_t in
   PrimFloat.ltb t0 Binary64.late_t = true /\
   PrimFloat.ltb Binary64.late_t t1 = true /\
   PrimFloat.ltb lon0 lon1 = true /\ PrimFloat.ltb lon1 (fst r) = true /\
   PrimFloat.ltb lat1 lat0 = true /\ PrimFloat.ltb (snd r) lat1 = true) /\
  (let '(lon0, lat0, t0) := Binary64.early_p0 in
   let '(lon1, lat1, t1) := Binary64.early_p1 in
   let r := Binary64.position64 Binary64.early_p0 Binary64.early_p1 Binary64.early_t in
   PrimFloat.ltb t0 Binary64.early_t = true /\
   PrimFloat.ltb Binary64.early_t t1 = true /\
   PrimFloat.ltb lon0 lon1 = true /\ PrimFloat.eqb (fst r) lon0 = true /\
   PrimFloat.ltb lat0 lat1 = true /\ PrimFloat.eqb (snd r) lat0 = true).
Proof.
  vm_compute. repeat split.
Qed.

Lemma bsearch_adjacent_bracket_witness :
  exists lo hi p0 p1,
    bsearch (path commute) 5 0 (length (path commute) - 1) = Normal (lo, hi) /\
    hi = (lo + 1)%nat /\ lo <> hi /\
    path commute !! lo = Some p0 /\ path commute !! hi = Some p1 /\
    s_t p0 <= 5 /\ 5 <= s_t p1.
Proof.
  apply (bsearch_adjacent_bracket (path commute) 5 (sample_at 0 0 0) (sample_at 9 4 4));
    [simpl; lia | reflexivity | reflexivity | reflexivity | reflexivity].
Defined.

Lemma interpolateSample_single_witness :
  interpolateSample (mkTrip "solo" [sample_at 3 1 2]) 3 =
    Normal (Some {| pos := (1, 2); spd_mps := 0; ratio := 0; angle := 0 |}) /\
  interpolateSample (mkTrip "solo" [sample_at 3 1 2]) 4 = Normal None.
Proof.
  split.
  - apply (proj1 (interpolateSample_single "solo" (sample_at 3 1 2) 3)). reflexivity.
  - apply (proj2 (interpolateSample_single "solo" (sample_at 3 1 2) 4)).
    unfold Qeq. simpl. lia.
Defined.

Lemma interpolateSample_ratio_witness :
  exists r, interpolateSample scenario 5 = Normal (Some r) /\ ratio r == 0.5.
Proof.
  destruct (interpolateSample_ratio scenario 5
              (mkSample 0 0 0 (Some 10) (Some 0.2) (Some 0))
              (mkSample 1 1 10 (Some 20) (Some 0.8) (Some 90)) eq_refl eq_refl)
    as (Hin & _ & _).
  destruct Hin as (lo & p0 & p1 & r & _ & _ & _ & _ & Hr & _);
    [reflexivity | reflexivity |].
  exists r. split; [exact Hr|].
  vm_compute in Hr. injection Hr as <-. reflexivity.
Defined.

(** ** Colours (C6) *)

Lemma gradient_comp (seg : Z) (x y : Q) :
  x == y -> gradient seg x = gradient seg y.
Proof.
  intros E. unfold gradient.
  destruct (elemZ stops seg) as [[[a0 a1] a2]|]; [|reflexivity].
  destruct (elemZ stops (seg + 1)) as [[[b0 b1] b2]|]; [|reflexivity].
  cbn [mbind completion_bind cbind]. unfold Math_round.
  rewrite E. reflexivity.
Qed.

Lemma colorFromFraction_at (frac t : Q) :
  clamp frac 0 1 == t ->
  colorFromFraction frac =
    gradient (Z.min 1 (Qfloor (t * 2))) (t * 2 - inject_Z (Z.min 1 (Qfloor (t * 2)))).
Proof.
  intros E. unfold colorFromFraction. cbv zeta.
  assert (Qfloor (clamp frac 0 1 * 2) = Qfloor (t * 2)) as ->
    by (apply Qfloor_comp; rewrite E; reflexivity).
  apply gradient_comp. rewrite E. reflexivity.
Qed.

Lemma clamp_unit (frac : Q) :
  0 <= clamp frac 0 1 /\ clamp frac 0 1 <= 1 /\
  (frac <= 0 -> clamp frac 0 1 == 0) /\
  (1 <= frac -> clamp frac 0 1 == 1) /\
  (0 <= frac -> frac <= 1 -> clamp frac 0 1 == frac).
Proof.
  unfold clamp.
  destruct (Q.min_spec 1 frac) as [[H1 E1]|[H1 E1]];
  destruct (Q.max_spec 0 (Qmin 1 frac)) as [[H2 E2]|[H2 E2]];
    rewrite E2; rewrite E1 in *; repeat split; intros; lra.
Qed.

Lemma Math_round_near (x : Q) :
  x - (1 # 2) <= inject_Z (Math_round x) /\ inject_Z (Math_round x) <= x + (1 # 2).
Proof.
  unfold Math_round. split.
  - pose proof (Qlt_floor (x + (1 # 2))) as H.
    rewrite inject_Z_plus in H. change (inject_Z 1) with 1 in H. lra.
  - apply Qfloor_le.
Qed.

Lemma distance_le (x y e : Q) : y - e <= x -> x <= y + e -> distance x y <= e.
Proof.
  intros H1 H2. unfold distance. apply Q.max_lub; lra.
Qed.

Lemma distance_cases (x y : Q) :
  (y <= x -> distance x y == x - y) /\ (x <= y -> distance x y == y - x).
Proof.
  unfold distance. split; intros H.
  - apply Q.max_l. lra.
  - apply Q.max_r. lra.
Qed.

(** Inside [[0, 1]] every channel is within [460 * |frac - 1/2| + 1] of the
    middle stop: the colour tends to that stop from both sides, up to the
    rounding of a channel. *)
Lemma colorFromFraction_near_mid (frac : Q) :
  0 <= frac -> frac <= 1 ->
  exists r g b,
    colorFromFraction frac = Normal [r; g; b; 220]%Z /\
    distance (inject_Z r) 255 <= 460 * distance frac (1 # 2) + 1 /\
    distance (inject_Z g) 255 <= 460 * distance frac (1 # 2) + 1 /\
    distance (inject_Z b) 191 <= 460 * distance frac (1 # 2) + 1.
Proof.
  intros H0 H1.
  destruct (clamp_unit frac) as (_ & _ & _ & _ & E). specialize (E H0 H1).
  rewrite (colorFromFraction_at frac frac E).
  pose proof (Qfloor_le (frac * 2)) as Hle.
  pose proof (Qlt_floor (frac * 2)) as Hlt.
  assert (Qfloor 0 <= Qfloor (frac * 2))%Z as Hz0 by (apply Qfloor_resp_le; lra).
  assert (Qfloor (frac * 2) <= Qfloor 2)%Z as Hz2 by (apply Qfloor_resp_le; lra).
  change (Qfloor 0) with 0%Z in Hz0. change (Qfloor 2) with 2%Z in Hz2.
  rewrite inject_Z_plus in Hlt. change (inject_Z 1) with 1 in Hlt.
  assert (Qfloor (frac * 2) = 0 \/ Qfloor (frac * 2) = 1 \/ Qfloor (frac * 2) = 2)%Z
    as [F|[F|F]] by lia; rewrite F in *.
  - change (inject_Z 0) with 0 in *. change (Z.min 1 0) with 0%Z.
    change (inject_Z 0) with 0.
    set (lt := frac * 2 - 0).
    cbn [gradient elemZ]. eexists _, _, _. split; [reflexivity|].
    destruct (distance_cases frac (1 # 2)) as [_ Hd]. rewrite Hd by lra.
    split; [|split]; apply distance_le;
      match goal with |- context [Math_round ?x] =>
        destruct (Math_round_near x) as [Ha Hb] end;
      change (inject_Z 215) with 215 in *; change (inject_Z 255) with 255 in *;
      change (inject_Z 25) with 25 in *; change (inject_Z 28) with 28 in *;
      change (inject_Z 191) with 191 in *; unfold lt in *; lra.
  - change (inject_Z 1) with 1 in *. change (Z.min 1 1) with 1%Z.
    change (inject_Z 1) with 1.
    set (lt := frac * 2 - 1).
    cbn [gradient elemZ]. eexists _, _, _. split; [reflexivity|].
    destruct (distance_cases frac (1 # 2)) as [Hd _]. rewrite Hd by lra.
    split; [|split]; apply distance_le;
      match goal with |- context [Math_round ?x] =>
        destruct (Math_round_near x) as [Ha Hb] end;
      change (inject_Z 26) with 26 in *; change (inject_Z 255) with 255 in *;
      change (inject_Z 150) with 150 in *; change (inject_Z 65) with 65 in *;
      change (inject_Z 191) with 191 in *; unfold lt in *; lra.
  - change (inject_Z 2) with 2 in *. change (Z.min 1 2) with 1%Z.
    change (inject_Z 1) with 1.
    set (lt := frac * 2 - 1).
    cbn [gradient elemZ]. eexists _, _, _. split; [reflexivity|].
    destruct (distance_cases frac (1 # 2)) as [Hd _]. rewrite Hd by lra.
    split; [|split]; apply distance_le;
      match goal with |- context [Math_round ?x] =>
        destruct (Math_round_near x) as [Ha Hb] end;
      change (inject_Z 26) with 26 in *; change (inject_Z 255) with 255 in *;
      change (inject_Z 150) with 150 in *; change (inject_Z 65) with 65 in *;
      change (inject_Z 191) with 191 in *; unfold lt in *; lra.
Qed.

(** C6. colorFromFraction clamps its input to [0,1]: an input at or below 0
    gives the low stop, an input at or above 1 the high stop, and an input
    inside [0,1] is used as it is.  At 0, 0.5 and 1 the result is the
    corresponding gradient stop with alpha 220.  The two segments meet at
    0.5 without a jump: for every input in [0,1], on either side of 0.5,
    each channel is within [460 * |frac - 0.5| + 1] of the middle stop, so
    colours just below and just above 0.5 differ from it, and from each
    other, by the rounding of a channel only. *)
Theorem colorFromFraction_stops :
  colorFromFraction 0 = Normal [215; 25; 28; 220]%Z /\
  colorFromFraction (1 # 2) = Normal [255; 255; 191; 220]%Z /\
  colorFromFraction 1 = Normal [26; 150; 65; 220]%Z /\
  (forall frac, frac <= 0 -> colorFromFraction frac = Normal [215; 25; 28; 220]%Z) /\
  (forall frac, 1 <= frac -> colorFromFraction frac = Normal [26; 150; 65; 220]%Z) /\
  (forall frac, 0 <= clamp frac 0 1 /\ clamp frac 0 1 <= 1) /\
  (forall frac, 0 <= frac -> frac <= 1 -> clamp frac 0 1 == frac) /\
  (forall frac, 0 <= frac -> frac <= 1 ->
     exists r g b,
       colorFromFraction frac = Normal [r; g; b; 220]%Z /\
       distance (inject_Z r) 255 <= 460 * distance frac (1 # 2) + 1 /\
       distance (inject_Z g) 255 <= 460 * distance frac (1 # 2) + 1 /\
       distance (inject_Z b) 191 <= 460 * distance frac (1 # 2) + 1) /\
  gradient 0 1 = gradient 1 0 /\
  gradient 1 0 = colorFromFraction (1 # 2).
Proof.
  split; [reflexivity|]. split; [reflexivity|]. split; [reflexivity|].
  split.
  { intros frac H. destruct (clamp_unit frac) as (_ & _ & E & _).
    rewrite (colorFromFraction_at frac 0 (E H)). reflexivity. }
  split.
  { intros frac H. destruct (clamp_unit frac) as (_ & _ & _ & E & _).
    rewrite (colorFromFraction_at frac 1 (E H)). reflexivity. }
  split.
  { intros frac. destruct (clamp_unit frac) as (? & ? & _). split; assumption. }
  split.
  { intros frac. destruct (clamp_unit frac) as (_ & _ & _ & _ & E). exact E. }
  split; [exact colorFromFraction_near_mid|].
  split; reflexivity.
Qed.

Lemma colorFromFraction_stops_witness :
  colorFromFraction (-3) = Normal [215; 25; 28; 220]%Z /\
  colorFromFraction (7 # 2) = Normal [26; 150; 65; 220]%Z /\
  clamp (1 # 4) 0 1 == 1 # 4 /\
  (exists r g b,
     colorFromFraction (4999 # 10000) = Normal [r; g; b; 220]%Z /\
     distance (inject_Z r) 255 <= 1046 # 1000 /\
     distance (inject_Z g) 255 <= 1046 # 1000 /\
     distance (inject_Z b) 191 <= 1046 # 1000) /\
  (exists r g b,
     colorFromFraction (5001 # 10000) = Normal [r; g; b; 220]%Z /\
     distance (inject_Z r) 255 <= 1046 # 1000 /\
     distance (inject_Z g) 255 <= 1046 # 1000 /\
     distance (inject_Z b) 191 <= 1046 # 1000).
Proof.
  destruct colorFromFraction_stops as (_ & _ & _ & Hlow & Hhigh & _ & Hin & Hmid & _).
  split; [apply Hlow; unfold Qle; simpl; lia|].
  split; [apply Hhigh; unfold Qle; simpl; lia|].
  split; [apply Hin; unfold Qle; simpl; lia|].
  split.
  - destruct (Hmid (4999 # 10000)) as (r & g & b & Hc & Hr & Hg & Hb);
      [unfold Qle; simpl; lia | unfold Qle; simpl; lia |].
    exists r, g, b. split; [exact Hc|].
    assert (460 * distance (4999 # 10000) (1 # 2) + 1 == 1046 # 1000) as E
      by reflexivity.
    rewrite E in Hr, Hg, Hb. auto.
  - destruct (Hmid (5001 # 10000)) as (r & g & b & Hc & Hr & Hg & Hb);
      [unfold Qle; simpl; lia | unfold Qle; simpl; lia |].
    exists r, g, b. split; [exact Hc|].
    assert (460 * distance (5001 # 10000) (1 # 2) + 1 == 1046 # 1000) as E
      by reflexivity.
    rewrite E in Hr, Hg, Hb. auto.
Defined.

(** ** The playback clock (C5) *)

Lemma clock_animate_playing (timestamp : Q) (s : State) :
  playing (clock s) = true ->
  clock (animate timestamp s) =
    let c := clock s in
    let last := match lastTimestamp c with None => timestamp | Some l => l end in
    let advanced := currentTime c + (timestamp - last) / 1000 * speed c in
    mkClock (if Qltb (maxTime c) advanced then minTime c else advanced)
      (minTime c) (maxTime c) true (speed c) (Some timestamp).
Proof.
  intros Hp. unfold animate. cbv zeta. rewrite Hp. reflexivity.
Qed.

Lemma last_cons_default (l : list Q) (a b : Q) :
  List.last (a :: l) b = List.last l a.
Proof.
  revert a b. induction l as [|c l IH]; intros a b; [reflexivity|].
  change (List.last (a :: c :: l) b) with (List.last (c :: l) b).
  rewrite (IH c b), (IH c a). reflexivity.
Qed.

Lemma nondecreasing_last (l : list Q) (a : Q) :
  nondecreasing (a :: l) -> a <= List.last l a.
Proof.
  revert a. induction l as [|b l IH]; intros a H.
  - apply Qle_refl.
  - destruct H as [Hab H]. rewrite (last_cons_default l b a).
    apply (Qle_trans _ _ _ Hab). apply (IH b H).
Qed.


(** In exact arithmetic the accumulated time is linear in the wall time:
    [current + speed * T].  Rounding each addition breaks the equality, see
    [Binary64]. *)
Lemma accumulated_linear (ts : list Q) (current last speed : Q) :
  accumulated current last speed ts ==
    current + speed * ((List.last ts last - last) / 1000).
Proof.
  revert current last. induction ts as [|a ts IH]; intros current l.
  - cbn. field.
  - cbn [accumulated]. rewrite IH. rewrite (last_cons_default ts a l). field.
Qed.


(** After [recomputeRanges] the bounds are ordered and the time is at the
    lower bound: the state the clock starts from. *)
Lemma recomputeRanges_range (trips : list Trip) (c : Clock) :
  let c' := recomputeRanges trips c in
  minTime c' <= maxTime c' /\ currentTime c' = minTime c'.
Proof.
  unfold recomputeRanges. cbv zeta.
  set (scan := fun (acc : option Q * option Q) (p : Sample) => _).
  set (ok := fun acc : option Q * option Q =>
               match acc with
               | (Some a, Some b) => a <= b
               | (None, None) => True
               | _ => False
               end).
  assert (forall l acc, ok acc -> ok (fold_left scan l acc)) as Hscan.
  { induction l as [|p l IH]; intros acc Hacc; [exact Hacc|].
    cbn [fold_left]. apply IH. unfold scan, ok in *.
    destruct acc as [[a|] [b|]]; cbn [fst snd]; try contradiction.
    - destruct (Qltb (s_t p) a) eqn:H1; destruct (Qltb b (s_t p)) eqn:H2;
        try apply Qltb_lt in H1; try apply Qltb_lt in H2;
        try apply Qltb_ge in H1; try apply Qltb_ge in H2; lra.
    - apply Qle_refl. }
  assert (forall ts acc, ok acc ->
            ok (fold_left (fun acc t => fold_left scan (path t) acc) ts acc)) as Hall.
  { induction ts as [|t ts IH]; intros acc Hacc; [exact Hacc|].
    cbn [fold_left]. apply IH, Hscan, Hacc. }
  specialize (Hall trips (None, None) I).
  destruct (fold_left _ trips (None, None)) as [[a|] [b|]]; cbn in *;
    try contradiction; split; try reflexivity; try exact Hall.
  discriminate.
Qed.




(** ** Switching the rendering mode (C8) *)

(** One switch that is left to finish before anything else happens ends
    with at most one live backend. *)
Lemma slow_switch_settled (s : State) (m : ViewMode) :
  settled s -> settled (run s [SelectMode m; Timeout]).
Proof.
  intros [Ht Hl]. cbn [run fold_left step].
  destruct (decide (mode s = m)) as [E|N].
  - rewrite Ht. split; assumption.
  - destruct s as [md c [mp dk ov] fid [mb lv fr tm nh nf]].
    cbn in Ht, Hl. subst tm. clear N.
    destruct Hl as [(-> & -> & ->)|[(b & -> & -> & ->)|(b & -> & -> & ->)]];
      unfold switchMode_begin; destruct fid as [[|i]|]; destruct m, mb; cbn;
      try (destruct (decide (b <> b)) as [H|H]; [contradiction|]); cbn;
      (split; [reflexivity|]);
      first [ left; repeat split; reflexivity
            | right; left; eexists; repeat split; reflexivity
            | right; right; eexists; repeat split; reflexivity ].
Qed.

(** C8 fails on the code.  From the mounted component (2D, one deck.gl
    instance) the user selects 3D and, before the 100 ms timeout of that
    switch has fired, selects 2D again.  Both suspended [switchMode] calls
    then run [init2D]: two deck.gl instances are live, the variable
    [deckgl] holds only the second, and two animation frame callbacks are
    queued of which [animationFrameId] holds only the second. *)
Theorem rapid_switch_two_live_backends :
  let s := run mounted [SelectMode Mode3D; SelectMode Mode2D; Timeout; Timeout] in
  live (host s) = [DeckGL 2; DeckGL 3] /\
  deckgl (engines s) = Some (DeckGL 3) /\
  frames (host s) = [2; 3]%nat /\
  animationFrameId s = Some 3%nat /\
  timers (host s) = 0%nat.
Proof.
  vm_compute. repeat split.
Qed.

(** ** The vehicle layer (C7) *)

Lemma visit_grows (random : nat -> Q) (t : Q) (m m' : gmap Z (list Vehicle))
    (w w' : World) (trip : Trip) :
  visit random t (m, w) trip = Normal (m', w') ->
  vehicleCarAssignments w ⊆ vehicleCarAssignments w'.
Proof.
  unfold visit.
  destruct (interpolateSample trip t) as [[smp|]|]; cbn [mbind completion_bind cbind];
    [| intros [= <- <-]; reflexivity | discriminate].
  destruct (pos smp) as [lon lat].
  destruct (vehicleCarAssignments w !! id trip) as [c|] eqn:Hc.
  - rewrite Hc. destruct (m !! c); [|discriminate]. intros [= <- <-]. reflexivity.
  - cbn [vehicleCarAssignments]. rewrite lookup_insert_eq.
    destruct (m !! _); [|discriminate]. intros [= <- <-].
    cbn [vehicleCarAssignments]. apply insert_subseteq. exact Hc.
Qed.

Lemma forEach_visit_grows (random : nat -> Q) (t : Q) (trips : list Trip) :
  forall m w m' w',
    forEach (visit random t) trips (m, w) = Normal (m', w') ->
    vehicleCarAssignments w ⊆ vehicleCarAssignments w'.
Proof.
  induction trips as [|trip trips IH]; intros m w m' w'.
  - intros [= <- <-]. reflexivity.
  - cbn [forEach].
    destruct (visit random t (m, w) trip) as [[m1 w1]|] eqn:Hv; [|discriminate].
    cbn [mbind completion_bind cbind]. intros Hrest.
    transitivity (vehicleCarAssignments w1).
    + apply (visit_grows random t m m1 w w1 trip Hv).
    + apply (IH m1 w1 m' w' Hrest).
Qed.

(** A visit that succeeded is reproduced, without drawing a random
    number, from any state that knows at least the assignments it left. *)
Lemma visit_replay (random random' : nat -> Q) (t : Q) (m m' : gmap Z (list Vehicle))
    (w w' w2 : World) (trip : Trip) :
  visit random t (m, w) trip = Normal (m', w') ->
  vehicleCarAssignments w' ⊆ vehicleCarAssignments w2 ->
  visit random' t (m, w2) trip = Normal (m', w2).
Proof.
  unfold visit.
  destruct (interpolateSample trip t) as [[smp|]|]; cbn [mbind completion_bind cbind];
    [| intros [= <- <-]; reflexivity | discriminate].
  destruct (pos smp) as [lon lat].
  assert (forall c, vehicleCarAssignments w' !! id trip = Some c ->
                    vehicleCarAssignments w' ⊆ vehicleCarAssignments w2 ->
                    vehicleCarAssignments w2 !! id trip = Some c) as Hweak.
  { intros c Hc Hsub. apply (lookup_weaken _ _ _ _ Hc Hsub). }
  destruct (vehicleCarAssignments w !! id trip) as [c|] eqn:Hc.
  - rewrite Hc. destruct (m !! c) eqn:Hm; [|discriminate]. intros [= <- <-] Hsub.
    rewrite (Hweak c Hc Hsub). rewrite (Hweak c Hc Hsub). rewrite Hm. reflexivity.
  - cbn [vehicleCarAssignments]. rewrite lookup_insert_eq.
    set (c := (Qfloor (random (random_calls w) * 7) + 1)%Z).
    destruct (m !! c) eqn:Hm; [|discriminate]. intros [= <- <-] Hsub.
    cbn [vehicleCarAssignments] in *.
    assert (vehicleCarAssignments w2 !! id trip = Some c) as Hc2
      by (apply Hweak; [apply lookup_insert_eq | exact Hsub]).
    rewrite Hc2. rewrite Hc2. rewrite Hm. reflexivity.
Qed.

Lemma forEach_visit_replay (random random' : nat -> Q) (t : Q) (trips : list Trip) :
  forall m w m' w' w2,
    forEach (visit random t) trips (m, w) = Normal (m', w') ->
    vehicleCarAssignments w' ⊆ vehicleCarAssignments w2 ->
    forEach (visit random' t) trips (m, w2) = Normal (m', w2).
Proof.
  induction trips as [|trip trips IH]; intros m w m' w' w2.
  - intros [= <- <-] _. reflexivity.
  - cbn [forEach].
    destruct (visit random t (m, w) trip) as [[m1 w1]|] eqn:Hv; [|discriminate].
    cbn [mbind completion_bind cbind]. intros Hrest Hsub.
    assert (vehicleCarAssignments w1 ⊆ vehicleCarAssignments w2) as Hsub1.
    { transitivity (vehicleCarAssignments w'); [|exact Hsub].
      apply (forEach_visit_grows random t trips m1 w1 m' w' Hrest). }
    rewrite (visit_replay random random' t m m1 w w1 w2 trip Hv Hsub1).
    cbn [mbind completion_bind cbind].
    apply (IH m1 w1 m' w' w2 Hrest Hsub).
Qed.

(** C7, as the code has it.  When the vehicle layer has been computed once,
    computing it again for the same time and trips from the state the first
    computation left gives the same output, model assignment included,
    whatever [Math.random] would return, and changes nothing. *)
Theorem getVehiclesData3D_recompute (random random' : nat -> Q) (trips : list Trip)
    (t : Q) (w w' : World) (out : gmap Z (list Vehicle)) :
  getVehiclesData3D random trips t w = Normal (out, w') ->
  getVehiclesData3D random' trips t w' = Normal (out, w').
Proof.
  intros H. unfold getVehiclesData3D in *.
  apply (forEach_visit_replay random random' t trips _ w out w' w' H). reflexivity.
Qed.

Lemma getVehiclesData3D_recompute_witness :
  exists out w',
    getVehiclesData3D (fun _ => 0) [solo; scenario] 3 (mkWorld ∅ 0) = Normal (out, w') /\
    getVehiclesData3D (fun _ => 1 # 2) [solo; scenario] 3 w' = Normal (out, w') /\
    veh_id <$> default [] (out !! 1%Z) = ["solo"; "veh1"].
Proof.
  destruct (getVehiclesData3D (fun _ => 0) [solo; scenario] 3 (mkWorld ∅ 0))
    as [[out w']|] eqn:H.
  - exists out, w'. split; [reflexivity|]. split.
    + apply (getVehiclesData3D_recompute (fun _ => 0) (fun _ => 1 # 2) _ _ _ _ _ H).
    + vm_compute in H. injection H as <- _. vm_compute. reflexivity.
  - vm_compute in H. discriminate H.
Defined.

(** From one and the same state the output depends on what [Math.random]
    returns: with no assignment cached, [solo] is put into model 1 when the
    draw is 0 and into model 4 when it is 1/2. *)
Lemma getVehiclesData3D_depends_on_random : ~ vehicle_layer_deterministic.
Proof.
  intros H.
  destruct (getVehiclesData3D (fun _ => 0) [solo] 3 (mkWorld ∅ 0)) as [[o1 w1]|] eqn:H1;
    [|vm_compute in H1; discriminate H1].
  destruct (getVehiclesData3D (fun _ => 1 # 2) [solo] 3 (mkWorld ∅ 0)) as [[o2 w2]|] eqn:H2;
    [|vm_compute in H2; discriminate H2].
  pose proof (H _ _ _ _ _ _ _ _ _ H1 H2) as E.
  assert (o1 !! 1%Z = o2 !! 1%Z) as E1 by (rewrite E; reflexivity).
  vm_compute in H1. injection H1 as <- _.
  vm_compute in H2. injection H2 as <- _.
  vm_compute in E1. discriminate E1.
Qed.

(** ** Junction polygons (C9) *)

Lemma mapM_completion_total {A B} (f : A -> completion B) (l : list A) :
  (forall x, x ∈ l -> exists y, f x = Normal y) ->
  exists out, mapM f l = Normal out /\
    forall y, y ∈ out <-> exists x, x ∈ l /\ f x = Normal y.
Proof.
  induction l as [|a l IH]; intros Hall.
  - exists []. split; [reflexivity|]. intros y. split.
    + intros H. inversion H.
    + intros (x & H & _). inversion H.
  - destruct (Hall a) as [b Hb]; [left|].
    destruct IH as (out & Hout & Hmem).
    { intros x Hx. apply Hall. right. exact Hx. }
    exists (b :: out). split.
    + cbn [mapM]. rewrite Hb. cbn [mbind completion_bind cbind].
      rewrite Hout. reflexivity.
    + intros y. rewrite elem_of_cons, Hmem. split.
      * intros [->|(x & Hx & Hfx)].
        -- exists a. split; [left|exact Hb].
        -- exists x. split; [right; exact Hx|exact Hfx].
      * intros (x & Hx & Hfx). apply elem_of_cons in Hx as [->|Hx].
        -- left. rewrite Hb in Hfx. injection Hfx as ->. reflexivity.
        -- right. exists x. split; assumption.
Qed.

Lemma is_junction_inv (o : option Feature) :
  is_junction o = true <->
  exists f p geo ring,
    o = Some f /\ properties f = Some p /\ element p = Some "junction" /\
    geometry f = Some geo /\ coordinates geo = CArr ring /\ (2 < length ring)%nat.
Proof.
  unfold is_junction. split.
  - destruct o as [f|]; [|discriminate].
    destruct (properties f) as [p|] eqn:Hp; [|discriminate].
    intros H. apply andb_true_iff in H as [He H].
    apply bool_decide_eq_true in He.
    destruct (geometry f) as [geo|] eqn:Hg; [|discriminate].
    apply andb_true_iff in H as [_ H].
    destruct (coordinates geo) as [|q|ring] eqn:Hc; try discriminate.
    cbn [length_gt_2] in H. apply Nat.ltb_lt in H.
    exists f, p, geo, ring. repeat split; auto.
  - intros (f & p & geo & ring & -> & -> & He & -> & -> & Hlen).
    apply andb_true_iff. split.
    + apply bool_decide_eq_true. exact He.
    + cbn [truthy length_gt_2 andb]. apply Nat.ltb_lt. exact Hlen.
Qed.

(** C9, as the code has it.  The junction features are always produced,
    and a polygon is emitted exactly for the records with element
    ['junction'] whose geometry holds a coordinate array with more than two
    entries, distinct or not; the polygon keeps the record's properties and
    has one ring, the record's coordinate array unchanged. *)
Theorem junctionFeatures_polygons (features : list (option Feature)) :
  exists out,
    junctionFeatures features = Normal out /\
    forall g, g ∈ out <->
      exists f p geo ring,
        Some f ∈ features /\
        properties f = Some p /\ element p = Some "junction" /\
        geometry f = Some geo /\ coordinates geo = CArr ring /\
        (2 < length ring)%nat /\
        g = mkFeature (properties f) (Some (mkGeometry "Polygon" (CArr [CArr ring]))) /\
        rings g = [ring].
Proof.
  unfold junctionFeatures.
  destruct (mapM_completion_total as_polygon
              (filter (fun f => is_junction f = true) features))
    as (out & Hout & Hmem).
  { intros o Ho. apply list_elem_of_filter in Ho as [Ho _].
    apply is_junction_inv in Ho as (f & p & geo & ring & -> & _ & _ & Hg & _).
    cbn. rewrite Hg. eauto. }
  exists out. split; [exact Hout|].
  intros g. rewrite Hmem. split.
  - intros (o & Ho & Hg). apply list_elem_of_filter in Ho as [Hj Ho].
    apply is_junction_inv in Hj as (f & p & geo & ring & -> & Hp & He & Hgeo & Hc & Hlen).
    cbn in Hg. rewrite Hgeo, Hc in Hg. injection Hg as <-.
    exists f, p, geo, ring. repeat split; auto.
  - intros (f & p & geo & ring & Hin & Hp & He & Hgeo & Hc & Hlen & -> & _).
    exists (Some f). split.
    + apply list_elem_of_filter. split; [|exact Hin].
      apply is_junction_inv. exists f, p, geo, ring. repeat split; auto.
    + cbn. rewrite Hgeo, Hc. reflexivity.
Qed.

(** C9 as worded fails twice: the three corners of [open_triangle] are
    emitted as a ring that is not closed, and a record that repeats one
    position three times is converted although it has one distinct
    coordinate. *)
Lemma junction_claim_fails :
  ~ junction_claim open_triangle /\
  ~ junction_claim [position 0 0; position 0 0; position 0 0].
Proof.
  split; intros H.
  - destruct (H _ eq_refl) as [_ Hclosed].
    specialize (Hclosed _ open_triangle ltac:(left) ltac:(left)).
    vm_compute in Hclosed. discriminate.
  - destruct (H _ eq_refl) as [[Hconv _] _].
    assert (2 < 1)%nat as Hlt; [|lia].
    apply Hconv. discriminate.
Qed.

(** ** Playback range and visibility *)

Lemma fold_left_concat {A B} (f : A -> B -> A) (ls : list (list B)) (a : A) :
  fold_left (fun acc l => fold_left f l acc) ls a = fold_left f (concat ls) a.
Proof.
  revert a. induction ls as [|l ls IH]; intros a; [reflexivity|].
  cbn [fold_left concat]. rewrite fold_left_app. apply IH.
Qed.

Lemma elem_of_concat_paths (trips : list Trip) (p : Sample) :
  p ∈ concat (path <$> trips) <-> exists trip, trip ∈ trips /\ p ∈ path trip.
Proof.
  induction trips as [|t trips IH]; cbn [fmap list_fmap concat].
  - split; [intros H; inversion H | intros (? & H & _); inversion H].
  - rewrite elem_of_app, IH. split.
    + intros [H|(trip & H1 & H2)]; [exists t; split; [left|exact H]|].
      exists trip. split; [right; exact H1 | exact H2].
    + intros (trip & H1 & H2). apply elem_of_cons in H1 as [->|H1]; [left; exact H2|].
      right. exists trip. split; assumption.
Qed.

Lemma recomputeRanges_scan (l seen : list Sample) (acc : option Q * option Q) :
  let scan := fun (acc : option Q * option Q) (p : Sample) =>
    let ts := s_t p in
    let minT := match fst acc with
                | Some m => if Qltb ts m then Some ts else Some m
                | None => Some ts
                end in
    let maxT := match snd acc with
                | Some m => if Qltb m ts then Some ts else Some m
                | None => Some ts
                end in
    (minT, maxT) in
  range_of seen acc -> range_of (seen ++ l) (fold_left scan l acc).
Proof.
  intros scan. revert seen acc.
  induction l as [|p l IH]; intros seen acc Hacc.
  - rewrite app_nil_r. exact Hacc.
  - cbn [fold_left]. replace (seen ++ p :: l) with ((seen ++ [p]) ++ l)
      by (rewrite <- app_assoc; reflexivity).
    apply IH. unfold scan, range_of in *.
    destruct acc as [[a|] [b|]]; cbn [fst snd]; try contradiction.
    + destruct Hacc as (Hall & (pa & Hpa & Ea) & (pb & Hpb & Eb)).
      destruct (Qltb (s_t p) a) eqn:H1; destruct (Qltb b (s_t p)) eqn:H2;
        try apply Qltb_lt in H1; try apply Qltb_lt in H2;
        try apply Qltb_ge in H1; try apply Qltb_ge in H2.
      all: split; [intros q Hq; apply elem_of_app in Hq as [Hq|Hq];
                   [destruct (Hall q Hq); split; lra
                   |apply list_elem_of_singleton in Hq as ->; split; lra]|].
      all: split.
      all: try (exists p; split; [apply elem_of_app; right; left | reflexivity]).
      all: try (exists pa; split; [apply elem_of_app; left; exact Hpa | exact Ea]).
      all: try (exists pb; split; [apply elem_of_app; left; exact Hpb | exact Eb]).
    + subst seen. cbn [app].
      split; [intros q Hq; apply list_elem_of_singleton in Hq as ->; split; apply Qle_refl|].
      split; exists p; (split; [left | reflexivity]).
Qed.

Lemma recomputeRanges_bounds (trips : list Trip) (c : Clock) :
  let c' := recomputeRanges trips c in
  (forall trip p, trip ∈ trips -> p ∈ path trip ->
     minTime c' <= s_t p /\ s_t p <= maxTime c') /\
  ((exists trip, trip ∈ trips /\ path trip <> []) ->
     (exists trip p, trip ∈ trips /\ p ∈ path trip /\ minTime c' = s_t p) /\
     (exists trip p, trip ∈ trips /\ p ∈ path trip /\ maxTime c' = s_t p)) /\
  ((forall trip, trip ∈ trips -> path trip = []) ->
     minTime c' = 0 /\ maxTime c' = 3600) /\
  currentTime c' = minTime c' /\
  playing c' = playing c /\ speed c' = speed c /\ lastTimestamp c' = lastTimestamp c.
Proof.
  unfold recomputeRanges. cbv zeta.
  set (scan := fun (acc : option Q * option Q) (p : Sample) => _).
  assert (fold_left (fun acc t => fold_left scan (path t) acc) trips (None, None)
          = fold_left scan (concat (path <$> trips)) (None, None)) as ->.
  { rewrite <- fold_left_concat. generalize (None : option Q, None : option Q).
    induction trips as [|t ts IH]; intros a; [reflexivity|]. cbn. apply IH. }
  pose proof (recomputeRanges_scan (concat (path <$> trips)) [] (None, None) eq_refl) as H.
  cbv zeta in H. fold scan in H. cbn [app] in H.
  destruct (fold_left scan (concat (path <$> trips)) (None, None)) as [[a|] [b|]];
    unfold range_of in H; try contradiction.
  - destruct H as (Hall & (pa & Hpa & Ea) & (pb & Hpb & Eb)). cbn.
    split; [intros trip p Ht Hp; apply Hall, elem_of_concat_paths; eauto|].
    split.
    { intros _. apply elem_of_concat_paths in Hpa as (ta & ? & ?).
      apply elem_of_concat_paths in Hpb as (tb & ? & ?).
      split; [exists ta, pa | exists tb, pb]; auto. }
    split; [|auto].
    intros Hempty. apply elem_of_concat_paths in Hpa as (ta & Hta & Hin).
    rewrite (Hempty ta Hta) in Hin. inversion Hin.
  - cbn. split.
    { intros trip p Ht Hp.
      assert (p ∈ concat (path <$> trips)) as Hin by (apply elem_of_concat_paths; eauto).
      rewrite H in Hin. inversion Hin. }
    split.
    { intros (trip & Ht & Hne). exfalso.
      destruct (path trip) as [|p l] eqn:E; [contradiction|].
      assert (p ∈ concat (path <$> trips)) as Hin.
      { apply elem_of_concat_paths. exists trip. split; [exact Ht|]. rewrite E. left. }
      rewrite H in Hin. inversion Hin. }
    auto.
Qed.

(** X1. [recomputeRanges] sets [minTime] and [maxTime] to the smallest and
    the largest sample timestamp over all trips: every sample lies within
    the range, and when there is a sample both bounds are timestamps of
    samples.  With no sample at all the range is 0..3600.  The time is put
    at [minTime] and [playing], [speed] and [lastTimestamp] are kept. *)
Theorem recomputeRanges_covers (trips : list Trip) (c : Clock) :
  let c' := recomputeRanges trips c in
  (forall trip p, trip ∈ trips -> p ∈ path trip ->
     minTime c' <= s_t p /\ s_t p <= maxTime c') /\
  ((exists trip, trip ∈ trips /\ path trip <> []) ->
     (exists trip p, trip ∈ trips /\ p ∈ path trip /\ minTime c' = s_t p) /\
     (exists trip p, trip ∈ trips /\ p ∈ path trip /\ maxTime c' = s_t p)) /\
  ((forall trip, trip ∈ trips -> path trip = []) ->
     minTime c' = 0 /\ maxTime c' = 3600) /\
  currentTime c' = minTime c' /\
  playing c' = playing c /\ speed c' = speed c /\ lastTimestamp c' = lastTimestamp c.
Proof.
  exact (recomputeRanges_bounds trips c).
Qed.

Lemma recomputeRanges_covers_witness :
  let c' := recomputeRanges [commute; scenario] (clock mounted) in
  minTime c' = 0 /\ maxTime c' = 10.
Proof.
  destruct (recomputeRanges_covers [commute; scenario] (clock mounted))
    as (Hall & Hatt & _).
  destruct Hatt as [_ _].
  - exists commute. split; [left | discriminate].
  - specialize (Hall scenario (mkSample 1 1 10 (Some 20) (Some 0.8) (Some 90))).
    destruct Hall as [_ _]; [right; left | right; left |].
    split; reflexivity.
Defined.

Lemma head_elem_of {A} (l : list A) (x : A) : head l = Some x -> x ∈ l.
Proof. destruct l; [discriminate|]. intros [= ->]. left. Qed.

Lemma last_elem_of {A} (l : list A) (x : A) : last l = Some x -> x ∈ l.
Proof.
  rewrite last_lookup. intros H. apply list_elem_of_lookup. eauto.
Qed.

(** X2. With the range that [recomputeRanges] computes for the loaded
    trips, no trip has a sample at a time before [minTime] or after
    [maxTime]; and when every path is sorted and there is a sample, at
    least one trip has a sample at [minTime], the time playback starts
    from. *)
Theorem recomputeRanges_visibility (trips : list Trip) (c : Clock) :
  let c' := recomputeRanges trips c in
  (forall trip t, trip ∈ trips -> t < minTime c' \/ maxTime c' < t ->
     interpolateSample trip t = Normal None) /\
  ((forall trip, trip ∈ trips -> sorted_by_time (path trip)) ->
   (exists trip, trip ∈ trips /\ path trip <> []) ->
   exists trip r, trip ∈ trips /\
     interpolateSample trip (currentTime c') = Normal (Some r)).
Proof.
  destruct (recomputeRanges_bounds trips c) as (Hall & Hatt & _ & Hct & _).
  cbv zeta. split.
  - intros trip t Ht Hout.
    destruct (path trip) as [|p0 l0] eqn:Hp.
    { apply interpolateSample_empty. exact Hp. }
    assert (path trip <> []) as Hne by (rewrite Hp; discriminate).
    destruct (nonempty_head_last _ Hne) as (pf & pl & Hf & Hl).
    destruct Hout as [Hlt|Hgt].
    + apply (interpolateSample_before trip t pf Hf).
      destruct (Hall trip pf Ht (head_elem_of _ _ Hf)). lra.
    + apply (interpolateSample_after trip t pl Hl).
      destruct (Hall trip pl Ht (last_elem_of _ _ Hl)). lra.
  - intros Hsorted Hex. rewrite Hct.
    destruct (Hatt Hex) as [(trip & p & Ht & Hp & Emin) _].
    assert (path trip <> []) as Hne by (intros E; rewrite E in Hp; inversion Hp).
    destruct (nonempty_head_last _ Hne) as (pf & pl & Hf & Hl).
    exists trip, (getPoint pf). split; [exact Ht|].
    apply (interpolateSample_at_first trip _ pf pl Hf Hl).
    + apply list_elem_of_lookup in Hp as [i Hi].
      assert (s_t pf <= s_t p).
      { apply (Hsorted trip Ht 0%nat i); [lia | rewrite <- head_lookup; exact Hf | exact Hi]. }
      destruct (Hall trip pf Ht (head_elem_of _ _ Hf)) as [Hge _].
      rewrite Emin in *. apply Qle_antisym; assumption.
    + destruct (Hall trip pl Ht (last_elem_of _ _ Hl)) as [Hge _]. exact Hge.
Qed.

Lemma recomputeRanges_visibility_witness :
  interpolateSample scenario (-1) = Normal None /\
  exists trip r, trip ∈ [commute; scenario] /\
    interpolateSample trip
      (currentTime (recomputeRanges [commute; scenario] (clock mounted))) =
      Normal (Some r).
Proof.
  destruct (recomputeRanges_visibility [commute; scenario] (clock mounted))
    as [Hout Hin].
  split.
  - apply Hout; [right; left | left; reflexivity].
  - apply Hin.
    + intros trip Ht. apply elem_of_cons in Ht as [->|Ht];
        [apply sorted_by_timeb_sound; reflexivity|].
      apply list_elem_of_singleton in Ht as ->.
      apply sorted_by_timeb_sound; reflexivity.
    + exists commute. split; [left | discriminate].
Defined.

(** ** Colours of the vehicle layer *)

Lemma Math_round_between (a b : Z) (x : Q) :
  inject_Z a <= x -> x <= inject_Z b -> (a <= Math_round x <= b)%Z.
Proof.
  intros Ha Hb. unfold Math_round. split.
  - apply (Z.le_trans _ (Qfloor (inject_Z a))); [rewrite Qfloor_Z; lia|].
    apply Qfloor_resp_le. lra.
  - assert (inject_Z (Qfloor (x + (1 # 2))) < inject_Z (b + 1)) as H.
    { apply (Qle_lt_trans _ (x + (1 # 2))); [apply Qfloor_le|].
      rewrite inject_Z_plus. change (inject_Z 1) with 1. lra. }
    rewrite <- Zlt_Qlt in H. lia.
Qed.

Lemma lerp_round_between (a b lo hi : Z) (lt : Q) :
  0 <= lt -> lt <= 1 ->
  (lo <= a <= hi)%Z -> (lo <= b <= hi)%Z ->
  (lo <= Math_round (inject_Z a + (inject_Z b - inject_Z a) * lt) <= hi)%Z.
Proof.
  intros H0 H1 [Hla Hah] [Hlb Hbh].
  rewrite Zle_Qle in Hla, Hah, Hlb, Hbh.
  apply Math_round_between; nra.
Qed.

Lemma segment_of_unit (t : Q) :
  0 <= t -> t <= 1 ->
  let seg := Z.min 1 (Qfloor (t * 2)) in
  (seg = 0%Z \/ seg = 1%Z) /\
  0 <= t * 2 - inject_Z seg /\ t * 2 - inject_Z seg <= 1.
Proof.
  intros H0 H1. cbv zeta.
  pose proof (Qfloor_le (t * 2)) as Hle.
  pose proof (Qlt_floor (t * 2)) as Hlt.
  assert (Qfloor 0 <= Qfloor (t * 2))%Z as Hz0 by (apply Qfloor_resp_le; lra).
  assert (Qfloor (t * 2) <= Qfloor 2)%Z as Hz2 by (apply Qfloor_resp_le; lra).
  change (Qfloor 0) with 0%Z in Hz0. change (Qfloor 2) with 2%Z in Hz2.
  rewrite inject_Z_plus in Hlt. change (inject_Z 1) with 1 in Hlt.
  assert (Qfloor (t * 2) = 0 \/ Qfloor (t * 2) = 1 \/ Qfloor (t * 2) = 2)%Z
    as [E|[E|E]] by lia; rewrite E in *; cbn [Z.min Z.compare Pos.compare Pos.compare_cont];
    [change (inject_Z 0) with 0 in * | change (inject_Z 1) with 1 in *
    | change (inject_Z 2) with 2 in *; change (inject_Z (Z.min 1 2)) with 1 ].
  - split; [left; reflexivity|]. change (inject_Z (Z.min 1 0)) with 0. lra.
  - split; [right; reflexivity|]. change (inject_Z (Z.min 1 1)) with 1. lra.
  - split; [right; reflexivity|]. lra.
Qed.

Lemma interpolateSample_returns (d : Trip) (t : Q) :
  exists r, interpolateSample d t = Normal r.
Proof.
  destruct (path d) as [|p0 l0] eqn:Hp.
  { rewrite (interpolateSample_empty d t Hp). eauto. }
  assert (path d <> []) as Hne by (rewrite Hp; discriminate).
  destruct (nonempty_head_last _ Hne) as (pf & pl & Hf & Hl).
  destruct (Qlt_le_dec t (s_t pf)) as [Hb|Hb].
  { rewrite (interpolateSample_before d t pf Hf Hb). eauto. }
  destruct (Qlt_le_dec (s_t pl) t) as [Ha|Ha].
  { rewrite (interpolateSample_after d t pl Hl Ha). eauto. }
  destruct (Qeq_dec t (s_t pf)) as [E1|N1].
  { rewrite (interpolateSample_at_first d t pf pl Hf Hl E1 Ha). eauto. }
  assert (s_t pf < t) as Hb' by lra.
  destruct (Qeq_dec t (s_t pl)) as [E2|N2].
  { rewrite (interpolateSample_at_last d t pf pl Hf Hl Hb' E2). eauto. }
  assert (t < s_t pl) as Ha' by lra.
  destruct (interpolateSample_inside d t pf pl Hf Hl Hb' Ha')
    as (lo & q0 & q1 & _ & _ & _ & _ & _ & ->). eauto.
Qed.

Lemma colorFromFraction_channels (frac : Q) :
  exists r g b,
    colorFromFraction frac = Normal [r; g; b; 220]%Z /\
    (26 <= r <= 255)%Z /\ (25 <= g <= 255)%Z /\ (28 <= b <= 191)%Z.
Proof.
  unfold colorFromFraction. cbv zeta.
  destruct (clamp_unit frac) as (H0 & H1 & _).
  destruct (segment_of_unit (clamp frac 0 1) H0 H1) as ([E|E] & Hl0 & Hl1);
    cbv zeta in *; rewrite E in *;
    set (lt := clamp frac 0 1 * 2 - _) in *; cbn [gradient elemZ];
    eexists _, _, _; (split; [reflexivity|]);
    (split; [|split]); apply lerp_round_between; auto; lia.
Qed.

(** X3. colorFromFraction raises a TypeError for NaN and for no other
    number of the model: for every finite input, inside [0,1] or not, it
    returns four channels, red within 26..255, green within 25..255, blue
    within 28..191 and alpha 220, so a valid RGBA byte quadruple. *)
Theorem colorFromFraction_rgba (frac : number) :
  (colorFromFraction_number frac = Throw TypeError <-> frac = NaN) /\
  (forall q, frac = Num q ->
     colorFromFraction_number frac = colorFromFraction q /\
     exists r g b,
       colorFromFraction_number frac = Normal [r; g; b; 220]%Z /\
       (26 <= r <= 255)%Z /\ (25 <= g <= 255)%Z /\ (28 <= b <= 191)%Z).
Proof.
  split.
  - destruct frac as [|q]; [split; reflexivity|].
    change (colorFromFraction_number (Num q)) with (colorFromFraction q).
    destruct (colorFromFraction_channels q) as (r & g & b & -> & _).
    split; discriminate.
  - intros q ->. split; [reflexivity|].
    exact (colorFromFraction_channels q).
Qed.

Lemma colorFromFraction_rgba_witness :
  colorFromFraction_number NaN = Throw TypeError /\
  exists r g b, colorFromFraction_number (Num (-7)) = Normal [r; g; b; 220]%Z.
Proof.
  split.
  - apply (proj1 (colorFromFraction_rgba NaN)). reflexivity.
  - destruct (proj2 (colorFromFraction_rgba (Num (-7))) (-7) eq_refl)
      as (_ & r & g & b & H & _).
    exists r, g, b. exact H.
Defined.

(** ** The vehicle layer: contents, totality, agreement with 2D *)

Lemma visit_inv (random : nat -> Q) (t : Q) (m m1 : gmap Z (list Vehicle))
    (w w1 : World) (trip : Trip) :
  visit random t (m, w) trip = Normal (m1, w1) ->
  (interpolateSample trip t = Normal None /\ m1 = m /\ w1 = w) \/
  (exists s c l,
     interpolateSample trip t = Normal (Some s) /\
     vehicleCarAssignments w1 !! id trip = Some c /\
     m !! c = Some l /\
     m1 = <[c := l ++ [vehicle_entry trip s]]> m /\
     (w1 = w \/
      (vehicleCarAssignments w !! id trip = None /\
       c = (Qfloor (random (random_calls w) * 7) + 1)%Z /\
       w1 = mkWorld (<[id trip := c]> (vehicleCarAssignments w)) (S (random_calls w))))).
Proof.
  unfold visit, vehicle_entry.
  destruct (interpolateSample trip t) as [[s|]|]; cbn [mbind completion_bind cbind];
    [| intros [= <- <-]; left; auto | discriminate].
  destruct (pos s) as [lon lat] eqn:Hpos.
  destruct (vehicleCarAssignments w !! id trip) as [c|] eqn:Hc.
  - rewrite Hc. destruct (m !! c) as [l|] eqn:Hm; [|discriminate]. intros [= <- <-].
    right. exists s, c, l. rewrite Hpos. repeat split; auto.
  - cbn [vehicleCarAssignments]. rewrite lookup_insert_eq.
    set (c := (Qfloor (random (random_calls w) * 7) + 1)%Z).
    destruct (m !! c) as [l|] eqn:Hm; [|discriminate]. intros [= <- <-].
    right. exists s, c, l. rewrite Hpos. cbn [vehicleCarAssignments].
    rewrite lookup_insert_eq. repeat split; auto.
Qed.

Lemma forEach_visit_layers (random : nat -> Q) (t : Q) (trips : list Trip) :
  forall m w m' w' w2,
    forEach (visit random t) trips (m, w) = Normal (m', w') ->
    vehicleCarAssignments w' ⊆ vehicleCarAssignments w2 ->
    (forall k, m' !! k = (fun l => l ++ omap (listed t w2 k) trips) <$> m !! k) /\
    (forall trip s, trip ∈ trips -> interpolateSample trip t = Normal (Some s) ->
       exists c, vehicleCarAssignments w2 !! id trip = Some c /\ is_Some (m !! c)).
Proof.
  induction trips as [|trip trips IH]; intros m w m' w' w2.
  - intros [= <- <-] _. split.
    + intros k. destruct (m !! k); cbn; [rewrite app_nil_r|]; reflexivity.
    + intros trip s H. inversion H.
  - cbn [forEach].
    destruct (visit random t (m, w) trip) as [[m1 w1]|] eqn:Hv; [|discriminate].
    cbn [mbind completion_bind cbind]. intros Hrest Hsub.
    destruct (IH m1 w1 m' w' w2 Hrest Hsub) as [IHk IHa].
    assert (vehicleCarAssignments w1 ⊆ vehicleCarAssignments w2) as Hsub1.
    { transitivity (vehicleCarAssignments w'); [|exact Hsub].
      apply (forEach_visit_grows random t trips m1 w1 m' w' Hrest). }
    destruct (visit_inv random t m m1 w w1 trip Hv)
      as [(Hs & -> & ->)|(s & c & l & Hs & Hc & Hm & -> & _)].
    + split.
      * intros k. rewrite IHk. cbn [omap list_omap]. unfold listed at 2. rewrite Hs.
        reflexivity.
      * intros trip' s' Hin Hs'. apply elem_of_cons in Hin as [->|Hin].
        -- rewrite Hs in Hs'. discriminate.
        -- apply (IHa trip' s' Hin Hs').
    + pose proof (lookup_weaken _ _ _ _ Hc Hsub1) as Hc2.
      split.
      * intros k. rewrite IHk. cbn [omap list_omap]. unfold listed at 2.
        rewrite Hs, Hc2.
        destruct (decide (c = k)) as [<-|Hne].
        -- rewrite lookup_insert_eq, Hm. cbn.
           destruct (decide (Some c = Some c)) as [_|N]; [|contradiction].
           rewrite <- app_assoc. reflexivity.
        -- rewrite lookup_insert_ne by exact Hne.
           destruct (decide (Some c = Some k)) as [[= E]|_]; [contradiction|].
           reflexivity.
      * intros trip' s' Hin Hs'. apply elem_of_cons in Hin as [->|Hin].
        -- exists c. split; [exact Hc2 | rewrite Hm; eauto].
        -- destruct (IHa trip' s' Hin Hs') as (c' & Hc' & Hsome).
           exists c'. split; [exact Hc'|].
           destruct (decide (c = c')) as [<-|Hne]; [rewrite Hm; eauto|].
           rewrite lookup_insert_ne in Hsome by exact Hne. exact Hsome.
Qed.

Lemma empty_models_lookup (k : Z) :
  empty_models !! k = if decide (1 <= k <= 7)%Z then Some [] else None.
Proof.
  destruct (decide (1 <= k <= 7)%Z) as [H|H].
  - assert (k = 1 \/ k = 2 \/ k = 3 \/ k = 4 \/ k = 5 \/ k = 6 \/ k = 7)%Z
      as [->|[->|[->|[->|[->|[->| ->]]]]]] by lia; reflexivity.
  - unfold empty_models. apply not_elem_of_list_to_map_1.
    cbn [fmap list_fmap fst]. rewrite !elem_of_cons, elem_of_nil. lia.
Qed.

Lemma car_number_range (r : Q) :
  0 <= r -> r < 1 -> (1 <= Qfloor (r * 7) + 1 <= 7)%Z.
Proof.
  intros H0 H1.
  assert (Qfloor 0 <= Qfloor (r * 7))%Z as Hlo by (apply Qfloor_resp_le; lra).
  change (Qfloor 0) with 0%Z in Hlo.
  pose proof (Qfloor_le (r * 7)) as Hle.
  assert (inject_Z (Qfloor (r * 7)) < inject_Z 7) as Hlt
    by (change (inject_Z 7) with 7; lra).
  rewrite <- Zlt_Qlt in Hlt. lia.
Qed.

Lemma forEach_visit_total (random : nat -> Q) (t : Q) (trips : list Trip) :
  (forall n, 0 <= random n /\ random n < 1) ->
  forall m w,
    valid_assignments w ->
    (forall c, (1 <= c <= 7)%Z -> is_Some (m !! c)) ->
    exists m' w',
      forEach (visit random t) trips (m, w) = Normal (m', w') /\
      valid_assignments w' /\
      (random_calls w' + size (vehicleCarAssignments w) =
       random_calls w + size (vehicleCarAssignments w'))%nat.
Proof.
  intros Hunit. induction trips as [|trip trips IH]; intros m w Hvalid Hkeys.
  - exists m, w. split; [reflexivity|]. split; [exact Hvalid | reflexivity].
  - cbn [forEach].
    assert (exists m1 w1,
              visit random t (m, w) trip = Normal (m1, w1) /\
              valid_assignments w1 /\
              (forall c, (1 <= c <= 7)%Z -> is_Some (m1 !! c)) /\
              (random_calls w1 + size (vehicleCarAssignments w) =
               random_calls w + size (vehicleCarAssignments w1))%nat)
      as (m1 & w1 & Hv & Hvalid1 & Hkeys1 & Hcount1).
    { unfold visit.
      destruct (interpolateSample_returns trip t) as [[s|] ->];
        cbn [mbind completion_bind cbind];
        [|exists m, w; split; [reflexivity|]; split; [exact Hvalid|];
          split; [exact Hkeys | reflexivity]].
      destruct (pos s) as [lon lat].
      destruct (vehicleCarAssignments w !! id trip) as [c|] eqn:Hc.
      - rewrite Hc. destruct (Hkeys c (Hvalid _ _ Hc)) as [l ->].
        eexists _, w. split; [reflexivity|]. split; [exact Hvalid|]. split; [|reflexivity].
        intros c' Hc'. destruct (decide (c = c')) as [<-|Hne].
        + rewrite lookup_insert_eq. eauto.
        + rewrite lookup_insert_ne by exact Hne. apply Hkeys, Hc'.
      - cbn [vehicleCarAssignments]. rewrite lookup_insert_eq.
        set (c := (Qfloor (random (random_calls w) * 7) + 1)%Z).
        assert (1 <= c <= 7)%Z as Hrange
          by (apply car_number_range; apply (Hunit (random_calls w))).
        destruct (Hkeys c Hrange) as [l ->].
        eexists _, _. split; [reflexivity|]. split; [|split].
        + intros i c' Hi. cbn [vehicleCarAssignments] in Hi.
          destruct (decide (id trip = i)) as [<-|Hne].
          * rewrite lookup_insert_eq in Hi. injection Hi as <-. exact Hrange.
          * rewrite lookup_insert_ne in Hi by exact Hne. apply (Hvalid i c' Hi).
        + intros c' Hc'. destruct (decide (c = c')) as [<-|Hne].
          * rewrite lookup_insert_eq. eauto.
          * rewrite lookup_insert_ne by exact Hne. apply Hkeys, Hc'.
        + cbn [vehicleCarAssignments random_calls].
          rewrite (map_size_insert_None _ _ _ Hc). lia. }
    rewrite Hv. cbn [mbind completion_bind cbind].
    destruct (IH m1 w1 Hvalid1 Hkeys1) as (m' & w' & Hrest & Hvalid' & Hcount').
    exists m', w'. split; [exact Hrest|]. split; [exact Hvalid' | lia].
Qed.

(** X5. When getVehiclesData3D returns, the list of each model [k] in
    1..7 holds exactly the entries of the trips that have a sample at the
    current time and are assigned model [k] in the assignments it leaves, in
    the order of the trips; the result has no other key. *)
Theorem getVehiclesData3D_layers (random : nat -> Q) (trips : list Trip) (t : Q)
    (w w' : World) (out : gmap Z (list Vehicle)) :
  getVehiclesData3D random trips t w = Normal (out, w') ->
  forall k,
    out !! k = if decide (1 <= k <= 7)%Z
               then Some (omap (listed t w' k) trips)
               else None.
Proof.
  intros H k. unfold getVehiclesData3D in H.
  destruct (forEach_visit_layers random t trips _ w out w' w' H) as [Hk _];
    [reflexivity|].
  rewrite Hk, empty_models_lookup. destruct (decide (1 <= k <= 7)%Z); reflexivity.
Qed.

Lemma getVehiclesData3D_layers_witness :
  exists out w',
    getVehiclesData3D (fun _ => 1 # 2) [solo; scenario] 3 (mkWorld ∅ 0) = Normal (out, w') /\
    out !! 4%Z = Some (omap (listed 3 w' 4) [solo; scenario]) /\
    out !! 8%Z = None.
Proof.
  destruct (getVehiclesData3D (fun _ => 1 # 2) [solo; scenario] 3 (mkWorld ∅ 0))
    as [[out w']|] eqn:H.
  - exists out, w'. split; [reflexivity|].
    split; [apply (getVehiclesData3D_layers _ _ _ _ _ _ H 4%Z)
           |apply (getVehiclesData3D_layers _ _ _ _ _ _ H 8%Z)].
  - vm_compute in H. discriminate H.
Defined.

(** X6. With [Math.random] returning values in [0,1) and every cached
    assignment within 1..7, getVehiclesData3D never raises; the
    assignments it leaves extend the previous ones and are again within
    1..7, and one random number is drawn for each vehicle newly assigned. *)
Theorem getVehiclesData3D_total (random : nat -> Q) (trips : list Trip) (t : Q)
    (w : World) :
  (forall n, 0 <= random n /\ random n < 1) ->
  valid_assignments w ->
  exists out w',
    getVehiclesData3D random trips t w = Normal (out, w') /\
    valid_assignments w' /\
    vehicleCarAssignments w ⊆ vehicleCarAssignments w' /\
    (random_calls w' - random_calls w =
     size (vehicleCarAssignments w') - size (vehicleCarAssignments w))%nat.
Proof.
  intros Hunit Hvalid. unfold getVehiclesData3D.
  destruct (forEach_visit_total random t trips Hunit empty_models w Hvalid)
    as (out & w' & H & Hvalid' & Hcount).
  { intros c Hc. rewrite empty_models_lookup.
    destruct (decide (1 <= c <= 7)%Z); [eauto | contradiction]. }
  exists out, w'. split; [exact H|]. split; [exact Hvalid'|]. split.
  - apply (forEach_visit_grows random t trips _ w out w' H).
  - lia.
Qed.

Lemma getVehiclesData3D_total_witness :
  exists out w',
    getVehiclesData3D (fun n => if Nat.even n then 0 else 6 # 7) [solo; scenario; commute] 3
      (mkWorld {[ "solo" := 2%Z ]} 0) = Normal (out, w') /\
    valid_assignments w'.
Proof.
  destruct (getVehiclesData3D_total (fun n => if Nat.even n then 0 else 6 # 7)
              [solo; scenario; commute] 3 (mkWorld {[ "solo" := 2%Z ]} 0))
    as (out & w' & H & Hv & _).
  - intros n. destruct (Nat.even n); split; unfold Qle, Qlt; simpl; lia.
  - intros i c Hi. cbn [vehicleCarAssignments] in Hi.
    apply lookup_singleton_Some in Hi as [_ <-]. lia.
  - exists out, w'. split; assumption.
Defined.

Lemma listed_Some (t : Q) (w : World) (k : Z) (trip : Trip) (v : Vehicle) :
  listed t w k trip = Some v <->
  exists s, interpolateSample trip t = Normal (Some s) /\
            vehicleCarAssignments w !! id trip = Some k /\
            v = vehicle_entry trip s.
Proof.
  unfold listed. split.
  - destruct (interpolateSample trip t) as [[s|]|]; try discriminate.
    destruct (decide (vehicleCarAssignments w !! id trip = Some k)) as [E|N];
      [|discriminate].
    intros [= <-]. eauto.
  - intros (s & -> & E & ->).
    destruct (decide (vehicleCarAssignments w !! id trip = Some k)); [reflexivity|contradiction].
Qed.

Lemma vehicle_entry_fields (trip : Trip) (s : Point) :
  veh_id (vehicle_entry trip s) = id trip /\
  veh_position (vehicle_entry trip s) = (fst (pos s), snd (pos s), 0).
Proof.
  unfold vehicle_entry. destruct (pos s). split; reflexivity.
Qed.

(** X7. The 3D vehicle lists and the 2D vehicle layer show the same
    vehicles: when getVehiclesData3D returns, every trip that has a 2D
    position has an entry with its id and that position (elevation 0) in
    one of the seven lists, and every entry of every list is such a trip. *)
Theorem vehicle_layers_agree (random : nat -> Q) (trips : list Trip) (t : Q)
    (w w' : World) (out : gmap Z (list Vehicle)) :
  getVehiclesData3D random trips t w = Normal (out, w') ->
  (forall trip p, trip ∈ trips -> getPosition trip t = Normal (Some p) ->
     exists k vs v, out !! k = Some vs /\ v ∈ vs /\
       veh_id v = id trip /\ veh_position v = (fst p, snd p, 0)) /\
  (forall k vs v, out !! k = Some vs -> v ∈ vs ->
     exists trip p, trip ∈ trips /\ getPosition trip t = Normal (Some p) /\
       veh_id v = id trip /\ veh_position v = (fst p, snd p, 0)).
Proof.
  intros H. unfold getVehiclesData3D in H.
  destruct (forEach_visit_layers random t trips _ w out w' w' H) as [Hk Ha];
    [reflexivity|].
  split.
  - intros trip p Hin Hp. unfold getPosition in Hp.
    destruct (interpolateSample trip t) as [[s|]|] eqn:Hs; try discriminate.
    cbn in Hp. injection Hp as <-.
    destruct (Ha trip s Hin Hs) as (c & Hc & Hsome).
    exists c, (omap (listed t w' c) trips), (vehicle_entry trip s).
    split; [|split].
    + rewrite Hk. destruct Hsome as [l Hl]. rewrite Hl.
      rewrite empty_models_lookup in Hl.
      destruct (decide (1 <= c <= 7)%Z); [|discriminate]. injection Hl as <-.
      reflexivity.
    + apply list_elem_of_omap. exists trip. split; [exact Hin|].
      apply listed_Some. eauto.
    + apply vehicle_entry_fields.
  - intros k vs v Hout Hv. rewrite Hk, empty_models_lookup in Hout.
    destruct (decide (1 <= k <= 7)%Z); [|discriminate].
    cbn in Hout. injection Hout as <-.
    apply list_elem_of_omap in Hv as (trip & Hin & Hl).
    apply listed_Some in Hl as (s & Hs & _ & ->).
    exists trip, (pos s). split; [exact Hin|]. split.
    + unfold getPosition. rewrite Hs. reflexivity.
    + apply vehicle_entry_fields.
Qed.

Lemma vehicle_layers_agree_witness :
  exists out w',
    getVehiclesData3D (fun _ => 1 # 2) [solo; scenario] 3 (mkWorld ∅ 0) = Normal (out, w') /\
    exists k vs v, out !! k = Some vs /\ v ∈ vs /\
       veh_id v = "solo" /\ veh_position v = (1, 2, 0).
Proof.
  destruct (getVehiclesData3D (fun _ => 1 # 2) [solo; scenario] 3 (mkWorld ∅ 0))
    as [[out w']|] eqn:H.
  - exists out, w'. split; [reflexivity|].
    destruct (vehicle_layers_agree _ _ _ _ _ _ H) as [Hshow _].
    apply (Hshow solo (1, 2)); [left | reflexivity].
  - vm_compute in H. discriminate H.
Defined.

(** ** Pausing, calm runs, unmounting *)

Lemma animate_outside_clock (timestamp : Q) (s : State) :
  mode (animate timestamp s) = mode s /\
  engines (animate timestamp s) = engines s /\
  animationFrameId (animate timestamp s) = Some (next_frame (host s)) /\
  host (animate timestamp s) = host (requestAnimationFrame s).
Proof.
  unfold animate. cbv zeta. destruct (playing (clock s)); cbn; auto.
Qed.

Lemma clock_animate_paused (timestamp : Q) (s : State) :
  playing (clock s) = false ->
  clock (animate timestamp s) =
    let c := clock s in
    mkClock (currentTime c) (minTime c) (maxTime c) false (speed c) (Some timestamp).
Proof.
  intros Hp. unfold animate. cbv zeta. rewrite Hp. reflexivity.
Qed.

Lemma ticks_paused (ts : list Q) :
  forall (s : State) (t0 : Q),
    playing (clock s) = false ->
    clock (ticks (t0 :: ts) s) =
      let c := clock s in
      mkClock (currentTime c) (minTime c) (maxTime c) false (speed c)
        (Some (List.last ts t0)).
Proof.
  induction ts as [|a ts IH]; intros s t0 Hp.
  - cbn [ticks fold_left]. apply (clock_animate_paused t0 s Hp).
  - change (ticks (t0 :: a :: ts) s) with (ticks (a :: ts) (animate t0 s)).
    rewrite (last_cons_default ts a t0).
    rewrite IH; rewrite (clock_animate_paused t0 s Hp); reflexivity.
Qed.

(** X8. While paused the clock does not move, however many frames pass;
    the frames only record their timestamp.  After Play the first frame
    advances the time by the wall time since the last paused frame (times the
    speed), so the time spent paused is not played back. *)
Theorem pause_holds_time (s : State) (t0 : Q) (ts : list Q) (t : Q) :
  playing (clock s) = false ->
  let paused := ticks (t0 :: ts) s in
  let resumed := animate t (setPlaying true paused) in
  let advanced := currentTime (clock s) + (t - List.last ts t0) / 1000 * speed (clock s) in
  currentTime (clock paused) = currentTime (clock s) /\
  playing (clock paused) = false /\
  (advanced <= maxTime (clock s) -> currentTime (clock resumed) = advanced) /\
  (maxTime (clock s) < advanced -> currentTime (clock resumed) = minTime (clock s)).
Proof.
  intros Hp. cbv zeta.
  pose proof (ticks_paused ts s t0 Hp) as Hc. cbv zeta in Hc.
  rewrite Hc. cbn [currentTime playing].
  split; [reflexivity|]. split; [reflexivity|].
  rewrite (clock_animate_playing t (setPlaying true (ticks (t0 :: ts) s)) eq_refl).
  cbv zeta. cbn [setPlaying with_clock clock]. rewrite Hc.
  cbn [currentTime minTime maxTime speed lastTimestamp].
  split; intros H.
  - apply Qltb_ge in H. rewrite H. reflexivity.
  - apply Qltb_lt in H. rewrite H. reflexivity.
Qed.

Lemma pause_holds_time_witness :
  currentTime (clock (ticks [1000; 5000; 9000] (setPlaying false mounted))) = 0 /\
  currentTime (clock (animate 9500
      (setPlaying true (ticks [1000; 5000; 9000] (setPlaying false mounted))))) ==
    1 # 2.
Proof.
  destruct (pause_holds_time (setPlaying false mounted) 1000 [5000; 9000] 9500 eq_refl)
    as (H1 & _ & H2 & _).
  split; [exact H1|].
  rewrite H2; [reflexivity|]. unfold Qle. simpl. lia.
Defined.

Ltac settle_backends :=
  first [ left; repeat split; reflexivity
        | right; left; eexists; repeat split; reflexivity
        | right; right; eexists; repeat split; reflexivity ].

Lemma step_steady (s : State) (e : event) :
  steady s ->
  match e with
  | SelectMode m => mode s = m \/ timers (host s) = 0%nat
  | _ => True
  end ->
  steady (step s e).
Proof.
  intros [Hnf Hshape] Hcalm.
  destruct s as [md c [mp dk ov] fid [mb lv fr tm nh nf]]. cbn in Hnf.
  destruct e as [m| |j ts]; cbn [step mode host frames timers].
  - (* SelectMode *)
    destruct (decide (md = m)) as [E|N]; [split; assumption|].
    destruct Hcalm as [E|Htm]; [contradiction|]. cbn in Htm. subst tm.
    destruct Hshape as [[[_ Hb] (i & Hfr & Hfid & Hi)]|(Htm & _)];
      [|cbn in Htm; discriminate].
    cbn in Hb, Hfr, Hfid, Hi. subst fr fid.
    destruct i as [|i]; [lia|].
    split; [unfold switchMode_begin; cbn;
            destruct mp, dk; cbn; exact Hnf|].
    right.
    destruct Hb as [(-> & -> & ->)|[(b & -> & -> & ->)|(b & -> & -> & ->)]];
      unfold switchMode_begin; cbn;
      destruct (decide (S i <> S i)) as [H|H]; try contradiction; cbn;
      try (destruct (decide (b <> b)) as [H'|H']; [contradiction|]); cbn;
      repeat split; reflexivity.
  - (* Timeout *)
    destruct tm as [|k]; [split; assumption|].
    destruct Hshape as [[[Htm _] _]|(Htm & Hfr & Hfid & Hlv & Hmp & Hdk)];
      [cbn in Htm; discriminate|].
    cbn in Htm, Hfr, Hfid, Hlv, Hmp, Hdk. injection Htm as ->. subst fr fid lv mp dk.
    destruct md, mb; unfold steady, settled; cbn; (split; [lia|]); left;
      (split; [split; [reflexivity|settle_backends]|]);
      exists nf; cbn; repeat split; try reflexivity; lia.
  - (* Frame *)
    destruct (decide (j ∈ fr)) as [Hin|Hnin]; [|split; assumption].
    destruct Hshape as [[[Htm Hb] (i & Hfr & Hfid & Hi)]|(_ & Hfr & _)];
      [|cbn in Hfr; subst fr; inversion Hin].
    cbn in Htm, Hb, Hfr, Hfid, Hi. subst fr fid tm.
    apply list_elem_of_singleton in Hin as ->.
    set (s0 := cancelAnimationFrame i _).
    destruct (animate_outside_clock ts s0) as (Hm & He & Hf & Hh).
    unfold steady, settled. rewrite He, Hf, Hh. subst s0. cbn.
    destruct (decide (i <> i)) as [H|H]; [contradiction|]. cbn.
    split; [lia|]. left. split; [split; [reflexivity|exact Hb]|].
    exists nf. repeat split; try reflexivity; lia.
Qed.

Lemma run_steady (es : list event) :
  forall s, steady s -> calm s es -> steady (run s es).
Proof.
  induction es as [|e es IH]; intros s Hs Hc; [exact Hs|].
  destruct Hc as [He Hc]. cbn [run fold_left]. apply (IH (step s e)); [|exact Hc].
  apply (step_steady s e Hs He).
Qed.

Lemma steady_mounted : steady mounted.
Proof.
  split; [cbn; lia|]. left. split.
  - split; [reflexivity|]. right. right. eexists. repeat split.
  - exists 1%nat. cbn. repeat split; lia.
Qed.

(** X9. Along every run in which the user changes the mode only while no
    earlier switch is waiting in its timeout, whatever frames fire in
    between, at most one backend is live and it is the one held by [map] or
    [deckgl], and at most one animation frame is queued and it is the one
    named by [animationFrameId]. *)
Theorem calm_run_one_backend (s : State) (es : list event) :
  steady s -> calm s es ->
  let s' := run s es in
  (length (live (host s')) <= 1)%nat /\
  (forall b, b ∈ live (host s') ->
     map (engines s') = Some b \/ deckgl (engines s') = Some b) /\
  (length (frames (host s')) <= 1)%nat /\
  (forall i, i ∈ frames (host s') -> animationFrameId s' = Some i).
Proof.
  intros Hs Hc. cbv zeta.
  destruct (run_steady es s Hs Hc) as [_ [[[_ Hb] (i & Hfr & Hfid & _)]|
                                        (_ & Hfr & _ & Hlv & _)]].
  - rewrite Hfr, Hfid.
    destruct Hb as [(_ & _ & ->)|[(b & -> & _ & ->)|(b & _ & -> & ->)]]; cbn.
    + split; [lia|]. split; [intros b H; inversion H|]. split; [lia|].
      intros j Hj. apply list_elem_of_singleton in Hj as ->. reflexivity.
    + split; [lia|].
      split; [intros b' H; apply list_elem_of_singleton in H as ->; left; reflexivity|].
      split; [lia|].
      intros j Hj. apply list_elem_of_singleton in Hj as ->. reflexivity.
    + split; [lia|].
      split; [intros b' H; apply list_elem_of_singleton in H as ->; right; reflexivity|].
      split; [lia|].
      intros j Hj. apply list_elem_of_singleton in Hj as ->. reflexivity.
  - rewrite Hfr, Hlv. cbn. split; [lia|]. split; [intros b H; inversion H|].
    split; [lia|]. intros j H. inversion H.
Qed.

Lemma calm_run_one_backend_witness :
  let s' := run mounted [Frame 1 16; SelectMode Mode3D; Frame 2 32; Timeout;
                         Frame 2 48; SelectMode Mode2D; Timeout; Frame 3 64] in
  (length (live (host s')) <= 1)%nat /\
  (forall b, b ∈ live (host s') ->
     map (engines s') = Some b \/ deckgl (engines s') = Some b) /\
  (length (frames (host s')) <= 1)%nat /\
  (forall i, i ∈ frames (host s') -> animationFrameId s' = Some i).
Proof.
  apply (calm_run_one_backend mounted).
  - exact steady_mounted.
  - cbn. repeat split; auto.
Defined.

Lemma step_idle (s : State) (e : event) :
  timers (host s) = 0%nat -> frames (host s) = [] ->
  match e with SelectMode _ => False | _ => True end ->
  step s e = s.
Proof.
  intros Ht Hf He. destruct e as [m| |j ts]; [contradiction| |]; cbn [step].
  - rewrite Ht. reflexivity.
  - rewrite Hf. destruct (decide (j ∈ [])) as [H|_]; [inversion H|reflexivity].
Qed.

(** X10. Unmounting a running component (no switch waiting) finalizes the
    live backend and cancels the queued frame: nothing is live, nothing is
    queued, and no timeout or frame event that arrives later changes that. *)
Theorem unmount_releases (s : State) (es : list event) :
  steady s -> timers (host s) = 0%nat ->
  Forall (fun e => match e with SelectMode _ => False | _ => True end) es ->
  let s' := run (onBeforeUnmount s) es in
  live (host s') = [] /\ frames (host s') = [] /\
  map (engines s') = None /\ deckgl (engines s') = None.
Proof.
  intros [_ Hshape] Ht Hes. cbv zeta.
  assert (let u := onBeforeUnmount s in
          timers (host u) = 0%nat /\ live (host u) = [] /\ frames (host u) = [] /\
          map (engines u) = None /\ deckgl (engines u) = None) as Hu.
  { destruct s as [md c [mp dk ov] fid [mb lv fr tm nh nf]]. cbn in Ht. subst tm.
    destruct Hshape as [[[_ Hb] (i & Hfr & Hfid & Hi)]|(Htm & _)];
      [|cbn in Htm; discriminate].
    cbn in Hb, Hfr, Hfid, Hi. subst fr fid. destruct i as [|i]; [lia|].
    destruct Hb as [(-> & -> & ->)|[(b & -> & -> & ->)|(b & -> & -> & ->)]];
      unfold onBeforeUnmount; cbn;
      destruct (decide (S i <> S i)) as [H|H]; try contradiction; cbn;
      try (destruct (decide (b <> b)) as [H'|H']; [contradiction|]); cbn;
      repeat split; reflexivity. }
  cbv zeta in Hu. destruct Hu as (Hut & Hul & Huf & Hum & Hud).
  assert (run (onBeforeUnmount s) es = onBeforeUnmount s) as ->; [|auto].
  induction Hes as [|e es He Hes IH]; [reflexivity|].
  cbn [run fold_left]. rewrite (step_idle _ e Hut Huf He). exact IH.
Qed.

Lemma unmount_releases_witness :
  let s' := run (onBeforeUnmount (run mounted [Frame 1 16; SelectMode Mode3D; Timeout]))
              [Timeout; Frame 3 32] in
  live (host s') = [] /\ frames (host s') = [] /\
  map (engines s') = None /\ deckgl (engines s') = None.
Proof.
  apply (unmount_releases (run mounted [Frame 1 16; SelectMode Mode3D; Timeout])).
  - apply run_steady; [exact steady_mounted | cbn; repeat split; auto].
  - reflexivity.
  - repeat constructor.
Defined.

(** X12. A mode switch keeps the playback state: after the switch has
    finished, the time, its bounds, the speed and the playing flag are what
    they were and the mode is the selected one.  It forgets the last frame
    timestamp, so the first frame after the switch does not advance the
    time. *)
Theorem switch_keeps_playback (s : State) (m : ViewMode) (ts : Q) :
  timers (host s) = 0%nat -> mode s <> m ->
  let s' := run s [SelectMode m; Timeout] in
  mode s' = m /\
  currentTime (clock s') = currentTime (clock s) /\
  minTime (clock s') = minTime (clock s) /\
  maxTime (clock s') = maxTime (clock s) /\
  speed (clock s') = speed (clock s) /\
  playing (clock s') = playing (clock s) /\
  lastTimestamp (clock s') = None /\
  (playing (clock s) = true -> currentTime (clock s) <= maxTime (clock s) ->
   currentTime (clock (animate ts s')) == currentTime (clock s)).
Proof.
  intros Ht Hm. cbv zeta.
  assert (let s' := run s [SelectMode m; Timeout] in
          mode s' = m /\
          clock s' = mkClock (currentTime (clock s)) (minTime (clock s))
                       (maxTime (clock s)) (playing (clock s)) (speed (clock s)) None)
    as [Hmode Hclock].
  { destruct s as [md c [mp dk ov] fid [mb lv fr tm nh nf]]. cbn in Ht, Hm. subst tm.
    cbn [run fold_left step mode].
    destruct (decide (md = m)) as [E|_]; [contradiction|].
    unfold switchMode_begin; destruct fid as [[|i]|], mp, dk, m, mb; cbn; auto. }
  split; [exact Hmode|]. rewrite Hclock. cbn [currentTime minTime maxTime speed playing lastTimestamp].
  repeat (split; [reflexivity|]).
  intros Hp Hle.
  rewrite (clock_animate_playing ts _ ltac:(rewrite Hclock; exact Hp)).
  cbv zeta. rewrite Hclock. cbn [currentTime minTime maxTime speed lastTimestamp].
  set (adv := currentTime (clock s) + (ts - ts) / 1000 * speed (clock s)).
  assert (adv == currentTime (clock s)) as E by (unfold adv; field).
  assert (Qltb (maxTime (clock s)) adv = false) as ->
    by (apply Qltb_ge; rewrite E; exact Hle).
  exact E.
Qed.

Lemma switch_keeps_playback_witness :
  let s0 := ticks [1000; 3000] mounted in
  currentTime (clock (animate 9000 (run s0 [SelectMode Mode3D; Timeout]))) ==
    currentTime (clock s0).
Proof.
  cbv zeta.
  refine (proj2 (proj2 (proj2 (proj2 (proj2 (proj2 (proj2
    (switch_keeps_playback (ticks [1000; 3000] mounted) Mode3D 9000 _ _))))))) _ _).
  - reflexivity.
  - discriminate.
  - reflexivity.
  - unfold Qle. simpl. lia.
Defined.

(** ** The initial view centre *)

Lemma coords_nested_ind (P : coords -> Prop) :
  P CUndef -> (forall q, P (CNum q)) -> (forall l, Forall P l -> P (CArr l)) ->
  forall c, P c.
Proof.
  intros HU HN HA. fix IH 1. intros [|q|l]; [exact HU | apply HN |].
  apply HA. induction l as [|a l IHl]; constructor; [apply IH | exact IHl].
Qed.

Lemma visitCoords_CArr (items : list coords) (b : BBox) :
  visitCoords (CArr items) b =
    match items with
    | CNum x :: CNum y :: _ => Normal (widen b x y)
    | _ => visitEach items b
    end.
Proof. destruct items as [|[|x|l] [|[|y|l'] rest]]; reflexivity. Qed.

Lemma positions_CArr (items : list coords) :
  positions (CArr items) =
    match items with
    | CNum x :: CNum y :: _ => [(x, y)]
    | _ => positionsEach items
    end.
Proof. destruct items as [|[|x|l] [|[|y|l'] rest]]; reflexivity. Qed.

Lemma nested_arrays_CArr (items : list coords) :
  nested_arrays (CArr items) =
    match items with
    | CNum x :: CNum y :: _ => true
    | _ => nestedEach items
    end.
Proof. destruct items as [|[|x|l] [|[|y|l'] rest]]; reflexivity. Qed.

Lemma visitCoords_nested (c : coords) :
  (nested_arrays c = true ->
     forall b, visitCoords c b = Normal (widen_all (positions c) b)) /\
  (nested_arrays c = false -> forall b, visitCoords c b = Throw TypeError).
Proof.
  induction c as [|q|l IH] using coords_nested_ind.
  - split; [discriminate | reflexivity].
  - split; [discriminate | reflexivity].
  - assert ((nestedEach l = true ->
               forall b, visitEach l b = Normal (widen_all (positionsEach l) b)) /\
            (nestedEach l = false -> forall b, visitEach l b = Throw TypeError)) as Heach.
    { induction IH as [|c l [Hc1 Hc2] _ [IH1 IH2]].
      - split; [reflexivity | discriminate].
      - change (nestedEach (c :: l)) with (nested_arrays c && nestedEach l).
        change (positionsEach (c :: l)) with (positions c ++ positionsEach l).
        split.
        + intros H b. apply andb_true_iff in H as [Hn Hl].
          change (visitEach (c :: l) b) with (b' ← visitCoords c b; visitEach l b').
          rewrite (Hc1 Hn b). cbn [mbind completion_bind cbind].
          rewrite (IH1 Hl). unfold widen_all. rewrite fold_left_app. reflexivity.
        + intros H b.
          change (visitEach (c :: l) b) with (b' ← visitCoords c b; visitEach l b').
          destruct (nested_arrays c) eqn:Hn.
          * rewrite (Hc1 eq_refl b). cbn [mbind completion_bind cbind].
            apply IH2. exact H.
          * rewrite (Hc2 eq_refl b). reflexivity. }
    rewrite nested_arrays_CArr, positions_CArr.
    split; intros H b; rewrite visitCoords_CArr;
      destruct l as [|[|x|l0] [|[|y|l1] rest]];
      try discriminate H; try reflexivity;
      first [apply (proj1 Heach H) | apply (proj2 Heach H)].
Qed.

Lemma widen_box (seen : list (Q * Q)) (b : BBox) (x y : Q) :
  box_of seen b -> box_of (seen ++ [(x, y)]) (widen b x y).
Proof.
  unfold box_of, widen. destruct b as [[x0|] [y0|] [x1|] [y1|]]; cbn [minX minY maxX maxY];
    try contradiction.
  - intros (Hall & (px0 & Hpx0 & Ex0) & (px1 & Hpx1 & Ex1) &
            (py0 & Hpy0 & Ey0) & (py1 & Hpy1 & Ey1)).
    assert (forall p, p ∈ seen -> p ∈ seen ++ [(x, y)]) as Hold
      by (intros p Hp; apply elem_of_app; left; exact Hp).
    assert ((x, y) ∈ seen ++ [(x, y)]) as Hnew by (apply elem_of_app; right; left).
    destruct (Qltb x x0) eqn:H1; destruct (Qltb y y0) eqn:H2;
      destruct (Qltb x1 x) eqn:H3; destruct (Qltb y1 y) eqn:H4;
      try apply Qltb_lt in H1; try apply Qltb_lt in H2;
      try apply Qltb_lt in H3; try apply Qltb_lt in H4;
      try apply Qltb_ge in H1; try apply Qltb_ge in H2;
      try apply Qltb_ge in H3; try apply Qltb_ge in H4.
    all: split; [intros p Hp; apply elem_of_app in Hp as [Hp|Hp];
                 [destruct (Hall p Hp) as (? & ? & ? & ?); repeat split; lra
                 |apply list_elem_of_singleton in Hp as ->; cbn [fst snd];
                  repeat split; lra]|].
    all: repeat split.
    all: first [ exists (x, y); split; [exact Hnew | reflexivity]
               | exists px0; split; [apply Hold; exact Hpx0 | exact Ex0]
               | exists px1; split; [apply Hold; exact Hpx1 | exact Ex1]
               | exists py0; split; [apply Hold; exact Hpy0 | exact Ey0]
               | exists py1; split; [apply Hold; exact Hpy1 | exact Ey1] ].
  - intros ->. cbn [app].
    split; [intros p Hp; apply list_elem_of_singleton in Hp as ->; cbn [fst snd];
            repeat split; apply Qle_refl|].
    repeat split; exists (x, y); (split; [left | reflexivity]).
Qed.

Lemma widen_all_box (ps seen : list (Q * Q)) (b : BBox) :
  box_of seen b -> box_of (seen ++ ps) (widen_all ps b).
Proof.
  revert seen b. induction ps as [|[x y] ps IH]; intros seen b Hb.
  - rewrite app_nil_r. exact Hb.
  - replace (seen ++ (x, y) :: ps) with ((seen ++ [(x, y)]) ++ ps)
      by (rewrite <- app_assoc; reflexivity).
    unfold widen_all. cbn [fold_left fst snd]. apply IH. apply widen_box. exact Hb.
Qed.

Lemma visitFeature_nested (f : option Feature) (b : BBox) :
  visitFeature b f =
    if feature_nested f then Normal (widen_all (feature_positions f) b)
    else Throw TypeError.
Proof.
  unfold visitFeature, feature_nested, feature_positions.
  destruct f as [f|]; [|reflexivity].
  destruct (geometry f) as [g|]; [|reflexivity].
  destruct (visitCoords_nested (coordinates g)) as [Hok Hbad].
  destruct (truthy (coordinates g)) eqn:Ht; cbn [negb orb].
  - destruct (nested_arrays (coordinates g)); [apply (Hok eq_refl) | apply (Hbad eq_refl)].
  - destruct (coordinates g) as [|q|l]; [reflexivity|reflexivity|discriminate Ht].
Qed.

Lemma forEach_visitFeature (features : list (option Feature)) :
  forall b,
    forEach visitFeature features b =
      if forallb feature_nested features
      then Normal (widen_all (concat (feature_positions <$> features)) b)
      else Throw TypeError.
Proof.
  induction features as [|f fs IH]; intros b; [reflexivity|].
  cbn [forEach forallb fmap list_fmap concat]. rewrite visitFeature_nested.
  destruct (feature_nested f); cbn [mbind completion_bind cbind andb]; [|reflexivity].
  rewrite IH. destruct (forallb feature_nested fs); [|reflexivity].
  unfold widen_all. rewrite fold_left_app. reflexivity.
Qed.

Lemma computeInitialCenter_cases (features : list (option Feature)) (trips : list Trip) :
  let ps := concat (feature_positions <$> features) in
  let fallback :=
    match trips with
    | trip0 :: _ =>
        match path trip0 with
        | p :: _ => (s_lon p, s_lat p)
        | [] => (43667 # 10000, 508219 # 10000)
        end
    | [] => (43667 # 10000, 508219 # 10000)
    end in
  (forallb feature_nested features = false ->
     computeInitialCenter (Some features) trips = Throw TypeError) /\
  (forallb feature_nested features = true -> ps = [] ->
     computeInitialCenter (Some features) trips = Normal fallback) /\
  (forallb feature_nested features = true -> ps <> [] ->
     exists x0 y0 x1 y1,
       computeInitialCenter (Some features) trips =
         Normal ((x0 + x1) / 2, (y0 + y1) / 2) /\
       (forall p, p ∈ ps ->
          x0 <= fst p /\ fst p <= x1 /\ y0 <= snd p /\ snd p <= y1) /\
       (exists p, p ∈ ps /\ fst p = x0) /\ (exists p, p ∈ ps /\ fst p = x1) /\
       (exists p, p ∈ ps /\ snd p = y0) /\ (exists p, p ∈ ps /\ snd p = y1)) /\
  computeInitialCenter None trips = Normal fallback.
Proof.
  cbv zeta. unfold computeInitialCenter. cbv zeta.
  rewrite forEach_visitFeature.
  pose proof (widen_all_box (concat (feature_positions <$> features)) []
                (mkBBox None None None None) eq_refl) as Hbox.
  cbn [app] in Hbox.
  split; [intros ->; reflexivity|].
  split; [|split; [|reflexivity]].
  - intros -> Hps. rewrite Hps. reflexivity.
  - intros -> Hps. cbn [mbind completion_bind cbind].
    unfold box_of in Hbox.
    destruct (widen_all _ _) as [[x0|] [y0|] [x1|] [y1|]]; cbn [minX minY maxX maxY] in *;
      try contradiction.
    exists x0, y0, x1, y1. split; [reflexivity | exact Hbox].
Qed.

(** X13. computeInitialCenter.  When every visited feature's coordinates
    are arrays nested down to positions and there is at least one position,
    the centre is the midpoint of the tight bounding box of all positions.
    With no position, or with no network, it is the first point of the first
    trip, or Brussels when there is no trip or the first trip has an empty
    path (later trips are not looked at). *)
Theorem computeInitialCenter_midpoint (features : list (option Feature))
    (trips : list Trip) :
  let ps := concat (feature_positions <$> features) in
  let fallback :=
    match trips with
    | trip0 :: _ =>
        match path trip0 with
        | p :: _ => (s_lon p, s_lat p)
        | [] => (43667 # 10000, 508219 # 10000)
        end
    | [] => (43667 # 10000, 508219 # 10000)
    end in
  forallb feature_nested features = true ->
  (ps = [] -> computeInitialCenter (Some features) trips = Normal fallback) /\
  (ps <> [] ->
     exists x0 y0 x1 y1,
       computeInitialCenter (Some features) trips =
         Normal ((x0 + x1) / 2, (y0 + y1) / 2) /\
       (forall p, p ∈ ps ->
          x0 <= fst p /\ fst p <= x1 /\ y0 <= snd p /\ snd p <= y1) /\
       (exists p, p ∈ ps /\ fst p = x0) /\ (exists p, p ∈ ps /\ fst p = x1) /\
       (exists p, p ∈ ps /\ snd p = y0) /\ (exists p, p ∈ ps /\ snd p = y1)) /\
  computeInitialCenter None trips = Normal fallback.
Proof.
  cbv zeta. intros Hn.
  destruct (computeInitialCenter_cases features trips) as (_ & H1 & H2 & H3).
  cbv zeta in *. split; [apply (H1 Hn)|]. split; [apply (H2 Hn) | exact H3].
Qed.

(** X14. computeInitialCenter raises a TypeError exactly when the
    coordinates of some visited feature are not arrays nested down to
    positions (a number or a null where an array is expected). *)
Theorem computeInitialCenter_throws_iff (features : list (option Feature))
    (trips : list Trip) :
  computeInitialCenter (Some features) trips = Throw TypeError <->
  exists f, f ∈ features /\ feature_nested f = false.
Proof.
  destruct (computeInitialCenter_cases features trips) as (Hbad & Hok0 & Hok1 & _).
  cbv zeta in *.
  destruct (forallb feature_nested features) eqn:Hn.
  - split.
    + intros Ht. exfalso.
      destruct (concat (feature_positions <$> features)) as [|p ps] eqn:Hps.
      * rewrite (Hok0 eq_refl eq_refl) in Ht. discriminate.
      * destruct (Hok1 eq_refl ltac:(discriminate)) as (? & ? & ? & ? & E & _).
        rewrite E in Ht. discriminate.
    + intros (f & Hin & Hf). exfalso.
      rewrite forallb_forall in Hn. apply list_elem_of_In in Hin.
      rewrite (Hn f Hin) in Hf. discriminate.
  - split; [|intros _; apply Hbad; reflexivity].
    intros _. apply not_true_iff_false in Hn.
    rewrite forallb_forall in Hn.
    destruct (existsb (fun f => negb (feature_nested f)) features) eqn:Hex.
    + apply existsb_exists in Hex as (f & Hin & Hf).
      exists f. split; [apply list_elem_of_In; exact Hin|].
      destruct (feature_nested f); [discriminate | reflexivity].
    + exfalso. apply Hn. intros f Hin.
      destruct (feature_nested f) eqn:Hf; [reflexivity|].
      assert (existsb (fun f => negb (feature_nested f)) features = true) as Hc
        by (apply existsb_exists; exists f; split; [exact Hin | rewrite Hf; reflexivity]).
      rewrite Hc in Hex. discriminate.
Qed.

Lemma computeInitialCenter_midpoint_witness :
  exists x0 y0 x1 y1,
    computeInitialCenter (Some [Some (junction open_triangle); None]) [solo] =
      Normal ((x0 + x1) / 2, (y0 + y1) / 2) /\
    x0 <= 0 /\ 1 <= x1 /\ y0 <= 0 /\ 1 <= y1.
Proof.
  destruct (computeInitialCenter_midpoint [Some (junction open_triangle); None] [solo])
    as (_ & H & _); [reflexivity|].
  destruct H as (x0 & y0 & x1 & y1 & E & Hall & _); [discriminate|].
  exists x0, y0, x1, y1. split; [exact E|].
  destruct (Hall (0, 0)) as (? & _ & ? & _); [left|].
  destruct (Hall (1, 1)) as (_ & ? & _ & ?); [right; right; left|].
  auto.
Defined.

Lemma computeInitialCenter_throws_iff_witness :
  computeInitialCenter (Some [Some (junction [CNum 4; CUndef])]) [] = Throw TypeError.
Proof.
  apply (proj2 (computeInitialCenter_throws_iff [Some (junction [CNum 4; CUndef])] [])).
  exists (Some (junction [CNum 4; CUndef])). split; [left | reflexivity].
Defined.

(** ** Lane identifiers and fill colours *)

Lemma digits_before_underscore (b ds : string) :
  digits (b +:+ String "_" ds) = false.
Proof.
  induction b as [|c b IH].
  - destruct ds; reflexivity.
  - change (String c b +:+ String "_" ds) with (String c (b +:+ String "_" ds)).
    destruct (b +:+ String "_" ds) as [|a s] eqn:E.
    + destruct b; discriminate E.
    + change (digits (String c (String a s)))
        with (is_digit c && digits (String a s)).
      rewrite IH. apply andb_false_r.
Qed.

Lemma strip_lane_index_suffix (edge ds : string) :
  digits ds = true -> strip_lane_index (edge +:+ String "_" ds) = edge.
Proof.
  intros Hd. induction edge as [|c e IH].
  - change (strip_lane_index (String "_" ds) = EmptyString).
    change (strip_lane_index (String "_" ds))
      with (if Ascii.eqb "_" "_" && digits ds then EmptyString
            else String "_" (strip_lane_index ds)).
    rewrite Hd. reflexivity.
  - change (String c e +:+ String "_" ds) with (String c (e +:+ String "_" ds)).
    change (strip_lane_index (String c (e +:+ String "_" ds)))
      with (if Ascii.eqb c "_" && digits (e +:+ String "_" ds) then EmptyString
            else String c (strip_lane_index (e +:+ String "_" ds))).
    rewrite digits_before_underscore, andb_false_r, IH. reflexivity.
Qed.

Lemma strip_lane_index_cut (s : string) :
  strip_lane_index s = s \/
  exists ds, digits ds = true /\ s = strip_lane_index s +:+ String "_" ds.
Proof.
  induction s as [|c rest IH]; [left; reflexivity|].
  change (strip_lane_index (String c rest))
    with (if Ascii.eqb c "_" && digits rest then EmptyString
          else String c (strip_lane_index rest)).
  destruct (Ascii.eqb c "_" && digits rest) eqn:H.
  - apply andb_true_iff in H as [Hc Hd]. apply Ascii.eqb_eq in Hc as ->.
    right. exists rest. split; [exact Hd | reflexivity].
  - destruct IH as [->|(ds & Hd & E)]; [left; reflexivity|].
    right. exists ds. split; [exact Hd|].
    change (String c (strip_lane_index rest) +:+ String "_" ds)
      with (String c (strip_lane_index rest +:+ String "_" ds)).
    rewrite <- E. reflexivity.
Qed.

(** X15. The edge id of a lane id.  Cutting the lane index recovers the
    edge: for a lane id made of an edge id, an underscore and a non-empty
    string of digits the result is the edge id, whatever the edge id
    contains.  In general the result is the id itself or the id without one
    trailing underscore-and-digits group. *)
Theorem strip_lane_index_spec :
  (forall edge ds, digits ds = true ->
     strip_lane_index (edge +:+ String "_" ds) = edge) /\
  (forall s, strip_lane_index s = s \/
     exists ds, digits ds = true /\ s = strip_lane_index s +:+ String "_" ds).
Proof.
  split; [exact strip_lane_index_suffix | exact strip_lane_index_cut].
Qed.

Lemma strip_lane_index_spec_witness :
  strip_lane_index "-123_456#2_0" = "-123_456#2"%string.
Proof.
  apply (proj1 strip_lane_index_spec "-123_456#2" "0"). reflexivity.
Defined.

Lemma includes_true (arr : list string) (x : string) :
  includes arr x = true <-> x ∈ arr.
Proof. unfold includes. apply bool_decide_eq_true. Qed.

Lemma feature_id_default (properties : option LaneProps) :
  feature_id (Some (default (mkLaneProps None None None None None None) properties)) =
  feature_id properties.
Proof. destruct properties; reflexivity. Qed.

Lemma lanesFillColor_red (dataset : string) (closedEdges : list string)
    (properties : option LaneProps) :
  (lanesFillColor dataset closedEdges properties = [255; 0; 0; 255]%Z <->
     dataset = "with"%string /\
     strip_lane_index (feature_id properties) ∈ closedEdges) /\
  lanesFillColor dataset closedEdges properties <> [255; 106; 0; 255]%Z.
Proof.
  unfold lanesFillColor, getClosedPredicate, getDefaultLaneFillColor. cbv zeta.
  rewrite feature_id_default.
  set (p := default _ properties).
  destruct (bool_decide (dataset = "with"%string)) eqn:Hd.
  - apply bool_decide_eq_true in Hd.
    destruct (includes closedEdges _) eqn:Hi; cbn [andb].
    + apply includes_true in Hi. split; [|discriminate]. split; auto.
    + assert (~ strip_lane_index (feature_id properties) ∈ closedEdges) as Hn
        by (intros H; apply includes_true in H; rewrite H in Hi; discriminate).
      destruct (bool_decide (lp_tunnel p = Some "yes"%string));
        [split; [split; [discriminate | intros [_ H]; contradiction] | discriminate]|].
      destruct (includes (allow_list (Some p)) "bus" &&
                negb (includes (allow_list (Some p)) "private"));
        [split; [split; [discriminate | intros [_ H]; contradiction] | discriminate]|].
      destruct (includes (allow_list (Some p)) "private");
        split; try discriminate; split; try discriminate; intros [_ H]; contradiction.
  - apply bool_decide_eq_false in Hd. cbn [andb].
    destruct (bool_decide (lp_tunnel p = Some "yes"%string));
      [split; [split; [discriminate | intros [H _]; contradiction] | discriminate]|].
    destruct (includes (allow_list (Some p)) "bus" &&
              negb (includes (allow_list (Some p)) "private"));
      [split; [split; [discriminate | intros [H _]; contradiction] | discriminate]|].
    destruct (includes (allow_list (Some p)) "private");
      split; try discriminate; split; try discriminate; intros [H _]; contradiction.
Qed.

(** X16. The lanes layer of the component paints a lane red exactly when
    the dataset is ['with'] and the lane's id without its lane index is one
    of the closed edges; so lane [edge_<digits>] is red exactly when [edge]
    is closed, and nothing is red in any other dataset.  No lane is ever
    painted in the selection colour. *)
Theorem lanes_closed_colour (dataset : string) (closedEdges : list string)
    (properties : option LaneProps) :
  (lanesFillColor dataset closedEdges properties = [255; 0; 0; 255]%Z <->
     dataset = "with"%string /\
     strip_lane_index (feature_id properties) ∈ closedEdges) /\
  (forall edge ds, digits ds = true ->
     feature_id properties = edge +:+ String "_" ds ->
     (lanesFillColor dataset closedEdges properties = [255; 0; 0; 255]%Z <->
        dataset = "with"%string /\ edge ∈ closedEdges)) /\
  lanesFillColor dataset closedEdges properties <> [255; 106; 0; 255]%Z.
Proof.
  destruct (lanesFillColor_red dataset closedEdges properties) as [Hred Horange].
  split; [exact Hred|]. split; [|exact Horange].
  intros edge ds Hd Hid. rewrite Hred, Hid, (strip_lane_index_suffix edge ds Hd).
  reflexivity.
Qed.

Lemma lanes_closed_colour_witness :
  lanesFillColor "with" ["12"; "7#1"]
    (Some (mkLaneProps (Some "lane") (Some "7#1_0") None (Some "private") None None))
  = [255; 0; 0; 255]%Z.
Proof.
  destruct (lanes_closed_colour "with" ["12"; "7#1"]
              (Some (mkLaneProps (Some "lane") (Some "7#1_0") None (Some "private") None None)))
    as (_ & H & _).
  apply (H "7#1"%string "0"%string); [reflexivity | reflexivity |].
  split; [reflexivity | right; left].
Defined.

(** X17. A lane kept by the filter of prepareSumoNetworkGeojson is never
    painted black by getDefaultLaneFillColor: whatever the selection and the
    closed flag, its colour is the selection, closed, tunnel, bus-only or
    private colour. *)
Theorem kept_lane_colour (f : NetFeature) (selectedId : option string) (isClosed : bool) :
  is_lane (Some f) = true ->
  getDefaultLaneFillColor (nf_properties f) selectedId isClosed ∈
    [[255; 106; 0; 255]; [255; 0; 0; 255]; [0; 0; 255; 255];
     [255; 255; 0; 255]; [150; 150; 150; 255]]%Z.
Proof.
  unfold is_lane.
  destruct (nf_properties f) as [p|]; [|discriminate].
  destruct (nf_geometry f) as [[gtype line]|]; [|discriminate].
  destruct (bool_decide (lp_element p = Some "lane"%string) &&
            bool_decide (gtype = "LineString"%string)); [|discriminate].
  cbv zeta. intros Hallow.
  unfold getDefaultLaneFillColor. cbv zeta.
  change (trim <$> split "," (default EmptyString (or_string (lp_allow p) (Some EmptyString))))
    with (allow_list (Some p)) in Hallow.
  repeat match goal with
         | |- context [if ?b then _ else _] =>
             lazymatch b with
             | includes _ _ => fail
             | includes _ _ && _ => fail
             | _ => destruct b
             end
         end;
    rewrite ?elem_of_cons; auto 10.
  all: destruct (includes (allow_list (Some p)) "bus"),
                (includes (allow_list (Some p)) "private");
    cbn [andb negb orb] in *; try discriminate; rewrite ?elem_of_cons; auto 10.
Qed.

Lemma kept_lane_colour_witness :
  getDefaultLaneFillColor
    (Some (mkLaneProps (Some "lane") (Some "e1_0") None (Some "bus, taxi ,private") None None))
    None false = [150; 150; 150; 255]%Z.
Proof.
  pose proof (kept_lane_colour
    (mkNetFeature
       (Some (mkLaneProps (Some "lane") (Some "e1_0") None (Some "bus, taxi ,private") None None))
       (Some ("LineString"%string, [(0, 0); (1, 1)]))) None false eq_refl) as H.
  cbn [nf_properties] in H. reflexivity.
Defined.

(** ** Lane polygons: the largest part *)

Lemma largestPart_loop (turf_area : list (list (Q * Q)) -> completion Q)
    (area : list (list (Q * Q)) -> Q) (polys : list (list (list (Q * Q)))) :
  (forall p, p ∈ polys -> turf_area p = Normal (area p)) ->
  forall seen acc,
    largest_of area seen acc ->
    exists acc',
      forEach (fun (acc : option (list (list (Q * Q))) * Q) polyCoords =>
                 a ← turf_area polyCoords;
                 if Qltb (snd acc) a then Normal (Some polyCoords, a) else Normal acc)
        polys acc = Normal acc' /\
      largest_of area (seen ++ polys) acc'.
Proof.
  induction polys as [|p polys IH]; intros Harea seen acc Hacc.
  - exists acc. rewrite app_nil_r. split; [reflexivity | exact Hacc].
  - cbn [forEach]. rewrite (Harea p) by left. cbn [mbind completion_bind cbind].
    replace (seen ++ p :: polys) with ((seen ++ [p]) ++ polys)
      by (rewrite <- app_assoc; reflexivity).
    assert (forall acc1, largest_of area (seen ++ [p]) acc1 ->
              exists acc',
                forEach (fun (acc : option (list (list (Q * Q))) * Q) polyCoords =>
                           a ← turf_area polyCoords;
                           if Qltb (snd acc) a then Normal (Some polyCoords, a)
                           else Normal acc) polys acc1 = Normal acc' /\
                largest_of area ((seen ++ [p]) ++ polys) acc') as Hnext.
    { intros acc1 H1. apply IH; [|exact H1].
      intros q Hq. apply Harea. right. exact Hq. }
    destruct acc as [sel m]. unfold largest_of in Hacc. cbn [fst snd] in *.
    destruct (Qltb m (area p)) eqn:Hcmp.
    + apply Qltb_lt in Hcmp. apply Hnext. unfold largest_of. cbn [fst snd].
      exists (length seen). split; [|split; [reflexivity|]].
      { rewrite lookup_app_r by lia. rewrite Nat.sub_diag. reflexivity. }
      destruct sel as [p0|].
      * destruct Hacc as (i & Hi & -> & Hpos & Hall).
        split; [lra|]. intros j q Hj.
        destruct (decide (j < length seen)%nat) as [Hlt|Hge].
        -- rewrite lookup_app_l in Hj by exact Hlt.
           destruct (Hall j q Hj) as [Hle _]. split; [lra | intros _; lra].
        -- rewrite lookup_app_r in Hj by lia.
           destruct (j - length seen)%nat as [|k] eqn:Ek; [|destruct k; discriminate Hj].
           injection Hj as <-. split; [apply Qle_refl | intros; lia].
      * destruct Hacc as (-> & Hall).
        split; [exact Hcmp|]. intros j q Hj.
        destruct (decide (j < length seen)%nat) as [Hlt|Hge].
        -- rewrite lookup_app_l in Hj by exact Hlt.
           assert (area q <= 0) by (apply Hall, list_elem_of_lookup; eauto).
           split; [lra | intros _; lra].
        -- rewrite lookup_app_r in Hj by lia.
           destruct (j - length seen)%nat as [|k] eqn:Ek; [|destruct k; discriminate Hj].
           injection Hj as <-. split; [apply Qle_refl | intros; lia].
    + apply Qltb_ge in Hcmp. apply Hnext. unfold largest_of. cbn [fst snd].
      destruct sel as [p0|].
      * destruct Hacc as (i & Hi & -> & Hpos & Hall).
        exists i. split; [apply lookup_app_l_Some; exact Hi|].
        split; [reflexivity|]. split; [exact Hpos|].
        intros j q Hj.
        destruct (decide (j < length seen)%nat) as [Hlt|Hge].
        -- rewrite lookup_app_l in Hj by exact Hlt. apply (Hall j q Hj).
        -- rewrite lookup_app_r in Hj by lia.
           destruct (j - length seen)%nat as [|k] eqn:Ek; [|destruct k; discriminate Hj].
           injection Hj as <-. split; [exact Hcmp|].
           intros Hji. apply lookup_lt_Some in Hi. lia.
      * destruct Hacc as (-> & Hall). split; [reflexivity|].
        intros q Hq. apply elem_of_app in Hq as [Hq|Hq]; [apply Hall, Hq|].
        apply list_elem_of_singleton in Hq as ->. exact Hcmp.
Qed.

(** X18. A lane whose buffer is a multi-polygon: when some part has a
    positive area, the lane polygon is the part with the largest area, the
    first of them if several parts share it; when no part has a positive
    area the multi-polygon is kept as it is.  The lane's own properties are
    carried over to the result. *)
Theorem lanePolygon_largest
    (turf_buffer : NetFeature -> Q -> completion Buffered)
    (turf_area : list (list (Q * Q)) -> completion Q)
    (area : list (list (Q * Q)) -> Q)
    (f : NetFeature) (buffered : Buffered) (polys : list (list (list (Q * Q)))) :
  turf_buffer f (lane_width f / 2) = Normal buffered ->
  b_geometry buffered = BMultiPolygon polys ->
  (forall p, p ∈ polys -> turf_area p = Normal (area p)) ->
  exists out,
    lanePolygon turf_buffer turf_area f = Normal out /\
    match b_geometry out with
    | BPolygon p =>
        exists i, polys !! i = Some p /\ 0 < area p /\
          forall j q, polys !! j = Some q ->
            area q <= area p /\ ((j < i)%nat -> area q < area p)
    | BMultiPolygon ps => ps = polys /\ forall q, q ∈ polys -> area q <= 0
    end /\
    forall p q, nf_properties f = Some p -> b_properties out = Some q ->
      (forall v, lp_id p = Some v -> lp_id q = Some v) /\
      (forall v, lp_osm_id p = Some v -> lp_osm_id q = Some v) /\
      (forall v, lp_allow p = Some v -> lp_allow q = Some v) /\
      (forall v, lp_tunnel p = Some v -> lp_tunnel q = Some v) /\
      (forall v, lp_element p = Some v -> lp_element q = Some v).
Proof.
  intros Hb Hg Harea. unfold lanePolygon. cbv zeta. rewrite Hb.
  cbn [mbind completion_bind cbind]. rewrite Hg.
  destruct (largestPart_loop turf_area area polys Harea [] (None, 0))
    as ([sel m] & Hloop & Hsel).
  { split; [reflexivity|]. intros q H. inversion H. }
  unfold largestPart. rewrite Hloop. cbn [mbind completion_bind cbind fst app] in *.
  unfold largest_of in Hsel. cbn [fst snd] in Hsel.
  destruct sel as [p|]; eexists; (split; [reflexivity|]); cbn [b_geometry b_properties].
  - split.
    + destruct Hsel as (i & Hi & _ & Hpos & Hall). exists i. auto.
    + intros p0 q Hp [= <-]. rewrite Hp. unfold spread. cbn.
      repeat split; intros v ->; reflexivity.
  - split.
    + destruct Hsel as (_ & Hall). auto.
    + intros p0 q Hp [= <-]. rewrite Hp. unfold spread. cbn.
      repeat split; intros v ->; reflexivity.
Qed.

Lemma lanePolygon_largest_witness :
  let square (s : Q) := [[(0, 0); (s, 0); (s, s); (0, s); (0, 0)]] in
  let buffer := fun (f : NetFeature) (r : Q) =>
    Normal (mkBuffered None (BMultiPolygon [square 1; square 3; square 2; square 3])) in
  let area := fun (p : list (list (Q * Q))) =>
    match p with
    | [[_; (s, _); _; _; _]] => s * s
    | _ => 0
    end in
  exists out,
    lanePolygon buffer (fun p => Normal (area p))
      (mkNetFeature (Some (mkLaneProps (Some "lane") (Some "e_0") None (Some "bus") None None))
         (Some ("LineString"%string, [(0, 0); (3, 3)]))) = Normal out /\
    b_geometry out = BPolygon (square 3).
Proof.
  cbv zeta.
  edestruct (lanePolygon_largest
     (fun (f : NetFeature) (r : Q) =>
        Normal (mkBuffered None
          (BMultiPolygon [[[(0, 0); (1, 0); (1, 1); (0, 1); (0, 0)]];
                          [[(0, 0); (3, 0); (3, 3); (0, 3); (0, 0)]];
                          [[(0, 0); (2, 0); (2, 2); (0, 2); (0, 0)]];
                          [[(0, 0); (3, 0); (3, 3); (0, 3); (0, 0)]]])))
     (fun p => Normal (match p with
                       | [[_; (s, _); _; _; _]] => s * s
                       | _ => 0
                       end))
     (fun p => match p with
               | [[_; (s, _); _; _; _]] => s * s
               | _ => 0
               end)
     (mkNetFeature (Some (mkLaneProps (Some "lane") (Some "e_0") None (Some "bus") None None))
        (Some ("LineString"%string, [(0, 0); (3, 3)]))))
    as (out & Hout & _); [reflexivity | reflexivity | reflexivity |].
  exists out. split; [exact Hout|].
  vm_compute in Hout. injection Hout as <-. reflexivity.
Defined.

(** ** Arrow markers *)

Lemma elem_of_concat {A} (x : A) (ls : list (list A)) :
  x ∈ concat ls <-> exists l, x ∈ l /\ l ∈ ls.
Proof.
  induction ls as [|l0 ls IH]; cbn [concat].
  - split; [intros H; inversion H | intros (l & _ & H); inversion H].
  - rewrite elem_of_app, IH. split.
    + intros [H|(l & H1 & H2)]; [exists l0; split; [exact H | left]|].
      exists l. split; [exact H1 | right; exact H2].
    + intros (l & H1 & H2). apply elem_of_cons in H2 as [->|H2]; [left; exact H1|].
      right. exists l. split; assumption.
Qed.

Lemma arrowFeatures_shape (hypot : Q -> Q -> Q) (f : NetFeature) :
  let coords := match nf_geometry f with
                | Some (_, coordinates) => coordinates
                | None => []
                end in
  ((length coords < 2)%nat /\ arrowFeatures hypot f = []) \/
  (exists pre p1 p2,
     coords = pre ++ [p1; p2] /\
     arrowFeatures hypot f =
       [ mkArrowFeature (nf_properties f)
           (ArrowHead [tip (arrowPoints hypot p1 p2); left (arrowPoints hypot p1 p2);
                       right (arrowPoints hypot p1 p2); tip (arrowPoints hypot p1 p2)]);
         mkArrowFeature
           (Some (spread (nf_properties f)
                    (Some (mkLaneProps (Some "arrow-stem") None None None None None))))
           (ArrowStem [stemBase (arrowPoints hypot p1 p2);
                       tip (arrowPoints hypot p1 p2)]) ]).
Proof.
  cbv zeta. unfold arrowFeatures. cbv zeta.
  set (coords := match nf_geometry f with Some (_, c) => c | None => [] end).
  destruct (length coords <? 2)%nat eqn:Hlen.
  - left. apply Nat.ltb_lt in Hlen. auto.
  - right. apply Nat.ltb_ge in Hlen.
    destruct (rev coords) as [|p2 [|p1 rpre]] eqn:Hrev.
    + apply (f_equal (@length _)) in Hrev. rewrite length_rev in Hrev. cbn in Hrev. lia.
    + apply (f_equal (@length _)) in Hrev. rewrite length_rev in Hrev. cbn in Hrev. lia.
    + assert (coords = rev rpre ++ [p1; p2]) as E.
      { rewrite <- (rev_involutive coords), Hrev. cbn [rev].
        rewrite <- app_assoc. reflexivity. }
      exists (rev rpre), p1, p2. split; [exact E|].
      assert (coords !! (length coords - 1)%nat = Some p2) as ->.
      { rewrite E, length_app. cbn [length].
        rewrite lookup_app_r by lia.
        replace (length (rev rpre) + 2 - 1 - length (rev rpre))%nat with 1%nat by lia.
        reflexivity. }
      assert (coords !! (length coords - 2)%nat = Some p1) as ->.
      { rewrite E, length_app. cbn [length].
        rewrite lookup_app_r by lia.
        replace (length (rev rpre) + 2 - 2 - length (rev rpre))%nat with 0%nat by lia.
        reflexivity. }
      reflexivity.
Qed.

(** X19. buildArrowTriangles emits two features, a head and a stem, for
    every feature with at least two coordinates and none for the others.
    Only the last two coordinates [p1], [p2] of a feature matter.  The head
    is a closed ring of four points that starts and ends at the tip and
    keeps the feature's properties; the stem is a line of two points that
    ends at that tip and has element ['arrow-stem']. *)
Theorem buildArrowTriangles_shape (hypot : Q -> Q -> Q) (features : list NetFeature) :
  let coords (f : NetFeature) :=
    match nf_geometry f with Some (_, c) => c | None => [] end in
  let head f p1 p2 :=
    let a := arrowPoints hypot p1 p2 in
    mkArrowFeature (nf_properties f) (ArrowHead [tip a; left a; right a; tip a]) in
  let stem f p1 p2 :=
    let a := arrowPoints hypot p1 p2 in
    mkArrowFeature
      (Some (spread (nf_properties f)
               (Some (mkLaneProps (Some "arrow-stem") None None None None None))))
      (ArrowStem [stemBase a; tip a]) in
  length (buildArrowTriangles hypot features) =
    (2 * length (filter (fun f => (2 <= length (coords f))%nat) features))%nat /\
  (forall a, a ∈ buildArrowTriangles hypot features <->
     exists f pre p1 p2,
       f ∈ features /\ coords f = pre ++ [p1; p2] /\
       (a = head f p1 p2 \/ a = stem f p1 p2)) /\
  (forall f p1 p2 q,
     a_properties (stem f p1 p2) = Some q -> lp_element q = Some "arrow-stem"%string).
Proof.
  cbv zeta. unfold buildArrowTriangles. split; [|split].
  - induction features as [|f fs IH]; [reflexivity|].
    cbn [fmap list_fmap concat]. rewrite length_app, IH, filter_cons.
    destruct (arrowFeatures_shape hypot f) as [[Hlen ->]|(pre & p1 & p2 & E & ->)];
      cbv zeta in *.
    + destruct (decide (2 <= length _)%nat) as [H|H]; [lia | reflexivity].
    + destruct (decide (2 <= length _)%nat) as [H|H]; [cbn [length]; lia|].
      exfalso. apply H. apply (f_equal (@length _)) in E.
      rewrite length_app in E. cbn [length] in E. lia.
  - intros a. rewrite elem_of_concat. split.
    + intros (l & Ha & Hl). apply list_elem_of_fmap in Hl as (f & -> & Hf).
      destruct (arrowFeatures_shape hypot f) as [[_ E]|(pre & p1 & p2 & Hc & E)];
        rewrite E in Ha; [inversion Ha|].
      exists f, pre, p1, p2. split; [exact Hf|]. split; [exact Hc|].
      apply elem_of_cons in Ha as [->|Ha]; [left; reflexivity|].
      apply list_elem_of_singleton in Ha as ->. right. reflexivity.
    + intros (f & pre & p1 & p2 & Hf & Hc & Ha).
      exists (arrowFeatures hypot f). split; [|apply list_elem_of_fmap; eauto].
      destruct (arrowFeatures_shape hypot f) as [[Hlen _]|(pre' & q1 & q2 & Hc' & ->)];
        cbv zeta in *.
      * rewrite Hc, length_app in Hlen. cbn [length] in Hlen. lia.
      * rewrite Hc in Hc'. apply app_inj_2 in Hc' as [_ [= <- <-]]; [|reflexivity].
        destruct Ha as [->| ->]; [left | right; left].
  - intros f p1 p2 q [= <-]. destruct (nf_properties f); reflexivity.
Qed.

Lemma buildArrowTriangles_shape_witness :
  length (buildArrowTriangles (fun dx dy => dx * dx + dy * dy)
            [mkNetFeature None (Some ("LineString"%string, [(0, 0); (0, 1); (2, 1)]));
             mkNetFeature None (Some ("LineString"%string, [(5, 5)]));
             mkNetFeature None None]) = 2%nat.
Proof.
  rewrite (proj1 (buildArrowTriangles_shape (fun dx dy => dx * dx + dy * dy) _)).
  reflexivity.
Defined.

(** X20. The divisor of the unit direction of an arrow is never zero,
    whatever value the length function returns: it is that value when it is
    not zero and 1 when it is, and the tip is [p2 - (p2 - p1) / len * size].
    When [p1] and [p2] coincide the four points collapse onto [p2]. *)
Theorem arrowPoints_guarded (hypot : Q -> Q -> Q) (p1 p2 : Q * Q) :
  let a := arrowPoints hypot p1 p2 in
  let len := arrowLength hypot p1 p2 in
  let size := 25 # 1000000 in
  ~ len == 0 /\
  (hypot (fst p2 - fst p1) (snd p2 - snd p1) == 0 -> len = 1) /\
  (~ hypot (fst p2 - fst p1) (snd p2 - snd p1) == 0 ->
   len = hypot (fst p2 - fst p1) (snd p2 - snd p1)) /\
  tip a = (fst p2 - (fst p2 - fst p1) / len * size,
           snd p2 - (snd p2 - snd p1) / len * size) /\
  (fst p1 == fst p2 -> snd p1 == snd p2 ->
   fst (tip a) == fst p2 /\ snd (tip a) == snd p2 /\
   fst (left a) == fst p2 /\ snd (left a) == snd p2 /\
   fst (right a) == fst p2 /\ snd (right a) == snd p2 /\
   fst (stemBase a) == fst p2 /\ snd (stemBase a) == snd p2).
Proof.
  cbv zeta. unfold arrowPoints, arrowLength. cbv zeta.
  cbn [tip left right stemBase fst snd].
  set (h := hypot (fst p2 - fst p1) (snd p2 - snd p1)).
  assert (~ (if Qeq_bool h 0 then 1 else h) == 0) as Hlen.
  { destruct (Qeq_bool h 0) eqn:E; [discriminate|].
    apply Qeq_bool_neq. exact E. }
  split; [exact Hlen|].
  split.
  { intros E. apply Qeq_bool_iff in E. rewrite E. reflexivity. }
  split.
  { intros N. destruct (Qeq_bool h 0) eqn:E; [|reflexivity].
    apply Qeq_bool_iff in E. contradiction. }
  split; [reflexivity|].
  intros Hx' Hy'.
  set (len := if Qeq_bool h 0 then 1 else h) in *. clearbody len. clear h.
  assert (fst p2 - fst p1 == 0) as Hx by lra.
  assert (snd p2 - snd p1 == 0) as Hy by lra.
  repeat split; rewrite ?Hx, ?Hy; field; exact Hlen.
Qed.

Lemma arrowPoints_guarded_witness :
  let a := arrowPoints (fun _ _ => 0) (3, 4) (3, 4) in
  arrowLength (fun _ _ => 0) (3, 4) (3, 4) = 1 /\
  arrowLength (fun dx dy => dx * dx + dy * dy) (0, 0) (3, 4) = 3 * 3 + 4 * 4 /\
  fst (tip a) == 3 /\ snd (tip a) == 4 /\
  fst (left a) == 3 /\ snd (left a) == 4 /\
  fst (right a) == 3 /\ snd (right a) == 4 /\
  fst (stemBase a) == 3 /\ snd (stemBase a) == 4.
Proof.
  cbv zeta.
  destruct (arrowPoints_guarded (fun _ _ => 0) (3, 4) (3, 4))
    as (_ & Hone & _ & _ & H).
  destruct (arrowPoints_guarded (fun dx dy => dx * dx + dy * dy) (0, 0) (3, 4))
    as (_ & _ & Hlen & _).
  split; [apply Hone; reflexivity|].
  split; [|apply H; reflexivity].
  rewrite Hlen; [reflexivity | discriminate].
Defined.

(** ** interpolateSample: the other fields *)

Lemma interpolateSample_in_bracket_le (d : Trip) (t : Q) (lo : nat)
    (pf p0 p1 : Sample) :
  sorted_by_time (path d) -> head (path d) = Some pf -> s_t pf < t ->
  path d !! lo = Some p0 -> path d !! S lo = Some p1 ->
  s_t p0 <= t -> t < s_t p1 ->
  interpolateSample d t = Normal (Some (interpolate p0 p1 t)).
Proof.
  intros Hs Hf Hlt H0 H1 Hle Hgt.
  assert (path d <> []) as Hne by (intros E; rewrite E in H0; discriminate).
  destruct (nonempty_head_last _ Hne) as (pf' & pl & Hf' & Hl).
  rewrite Hf in Hf'. injection Hf' as <-.
  pose proof Hl as Hl'. rewrite last_lookup in Hl'.
  assert (s_t p1 <= s_t pl).
  { apply (Hs (S lo) (Init.Nat.pred (length (path d)))); auto.
    apply lookup_lt_Some in H1. lia. }
  destruct (interpolateSample_inside d t pf pl Hf Hl Hlt ltac:(lra))
    as (lo' & q0 & q1 & _ & Hq0 & Hq1 & Hle' & Hlt' & Hr).
  assert (lo = lo') as <-
    by (apply (bracket_unique (path d) t lo lo' p0 p1 q0 q1); auto).
  rewrite H0 in Hq0. injection Hq0 as <-.
  rewrite H1 in Hq1. injection Hq1 as <-.
  exact Hr.
Qed.

(** X21. At the timestamp of a sample that lies after the first
    timestamp and before the next sample's, in a sorted path, the result has
    that sample's position, speed and angle (absent as 0).  Its ratio is the
    sample's ratio when present; when absent it is the next sample's ratio
    if that one is present, and 0 only when both are absent. *)
Theorem interpolateSample_at_inner_sample (d : Trip) (t : Q) (lo : nat)
    (pf p0 p1 : Sample) :
  sorted_by_time (path d) -> head (path d) = Some pf -> s_t pf < t ->
  path d !! lo = Some p0 -> path d !! S lo = Some p1 ->
  s_t p0 == t -> t < s_t p1 ->
  exists r,
    interpolateSample d t = Normal (Some r) /\
    fst (pos r) == s_lon p0 /\ snd (pos r) == s_lat p0 /\
    spd_mps r == default 0 (s_spd p0) /\
    angle r == default 0 (s_angle p0) /\
    ratio r == match s_ratio p0, s_ratio p1 with
               | Some a, _ => a
               | None, Some b => b
               | None, None => 0
               end.
Proof.
  intros Hs Hf Hlt H0 H1 E Hgt.
  assert (s_t p0 <= t) as Hle by (rewrite E; apply Qle_refl).
  exists (interpolate p0 p1 t). split.
  - apply (interpolateSample_in_bracket_le d t lo pf p0 p1); auto.
  - destruct (fraction_range p0 p1 t Hle Hgt) as (_ & _ & _ & Hz).
    specialize (Hz E). unfold interpolate, or_zero. cbv zeta.
    cbn [pos spd_mps angle ratio fst snd].
    repeat split; try (rewrite Hz; ring).
    destruct (s_ratio p0), (s_ratio p1); try reflexivity.
    rewrite Hz. ring.
Qed.

Lemma interpolateSample_at_inner_sample_witness :
  exists r, interpolateSample gap 5 = Normal (Some r) /\ ratio r == 4 # 5.
Proof.
  destruct (interpolateSample_at_inner_sample gap 5 1
              (mkSample 0 0 0 (Some 4) (Some (1 # 5)) (Some 350))
              (mkSample 1 1 5 (Some 6) None (Some 10))
              (mkSample 2 2 10 (Some 8) (Some (4 # 5)) (Some 20)))
    as (r & Hr & _ & _ & _ & _ & Hratio);
    try reflexivity; [apply sorted_by_timeb_sound; reflexivity|].
  exists r. split; [exact Hr | exact Hratio].
Defined.

(** X22. Strictly inside the sample range the result is computed from two
    adjacent samples [p0], [p1] with [p0.t <= t < p1.t] and the fraction
    [f = (t - p0.t) / (p1.t - p0.t)]: the speed and the angle are
    [v0 + (v1 - v0) * f] for the two samples' values (absent as 0), with the
    same fraction as the position.  The angle is interpolated as a plain
    number: between 350 and 10 it passes through 180. *)
Theorem interpolateSample_fields_linear (d : Trip) (t : Q) (pf pl : Sample) :
  head (path d) = Some pf -> last (path d) = Some pl ->
  s_t pf < t -> t < s_t pl ->
  exists lo p0 p1 r,
    path d !! lo = Some p0 /\ path d !! S lo = Some p1 /\
    s_t p0 <= t /\ t < s_t p1 /\
    interpolateSample d t = Normal (Some r) /\
    let f := (t - s_t p0) / (s_t p1 - s_t p0) in
    fst (pos r) = s_lon p0 + (s_lon p1 - s_lon p0) * f /\
    snd (pos r) = s_lat p0 + (s_lat p1 - s_lat p0) * f /\
    spd_mps r =
      default 0 (s_spd p0) + (default 0 (s_spd p1) - default 0 (s_spd p0)) * f /\
    angle r =
      default 0 (s_angle p0) + (default 0 (s_angle p1) - default 0 (s_angle p0)) * f.
Proof.
  intros Hf Hl Hlt Hgt.
  destruct (interpolateSample_inside d t pf pl Hf Hl Hlt Hgt)
    as (lo & p0 & p1 & _ & H0 & H1 & Hle & Hlt' & Hr).
  exists lo, p0, p1, (interpolate p0 p1 t).
  split; [exact H0|]. split; [exact H1|]. split; [exact Hle|]. split; [exact Hlt'|].
  split; [exact Hr|].
  unfold interpolate, or_zero. cbv zeta. cbn [pos spd_mps angle fst snd].
  rewrite (fraction_inside p0 p1 t Hle Hlt'). auto.
Qed.

Lemma interpolateSample_fields_linear_witness :
  exists r, interpolateSample gap (5 # 2) = Normal (Some r) /\
    angle r == 180 /\ spd_mps r == 5.
Proof.
  destruct (interpolateSample_fields_linear gap (5 # 2)
              (mkSample 0 0 0 (Some 4) (Some (1 # 5)) (Some 350))
              (mkSample 2 2 10 (Some 8) (Some (4 # 5)) (Some 20)))
    as (lo & p0 & p1 & r & _ & _ & _ & _ & Hr & _); try reflexivity.
  exists r. split; [exact Hr|].
  vm_compute in Hr. injection Hr as <-. split; reflexivity.
Defined.
